(** * DB_SIM: the storage engine, embedded and verified

    A shallow embedding of the C++ storage engine (Utility.cpp, Record.cpp,
    Constraint.cpp, Schema.cpp, Table.cpp, Database.cpp) together with the
    theorems that settle the engine's specified properties.

    Conventions of the embedding:
    - [std::string] is [string] (a sequence of 8-bit characters);
    - positions and lengths in a string ([size_t]) are [N]; a search that
      may return [std::string::npos] returns [option N], with [None] for
      [npos]; the size of a vector is the [nat] length of its list;
    - [std::unordered_map<std::string, V>] is [gmap string V]; the order in
      which a loop visits its entries is left open by the standard, so
      where that order shows in a result the sequence of visited entries
      is an argument of the function ([iteration_of]) or is not part of
      the result ([Row]);
    - [std::vector<T>] is [list T];
    - a member function that mutates its object returns the new object next
      to its C++ return value. *)

From Stdlib Require Import NArith ZArith Ascii String Bool List Lia.
From stdpp Require Import base option list gmap strings fin_maps sorting.

Local Open Scope N_scope.

(** ** [std::string] operations used by the engine *)

Module Str.

Definition size (s : string) : N := N.of_nat (String.length s).

Definition empty (s : string) : bool :=
  match s with EmptyString => true | String _ _ => false end.

(** [s.front()]; only called on non-empty strings. *)
Definition front (s : string) : ascii :=
  match s with EmptyString => Ascii.zero | String c _ => c end.

(** [s.back()]; only called on non-empty strings. *)
Fixpoint back (s : string) : ascii :=
  match s with
  | EmptyString => Ascii.zero
  | String c EmptyString => c
  | String _ r => back r
  end.

Fixpoint drop (n : nat) (s : string) : string :=
  match n, s with
  | O, _ => s
  | S n', String _ r => drop n' r
  | S _, EmptyString => EmptyString
  end.

Fixpoint take (n : nat) (s : string) : string :=
  match n, s with
  | S n', String c r => String c (take n' r)
  | _, _ => EmptyString
  end.

(** Subtraction on [size_t]: exact when there is no borrow, wrapping
    around [2^64] when there is one. *)
Definition sub (a b : N) : N :=
  if b <=? a then a - b else 2 ^ 64 - (b - a).

(** [s.substr(pos, len)]: the characters from [pos], at most [len] of them.
    ([pos > s.size()] raises [std::out_of_range] in C++; every call of the
    engine has [pos <= s.size()].) *)
Definition substr (s : string) (pos len : N) : string :=
  take (N.to_nat (N.min len (size s - pos))) (drop (N.to_nat pos) s).

(** [s.substr(pos)]: everything from [pos]. *)
Definition substr_from (s : string) (pos : N) : string :=
  drop (N.to_nat pos) s.

(** [s.find(c)]: position of the first [c]. *)
Fixpoint find_char (c : ascii) (s : string) : option N :=
  match s with
  | EmptyString => None
  | String a r =>
      if Ascii.eqb a c then Some 0 else N.succ <$> find_char c r
  end.

(** [s.rfind(p, 0) == 0]: [s] starts with [p]. *)
Fixpoint starts_with (p s : string) : bool :=
  match p, s with
  | EmptyString, _ => true
  | String a p', String b s' => Ascii.eqb a b && starts_with p' s'
  | String _ _, EmptyString => false
  end.

(** [s.find(p)] for a string pattern: position of the first occurrence. *)
Fixpoint find_str (p : string) (s : string) : option N :=
  if starts_with p s then Some 0
  else match s with
       | EmptyString => None
       | String _ r => N.succ <$> find_str p r
       end.

(** Membership of a character in the set given as a string. *)
Fixpoint mem (c : ascii) (set : string) : bool :=
  match set with
  | EmptyString => false
  | String a r => Ascii.eqb a c || mem c r
  end.

(** [s.find_first_not_of(set)]. *)
Fixpoint find_first_not_of (set : string) (s : string) : option N :=
  match s with
  | EmptyString => None
  | String a r =>
      if mem a set then N.succ <$> find_first_not_of set r else Some 0
  end.

(** [s.find_last_not_of(set)]. *)
Fixpoint find_last_not_of (set : string) (s : string) : option N :=
  match s with
  | EmptyString => None
  | String a r =>
      match find_last_not_of set r with
      | Some i => Some (N.succ i)
      | None => if mem a set then None else Some 0
      end
  end.

(** [std::getline(stream, line, delim)] on a stream whose unread characters
    are [s]: [None] when the extraction fails (nothing left to read),
    otherwise the line and the characters left unread.  The delimiter is
    consumed and not stored. *)
Fixpoint read_until (delim : ascii) (s : string) : string * string :=
  match s with
  | EmptyString => (EmptyString, EmptyString)
  | String a r =>
      if Ascii.eqb a delim then (EmptyString, r)
      else let '(l, rest) := read_until delim r in (String a l, rest)
  end.

Definition getline (delim : ascii) (s : string) : option (string * string) :=
  match s with
  | EmptyString => None
  | String _ _ => Some (read_until delim s)
  end.

(** All the lines that successive [getline] calls extract from [s]. *)
Fixpoint getlines (delim : ascii) (s : string) : list string :=
  match s with
  | EmptyString => []
  | String a r =>
      if Ascii.eqb a delim then EmptyString :: getlines delim r
      else match getlines delim r with
           | [] => [String a EmptyString]
           | l :: ls => String a l :: ls
           end
  end.

End Str.

(** ** Utility.cpp *)

Module Utility.

Definition whitespace : string :=
  String " " (String "009" (String "010" (String "013" EmptyString))).

(** [Utility::trim]. *)
Definition trim (s : string) : string :=
  match Str.find_first_not_of whitespace s with
  | None => EmptyString
  | Some start =>
      match Str.find_last_not_of whitespace s with
      | Some end_ => Str.substr s start (Str.sub end_ start + 1)
      | None => EmptyString  (* not reached: see [find_last_not_of_Some] *)
      end
  end.

(** [Utility::split]: the [getline] loop, each token trimmed. *)
Definition split (s : string) (delimiter : ascii) : list string :=
  map trim (Str.getlines delimiter s).

(** [Utility::removeApostrophe]. *)
Definition removeApostrophe (s : string) : string :=
  if negb (Str.empty s) && Ascii.eqb (Str.front s) "'" && Ascii.eqb (Str.back s) "'"
  then Str.substr s 1 (Str.sub (Str.size s) 2)
  else s.

End Utility.

(** ** [<algorithm>]: the erase-remove idiom *)

Module Algorithm.
Section RemoveIf.
Context {A : Type}.
Variable p : A -> bool.

(** [std::find_if(first, last, p)], as an index into the vector. *)
Fixpoint find_if (v : list A) : nat :=
  match v with
  | [] => O
  | x :: r => if p x then O else S (find_if r)
  end.

(** The body of [std::remove_if] after the first match was found:
      [for (i = first; ++i != last;) if (!p( *i)) *first++ = std::move( *i);]
    [n] is the number of iterations left, [i] the element inspected next,
    [first] the slot written next. *)
Fixpoint remove_if_loop (n i first : nat) (v : list A) : nat * list A :=
  match n with
  | O => (first, v)
  | S n' =>
      match v !! i with
      | Some x =>
          if p x then remove_if_loop n' (S i) first v
          else remove_if_loop n' (S i) (S first) (<[first := x]> v)
      | None => (first, v)
      end
  end.

(** [std::remove_if(v.begin(), v.end(), p)]: the new logical end and the
    vector after the moves. *)
Definition remove_if (v : list A) : nat * list A :=
  let first := find_if v in
  if Nat.eqb first (length v) then (first, v)
  else remove_if_loop (length v - S first) (S first) first v.

(** [v.erase(newEnd, v.end())]. *)
Definition erase_to_end (newEnd : nat) (v : list A) : list A := take newEnd v.

(** [v.erase(std::remove_if(v.begin(), v.end(), p), v.end())]. *)
Definition erase_remove_if (v : list A) : list A :=
  let '(newEnd, v') := remove_if v in erase_to_end newEnd v'.
End RemoveIf.
End Algorithm.

(** ** Column.h, Constraint.h, Schema.h, Record.h *)

Inductive DataType := INTEGER | FLOAT | STRING.

Record Column := mkColumn {
  col_name : string;
  col_type : DataType;
  allowNull : bool;
  defaultValue : string
}.

(** [Column(name, type)] with the default arguments of the constructor. *)
Definition Column_ (n : string) (ty : DataType) : Column :=
  mkColumn n ty true EmptyString.

(** The three subclasses of [Constraint]; a [dynamic_cast] chain in the
    source is a [match] here. *)
Inductive Constraint :=
| PrimaryKeyConstraint (columnNames : list string)
| UniqueConstraint (columnNames : list string)
| ForeignKeyConstraint (columnNames : list string)
                       (referencedTable : string)
                       (referencedColumns : list string).

Record Schema := mkSchema {
  columns : list Column;
  constraints : list Constraint
}.

Definition addColumn (c : Column) (s : Schema) : Schema :=
  mkSchema (columns s ++ [c]) (constraints s).

Definition addConstraint (c : Constraint) (s : Schema) : Schema :=
  mkSchema (columns s) (constraints s ++ [c]).

(** [Record]: the row, a map from column name to value. *)
Abbreviation DbRecord := (gmap string string).

Definition setValue (columnName value : string) (r : DbRecord) : DbRecord :=
  <[columnName := value]> r.

(** [Record::getValue]; [None] stands for the [std::runtime_error]. *)
Definition getValue (columnName : string) (r : DbRecord) : option string :=
  r !! columnName.

Definition hasColumn (columnName : string) (r : DbRecord) : bool :=
  match r !! columnName with Some _ => true | None => false end.

(** ** Table.cpp *)

Record Table := mkTable {
  name : string;
  schema : Schema;
  records : list DbRecord
}.

Definition with_records (t : Table) (rs : list DbRecord) : Table :=
  mkTable (name t) (schema t) rs.

Definition with_schema (t : Table) (s : Schema) : Table :=
  mkTable (name t) s (records t).

(** What [insertRecord] writes to [std::cerr] before it returns [false]. *)
Inductive InsertError :=
| MissingColumn (pk : bool) (col : string)
| EmptyKeyValue (col : string)
| DuplicateEntry (pk : bool) (keyColumns : list string).

(** The loop gathering the new record's values for a constraint's columns;
    [pk] tells the primary-key copy of the loop (which also refuses an empty
    value) from the unique-constraint copy. *)
Fixpoint gather_new (pk : bool) (keyColumns : list string) (record : DbRecord)
  : InsertError + list string :=
  match keyColumns with
  | [] => inr []
  | col :: rest =>
      if negb (hasColumn col record) then inl (MissingColumn pk col)
      else
        let value := default EmptyString (getValue col record) in
        if pk && Str.empty value then inl (EmptyKeyValue col)
        else match gather_new pk rest record with
             | inl e => inl e
             | inr vs => inr (value :: vs)
             end
  end.

(** The loop gathering an existing record's values; [None] when a column is
    missing ([missing = true], the record is skipped). *)
Fixpoint gather_existing (keyColumns : list string) (existingRecord : DbRecord)
  : option (list string) :=
  match keyColumns with
  | [] => Some []
  | col :: rest =>
      if negb (hasColumn col existingRecord) then None
      else
        match gather_existing rest existingRecord with
        | None => None
        | Some vs => Some (default EmptyString (getValue col existingRecord) :: vs)
        end
  end.

(** The scan of the existing records for the same key values. *)
Fixpoint has_duplicate (keyColumns newValues : list string) (rs : list DbRecord) : bool :=
  match rs with
  | [] => false
  | existingRecord :: rest =>
      match gather_existing keyColumns existingRecord with
      | None => has_duplicate keyColumns newValues rest
      | Some existingValues =>
          if bool_decide (existingValues = newValues) then true
          else has_duplicate keyColumns newValues rest
      end
  end.

Definition check_key (pk : bool) (keyColumns : list string)
    (record : DbRecord) (rs : list DbRecord) : option InsertError :=
  match gather_new pk keyColumns record with
  | inl e => Some e
  | inr newValues =>
      if has_duplicate keyColumns newValues rs
      then Some (DuplicateEntry pk keyColumns) else None
  end.

(** The loop over the schema's constraints: the first violation, if any. *)
Fixpoint check_constraints (cs : list Constraint)
    (record : DbRecord) (rs : list DbRecord) : option InsertError :=
  match cs with
  | [] => None
  | c :: rest =>
      let r :=
        match c with
        | PrimaryKeyConstraint keyColumns => check_key true keyColumns record rs
        | UniqueConstraint keyColumns => check_key false keyColumns record rs
        | ForeignKeyConstraint _ _ _ => None
        end in
      match r with
      | Some e => Some e
      | None => check_constraints rest record rs
      end
  end.

Definition insert_check (record : DbRecord) (t : Table) : option InsertError :=
  check_constraints (constraints (schema t)) record (records t).

(** [Table::insertRecord]. *)
Definition insertRecord (record : DbRecord) (t : Table) : bool * Table :=
  match insert_check record t with
  | Some _ => (false, t)
  | None => (true, with_records t (records t ++ [record]))
  end.

(** The inner loop [for (pair : newRecord.getData()) record.setValue(...)]. *)
Definition apply_patch (newRecord record : DbRecord) : DbRecord :=
  map_fold (fun col value r => setValue col value r) record newRecord.

(** The loop of [updateRecord] over the records, threading [updated]. *)
Fixpoint update_loop (newRecord : DbRecord) (condCol condVal : string)
    (rs : list DbRecord) (updated : bool) : bool * list DbRecord :=
  match rs with
  | [] => (updated, [])
  | record :: rest =>
      match getValue condCol record with
      | Some value =>
          if String.eqb value condVal then
            let '(u, rest') := update_loop newRecord condCol condVal rest true in
            (u, apply_patch newRecord record :: rest')
          else
            let '(u, rest') := update_loop newRecord condCol condVal rest updated in
            (u, record :: rest')
      | None =>
          let '(u, rest') := update_loop newRecord condCol condVal rest updated in
          (u, record :: rest')
      end
  end.

(** [Table::updateRecord]. *)
Definition updateRecord (newRecord : DbRecord) (condition : string) (t : Table)
  : bool * Table :=
  let cond := Utility.trim condition in
  if Str.empty cond || String.eqb cond "all" then
    (true, with_records t (map (apply_patch newRecord) (records t)))
  else
    match Str.find_char "=" cond with
    | None => (false, t)
    | Some pos =>
        let condCol := Utility.trim (Str.substr cond 0 pos) in
        let condVal := Utility.trim (Str.substr_from cond (pos + 1)) in
        let '(updated, rs) := update_loop newRecord condCol condVal (records t) false in
        (updated, with_records t rs)
    end.

(** The predicate handed to [std::remove_if] by [deleteRecord]. *)
Definition delete_pred (condCol condVal : string) (record : DbRecord) : bool :=
  match getValue condCol record with
  | Some value => String.eqb value condVal
  | None => false
  end.

(** [Table::deleteRecord]. *)
Definition deleteRecord (condition : string) (t : Table) : bool * Table :=
  let cond := Utility.trim condition in
  if String.eqb cond "all" then (true, with_records t [])
  else
    match Str.find_char "=" cond with
    | None => (false, t)
    | Some pos =>
        let condCol := Utility.trim (Str.substr cond 0 pos) in
        let condVal := Utility.trim (Str.substr_from cond (pos + 1)) in
        let condVal :=
          if negb (Str.empty condVal) && Ascii.eqb (Str.front condVal) "'"
             && Ascii.eqb (Str.back condVal) "'"
          then Str.substr condVal 1 (Str.sub (Str.size condVal) 2)
          else condVal in
        let beforeSize := length (records t) in
        let rs := Algorithm.erase_remove_if (delete_pred condCol condVal) (records t) in
        let afterSize := length rs in
        (Nat.ltb afterSize beforeSize, with_records t rs)
    end.

(** ** Database.cpp: numbers in the file format *)

Module Num.

Definition digit_char (d : N) : ascii := ascii_of_N (48 + d).

Definition is_digit (c : ascii) : bool :=
  (48 <=? N_of_ascii c) && (N_of_ascii c <=? 57).

Definition digit_value (c : ascii) : N := N_of_ascii c - 48.

(** [oss << n] for an unsigned [n]: its decimal digits, most significant
    first.  [fuel] bounds the number of digits. *)
Fixpoint to_decimal_loop (fuel : nat) (n : N) (acc : string) : string :=
  match fuel with
  | O => acc
  | S fuel' =>
      let acc' := String (digit_char (n mod 10)) acc in
      if n <? 10 then acc' else to_decimal_loop fuel' (n / 10) acc'
  end.

Definition to_decimal (n : N) : string :=
  to_decimal_loop (S (N.to_nat (N.log2 n))) n EmptyString.

(** The value of the longest prefix of decimal digits, continuing [acc]. *)
Fixpoint digits_value (acc : N) (s : string) : N :=
  match s with
  | EmptyString => acc
  | String c r =>
      if is_digit c then digits_value (10 * acc + digit_value c) r else acc
  end.

(** [isspace] in the C locale. *)
Definition is_space (c : ascii) : bool :=
  let n := N_of_ascii c in (n =? 32) || ((9 <=? n) && (n <=? 13)).

Fixpoint skip_spaces (s : string) : string :=
  match s with
  | EmptyString => EmptyString
  | String c r => if is_space c then skip_spaces r else s
  end.

(** [std::stoi(s)]: leading white space, an optional sign, then decimal
    digits up to the first other character.  [None] stands for the
    exception it throws: [std::invalid_argument] when there is no digit,
    [std::out_of_range] when the value does not fit an [int]. *)
Definition stoi (s : string) : option Z :=
  let s1 := skip_spaces s in
  let '(negative, s2) :=
    match s1 with
    | String "-" r => (true, r)
    | String "+" r => (false, r)
    | _ => (false, s1)
    end in
  if is_digit (Str.front s2) then
    let v := Z.of_N (digits_value 0 s2) in
    let z := if negative then (- v)%Z else v in
    if ((- 2 ^ 31 <=? z) && (z <=? 2 ^ 31 - 1))%Z then Some z else None
  else None.

End Num.

(** ** Database.cpp: the cipher *)

(** [a ^ b] on two [char]s, stored back into a [char]. *)
Definition xor_char (a b : ascii) : ascii :=
  ascii_of_N (N.lxor (N_of_ascii a) (N_of_ascii b)).

(** [key[i]]. *)
Definition char_at (s : string) (i : N) : ascii :=
  default Ascii.zero (String.get (N.to_nat i) s).

(** The loop [for (i = 0; i < data.size(); ++i) out[i] = data[i] ^ key[i % key.size()]],
    from index [i] on. *)
Fixpoint xor_loop (i : N) (data key : string) : string :=
  match data with
  | EmptyString => EmptyString
  | String c rest =>
      String (xor_char c (char_at key (i mod Str.size key)))
             (xor_loop (i + 1) rest key)
  end.

(** [Database::encryptData].  With an empty key and non-empty data the
    source divides by zero ([i % key.size()]): undefined behaviour, [None]. *)
Definition encryptData (data key : string) : option string :=
  if Str.empty key && negb (Str.empty data) then None
  else Some (xor_loop 0 data key).

(** [Database::decryptData]: the same loop, written a second time. *)
Definition decryptData (data key : string) : option string :=
  if Str.empty key && negb (Str.empty data) then None
  else Some (xor_loop 0 data key).

(** ** Database.cpp: the catalog

    [tables] maps a name to a [std::shared_ptr<Table>]; every pointer stored
    in it comes from its own [std::make_shared] (CREATE TABLE and the
    loader), so no two entries alias and the catalog is a map to tables. *)

Abbreviation Tables := (gmap string Table).

Definition addTable (tableName : string) (table : Table) (tables : Tables) : Tables :=
  <[tableName := table]> tables.

Definition getTable (tableName : string) (tables : Tables) : option Table :=
  tables !! tableName.

(** The predicate handed to [std::remove_if] by [dropTable]. *)
Definition references_table (tableName : string) (c : Constraint) : bool :=
  match c with
  | ForeignKeyConstraint _ referencedTable _ => String.eqb referencedTable tableName
  | _ => false
  end.

Definition strip_foreign_keys (tableName : string) (t : Table) : Table :=
  with_schema t
    (mkSchema (columns (schema t))
       (Algorithm.erase_remove_if (references_table tableName)
          (constraints (schema t)))).

(** [Database::dropTable]. *)
Definition dropTable (tableName : string) (tables : Tables) : bool * Tables :=
  match getTable tableName tables with
  | None => (false, tables)
  | Some _ =>
      (true, delete tableName (strip_foreign_keys tableName <$> tables))
  end.



(** [Database::update]. *)
Definition update (tableName : string) (assignments : list (string * string))
    (condition : string) (tables : Tables) : bool * Tables :=
  match getTable tableName tables with
  | None => (false, tables)
  | Some table =>
      let updateRec :=
        fold_left (fun r a => setValue (fst a) (snd a) r) assignments ∅ in
      let '(ok, table') := updateRecord updateRec condition table in
      (ok, <[tableName := table']> tables)
  end.

(** [Database::remove]. *)
Definition remove (tableName condition : string) (tables : Tables) : bool * Tables :=
  match getTable tableName tables with
  | None => (false, tables)
  | Some table =>
      let '(ok, table') := deleteRecord condition table in
      (ok, <[tableName := table']> tables)
  end.

(** ** Database.cpp: the file format *)

Definition newline : ascii := "010".
Definition nl : string := String newline EmptyString.

(** The loops of the form
      [for (i = 0; i < v.size(); ++i) { oss << v[i]; if (i != v.size() - 1) oss << sep; }] *)
Fixpoint join (sep : string) (v : list string) : string :=
  match v with
  | [] => EmptyString
  | [x] => x
  | x :: rest => x +:+ sep +:+ join sep rest
  end.

Definition write_constraint (c : Constraint) : string :=
  match c with
  | PrimaryKeyConstraint cols => "PK(" +:+ join "," cols +:+ ")"
  | UniqueConstraint cols => "UQ(" +:+ join "," cols +:+ ")"
  | ForeignKeyConstraint localCols referencedTable refCols =>
      "FK(" +:+ join "," localCols +:+ ")->" +:+ referencedTable +:+ "("
        +:+ join "," refCols +:+ ")"
  end.

(** The loop over the constraints, threading [firstConstraint]. *)
Fixpoint write_constraints (cs : list Constraint) (firstConstraint : bool) : string :=
  match cs with
  | [] => EmptyString
  | c :: rest =>
      (if firstConstraint then EmptyString else ";")
        +:+ write_constraint c +:+ write_constraints rest false
  end.

(** One record line: the values in the order of the schema's columns, an
    absent value written as the empty string. *)
Definition record_values (cols : list Column) (record : DbRecord) : list string :=
  map (fun c =>
         if hasColumn (col_name c) record
         then default EmptyString (getValue (col_name c) record)
         else EmptyString) cols.

Definition write_record (cols : list Column) (record : DbRecord) : string :=
  join "|" (record_values cols record) +:+ nl.

Fixpoint write_records (cols : list Column) (rs : list DbRecord) : string :=
  match rs with
  | [] => EmptyString
  | record :: rest => write_record cols record +:+ write_records cols rest
  end.

(** What the body of the loop over [tables] appends to [oss] for one entry. *)
Definition write_table (tableName : string) (table : Table) : string :=
  let cols := columns (schema table) in
  "TABLE:" +:+ tableName +:+ nl
  +:+ "COLUMNS:" +:+ join "," (map col_name cols) +:+ nl
  +:+ "CONSTRAINTS:" +:+ write_constraints (constraints (schema table)) true +:+ nl
  +:+ "RECORDS:" +:+ Num.to_decimal (N.of_nat (length (records table))) +:+ nl
  +:+ write_records cols (records table)
  +:+ "END_TABLE" +:+ nl.

Fixpoint write_tables (entries : list (string * Table)) : string :=
  match entries with
  | [] => EmptyString
  | (tableName, table) :: rest => write_table tableName table +:+ write_tables rest
  end.

(** A sequence in which a range-for can visit the entries of the
    [std::unordered_map] [tables]: every entry once, in an order that the
    standard leaves open. *)
Definition iteration_of (tables : Tables) (visited : list (string * Table)) : Prop :=
  visited ≡ₚ map_to_list tables.

(** [oss.str()] after the loop over [tables], which visits the entries in
    the sequence [visited]. *)
Definition serialize (visited : list (string * Table)) : string :=
  write_tables visited.

(** The files seen by the engine: their contents, and which paths an
    [std::ofstream] can open. *)
Record FileSystem := mkFileSystem {
  fs_files : gmap string string;
  fs_writable : string -> bool
}.

(** [Database::flushToFile], its loop over [tables] visiting the entries in
    the sequence [visited].  [None]: undefined behaviour in [encryptData]. *)
Definition flushToFile (filename key : string) (visited : list (string * Table))
    (fs : FileSystem) : option (bool * FileSystem) :=
  match encryptData (serialize visited) key with
  | None => None
  | Some encryptedData =>
      if negb (fs_writable fs filename) then Some (false, fs)
      else Some (true, mkFileSystem (<[filename := encryptedData]> (fs_files fs))
                                    (fs_writable fs))
  end.

(** The body of the loop over the constraint tokens. *)
Definition parse_constraint (token : string) (s : Schema) : Schema :=
  if Str.starts_with "PK(" token then
    let cols := Str.substr token 3 (Str.sub (Str.size token) 4) in
    addConstraint (PrimaryKeyConstraint (Utility.split cols ",")) s
  else if Str.starts_with "UQ(" token then
    let cols := Str.substr token 3 (Str.sub (Str.size token) 4) in
    addConstraint (UniqueConstraint (Utility.split cols ",")) s
  else if Str.starts_with "FK(" token then
    match Str.find_str ")->" token with
    | None => s
    | Some posArrow =>
        let localPart := Str.substr token 3 (Str.sub posArrow 3) in
        let localCols := Utility.split localPart "," in
        let rest := Str.substr_from token (posArrow + 3) in
        match Str.find_char "(" rest with
        | None => s
        | Some posParen =>
            let refTable := Utility.trim (Str.substr rest 0 posParen) in
            let refColsStr :=
              Str.substr rest (posParen + 1)
                (Str.sub (Str.sub (Str.size rest) posParen) 2) in
            let refCols := Utility.split refColsStr "," in
            addConstraint (ForeignKeyConstraint localCols refTable refCols) s
        end
    end
  else s.

(** The loop [for (j = 0; j < columnNames.size(); ++j)] building one record. *)
Fixpoint build_record (columnNames : list string) (j : nat) (values : list string)
    (record : DbRecord) : DbRecord :=
  match columnNames with
  | [] => record
  | col :: rest =>
      let value := match values !! j with Some v => v | None => EmptyString end in
      build_record rest (S j) values (setValue col value record)
  end.

(** The loop [for (i = 0; i < recordCount; ++i)] reading the record lines;
    [n] is the number of iterations left.  Returns the stream and the table. *)
Fixpoint read_records (n : nat) (columnNames : list string) (iss : string)
    (table : Table) : string * Table :=
  match n with
  | O => (iss, table)
  | S n' =>
      match Str.getline newline iss with
      | None => (iss, table)
      | Some (line, iss') =>
          let line := Utility.trim line in
          let values := Utility.split line "|" in
          let record := build_record columnNames 0 values ∅ in
          read_records n' columnNames iss' (snd (insertRecord record table))
      end
  end.

(** How [loadFromFile] ends. *)
Inductive LoadOutcome :=
| LoadTrue                (* [return true] *)
| LoadFalse               (* [return false] *)
| LoadThrows.             (* an exception of [std::stoi] leaves the function *)

(** The [while (std::getline(iss, line))] loop.  [iss] holds the unread
    characters of the stream.  Every iteration consumes at least one
    character, so [fuel] above the length of [iss] is never used up
    ([load_loop_fuel]); [None] is the result when it is. *)
Fixpoint load_loop (fuel : nat) (iss : string) (tables : Tables)
  : option (LoadOutcome * Tables) :=
  match fuel with
  | O => None
  | S fuel' =>
  match Str.getline newline iss with
  | None => Some (LoadTrue, tables)
  | Some (line, iss) =>
  let line := Utility.trim line in
  if Str.empty line then load_loop fuel' iss tables
  else if negb (Str.starts_with "TABLE:" line) then load_loop fuel' iss tables
  else
  let tableName := Utility.trim (Str.substr_from line 6) in
  match Str.getline newline iss with
  | None => Some (LoadTrue, tables)
  | Some (line, iss) =>
  let line := Utility.trim line in
  if negb (Str.starts_with "COLUMNS:" line) then Some (LoadFalse, tables)
  else
  let columnsStr := Utility.trim (Str.substr_from line 8) in
  let columnNames := Utility.split columnsStr "," in
  let schema0 :=
    fold_left (fun s colName => addColumn (Column_ colName STRING) s)
      columnNames (mkSchema [] []) in
  match Str.getline newline iss with
  | None => Some (LoadTrue, tables)
  | Some (line, iss) =>
  let line := Utility.trim line in
  if negb (Str.starts_with "CONSTRAINTS:" line) then Some (LoadFalse, tables)
  else
  let constraintsStr := Utility.trim (Str.substr_from line 12) in
  let schema1 :=
    if negb (Str.empty constraintsStr)
    then fold_left (fun s token => parse_constraint token s)
           (Utility.split constraintsStr ";") schema0
    else schema0 in
  match Str.getline newline iss with
  | None => Some (LoadTrue, tables)
  | Some (line, iss) =>
  let line := Utility.trim line in
  if negb (Str.starts_with "RECORDS:" line) then Some (LoadFalse, tables)
  else
  match Num.stoi (Utility.trim (Str.substr_from line 8)) with
  | None => Some (LoadThrows, tables)
  | Some recordCount =>
  let table := mkTable tableName schema1 [] in
  let '(iss, table) := read_records (Z.to_nat recordCount) columnNames iss table in
  match Str.getline newline iss with
  | None => Some (LoadTrue, tables)
  | Some (line, iss) =>
  let line := Utility.trim line in
  if negb (String.eqb line "END_TABLE") then Some (LoadFalse, tables)
  else load_loop fuel' iss (addTable tableName table tables)
  end end end end end end
  end.

(** [Database::loadFromFile]: the outcome and the catalog it leaves.
    [None]: undefined behaviour in [decryptData]. *)
Definition loadFromFile (filename key : string) (tables : Tables) (fs : FileSystem)
  : option (LoadOutcome * Tables) :=
  match fs_files fs !! filename with
  | None => Some (LoadFalse, tables)
  | Some encryptedData =>
      match decryptData encryptedData key with
      | None => None
      | Some decryptedData =>
          match load_loop (S (String.length decryptedData)) decryptedData ∅ with
          | Some r => Some r
          | None => Some (LoadTrue, ∅)   (* not reached: [load_loop_fuel] *)
          end
      end
  end.

(** ** Vocabulary of the statements *)

(** The column and the literal that [updateRecord] and [deleteRecord]
    extract from a condition [column = literal]; [None] when the trimmed
    condition has no ['=']. *)
Definition equality_clause (condition : string) : option (string * string) :=
  let cond := Utility.trim condition in
  match Str.find_char "=" cond with
  | None => None
  | Some pos =>
      Some (Utility.trim (Str.substr cond 0 pos),
            Utility.trim (Str.substr_from cond (pos + 1)))
  end.

(** The table reached from [t] by a sequence of [insertRecord] calls, the
    rejected ones leaving the table as it was. *)
Definition insert_all (t : Table) (rs : list DbRecord) : Table :=
  fold_left (fun t r => snd (insertRecord r t)) rs t.

(** What an [InsertError] reports about the record and the table. *)
Definition explains (e : InsertError) (record : DbRecord) (t : Table) : Prop :=
  match e with
  | MissingColumn pk col =>
      exists K, (if pk then PrimaryKeyConstraint K else UniqueConstraint K)
                  ∈ constraints (schema t)
                /\ col ∈ K /\ record !! col = None
  | EmptyKeyValue col =>
      exists K, PrimaryKeyConstraint K ∈ constraints (schema t)
                /\ col ∈ K /\ record !! col = Some EmptyString
  | DuplicateEntry pk K =>
      (if pk then PrimaryKeyConstraint K else UniqueConstraint K)
        ∈ constraints (schema t)
      /\ exists existing, existing ∈ records t
           /\ forall col, col ∈ K ->
                is_Some (record !! col) /\ existing !! col = record !! col
  end.

(** The invariant kept by [insertRecord] for a primary key on [K]: every
    record has a value for each column of [K], and the key values of the
    records are pairwise different. *)
Definition pk_invariant (K : list string) (rs : list DbRecord) : Prop :=
  Forall (fun r => is_Some (gather_existing K r)) rs
  /\ NoDup (map (gather_existing K) rs).


(** *** Catalogs that the file format can carry

    The format has no escaping: a name or a value is written as it is,
    between the separators.  The following predicates single out the
    catalogs whose names and values do not interfere with it. *)

(** [s] contains none of the characters of [forbidden]. *)
Fixpoint free_of (forbidden s : string) : bool :=
  match s with
  | EmptyString => true
  | String c r => negb (Str.mem c forbidden) && free_of forbidden r
  end.

(** [s] neither starts nor ends with a character removed by [trim]. *)
Definition no_outer_space (s : string) : bool :=
  match s with
  | EmptyString => true
  | String _ _ =>
      negb (Str.mem (Str.front s) Utility.whitespace)
      && negb (Str.mem (Str.back s) Utility.whitespace)
  end.

(** A non-empty name without outer white space and without the characters
    of [forbidden]. *)
Definition plain_name (forbidden s : string) : bool :=
  negb (Str.empty s) && no_outer_space s && free_of forbidden s.

Definition plain_constraint (c : Constraint) : bool :=
  match c with
  | PrimaryKeyConstraint cols => forallb (plain_name (",;" +:+ nl)) cols
  | UniqueConstraint cols => forallb (plain_name (",;" +:+ nl)) cols
  | ForeignKeyConstraint cols ref refCols =>
      forallb (plain_name (",;)" +:+ nl)) cols
      && no_outer_space ref && free_of ("(;" +:+ nl) ref
      && forallb (plain_name (",;" +:+ nl)) refCols
  end.

Definition plain_value (v : string) : bool :=
  no_outer_space v && free_of ("|" +:+ nl) v.

(** The record has a value for exactly the columns [cols], each of them
    plain. *)
Definition plain_record (cols : list string) (r : DbRecord) : Prop :=
  (forall c, is_Some (r !! c) <-> c ∈ cols)
  /\ (forall c v, r !! c = Some v -> plain_value v = true).

(** Every record passes the checks of [insertRecord] against the records
    before it. *)
Definition replayable (cs : list Constraint) (rs : list DbRecord) : Prop :=
  forall pre r post, rs = pre ++ r :: post -> check_constraints cs r pre = None.

Definition plain_table (tableName : string) (t : Table) : Prop :=
  no_outer_space tableName = true
  /\ free_of nl tableName = true
  /\ forallb (plain_name ("," +:+ nl)) (map col_name (columns (schema t))) = true
  /\ forallb plain_constraint (constraints (schema t)) = true
  /\ Forall (plain_record (map col_name (columns (schema t)))) (records t)
  /\ replayable (constraints (schema t)) (records t)
  /\ N.of_nat (length (records t)) < 2 ^ 31.

Definition plain_catalog (tables : Tables) : Prop :=
  forall tableName t, tables !! tableName = Some t -> plain_table tableName t.

(** The table that the loader builds from the frame of [t] stored under
    [tableName]: the columns come back with the type [STRING] and the
    default attributes. *)
Definition reloaded (tableName : string) (t : Table) : Table :=
  mkTable tableName
    (mkSchema (map (fun c => Column_ (col_name c) STRING) (columns (schema t)))
              (constraints (schema t)))
    (records t).

(** The [j]-th field of a line, as the loader reads it: empty when the line has fewer fields. *)
Definition field (values : list string) (j : nat) : string :=
  match values !! j with Some v => v | None => EmptyString end.

(** The value written for a column: the stored one, or the empty string. *)
Definition written_value (r : DbRecord) (c : string) : string :=
  default EmptyString (r !! c).

(** The string consists of decimal digits. *)
Fixpoint all_digits (s : string) : bool :=
  match s with
  | EmptyString => true
  | String c r => Num.is_digit c && all_digits r
  end.

(** One step of the loader's bookkeeping: the table reloaded from an entry
    is stored under the entry's name. *)
Definition add_reloaded (acc : Tables) (e : string * Table) : Tables :=
  addTable (fst e) (reloaded (fst e) (snd e)) acc.

(** [replayable], as a test: [pre] holds the records already replayed. *)
Fixpoint replay_ok (cs : list Constraint) (pre rs : list DbRecord) : bool :=
  match rs with
  | [] => true
  | r :: rest =>
      match check_constraints cs r pre with
      | None => replay_ok cs (pre ++ [r]) rest
      | Some _ => false
      end
  end.

(** ** Sample data: the table of the specification's scenarios *)

Module Sample.

Definition users_schema : Schema :=
  mkSchema [Column_ "id" INTEGER; Column_ "name" STRING; Column_ "age" INTEGER]
           [PrimaryKeyConstraint ["id"]].

Definition alice : DbRecord :=
  setValue "age" "30" (setValue "name" "Alice" (setValue "id" "1" ∅)).
Definition bob : DbRecord :=
  setValue "age" "40" (setValue "name" "Bob" (setValue "id" "1" ∅)).
Definition carol : DbRecord :=
  setValue "age" "25" (setValue "name" "Carol" (setValue "id" "2" ∅)).

Definition empty_users : Table := mkTable "users" users_schema [].
Definition users : Table := mkTable "users" users_schema [alice; carol].

Definition patch : DbRecord := setValue "age" "31" ∅.

Definition orders_schema : Schema :=
  mkSchema [Column_ "oid" INTEGER; Column_ "uid" INTEGER]
           [PrimaryKeyConstraint ["oid"];
            ForeignKeyConstraint ["uid"] "users" ["id"];
            UniqueConstraint ["oid"; "uid"];
            ForeignKeyConstraint ["oid"] "items" ["id"]].
Definition order1 : DbRecord := setValue "uid" "1" (setValue "oid" "7" ∅).
Definition orders : Table := mkTable "orders" orders_schema [order1].

Definition catalog : Tables :=
  addTable "orders" orders (addTable "users" users ∅).

Definition disk : FileSystem := mkFileSystem ∅ (fun _ => true).

(** The entries of [catalog] in the two orders a loop can visit them. *)
Definition users_first : list (string * Table) := [("users", users); ("orders", orders)].
Definition orders_first : list (string * Table) := [("orders", orders); ("users", users)].

(** The catalog of the wrong-key scenario: one table with two records. *)
Definition scenario : Tables := addTable "users" users ∅.
Definition scenario_entries : list (string * Table) := [("users", users)].

(** A value that contains the field separator of the file format. *)
Definition piped : DbRecord := setValue "a" "x|y" ∅.
Definition notes : Table := mkTable "notes" (mkSchema [Column_ "a" STRING] []) [piped].
Definition notes_catalog : Tables := addTable "notes" notes ∅.
Definition notes_entries : list (string * Table) := [("notes", notes)].

End Sample.

(** ** Further functions of the engine

    The functions below are not needed by the statements above; they are
    embedded the same way and specified in the last part of the file. *)

(** *** Constraint.cpp: validate *)

(** [PrimaryKeyConstraint::validate]: no value is empty. *)
Definition PrimaryKeyConstraint_validate (values : list string) : bool :=
  forallb (fun val => negb (Str.empty val)) values.

(** [ForeignKeyConstraint::validate]: as many values as columns. *)
Definition ForeignKeyConstraint_validate (columnNames values : list string) : bool :=
  Nat.eqb (length values) (length columnNames).

(** The loop [for (i = 1; i < copy.size(); ++i) if (copy[i] == copy[i - 1]) return false;]
    of [UniqueConstraint::validate]: [true] when two neighbours are equal. *)
Fixpoint adjacent_equal (copy : list string) : bool :=
  match copy with
  | a :: (b :: _) as rest => String.eqb b a || adjacent_equal rest
  | _ => false
  end.

(** [std::sort] on strings: the values in ascending order of
    [std::string::operator<], which compares byte by byte, a proper prefix
    first.  Equal strings cannot be told apart, so the sorted vector does
    not depend on the sorting algorithm. *)
Definition std_sort (v : list string) : list string := merge_sort String.le v.

(** [UniqueConstraint::validate]. *)
Definition UniqueConstraint_validate (values : list string) : bool :=
  negb (adjacent_equal (std_sort values)).

(** The virtual call [constraint->validate(values)]. *)
Definition validate (c : Constraint) (values : list string) : bool :=
  match c with
  | PrimaryKeyConstraint _ => PrimaryKeyConstraint_validate values
  | UniqueConstraint _ => UniqueConstraint_validate values
  | ForeignKeyConstraint columnNames _ _ => ForeignKeyConstraint_validate columnNames values
  end.

(** *** Schema.cpp and Table.cpp: columns *)

(** [Schema::hasColumn]. *)
Definition Schema_hasColumn (columnName : string) (s : Schema) : bool :=
  existsb (fun col => String.eqb (col_name col) columnName) (columns s).

(** [Table::dropColumn]. *)
Definition dropColumn (columnName : string) (t : Table) : bool * Table :=
  if negb (Schema_hasColumn columnName (schema t)) then (false, t)
  else
    let cols :=
      Algorithm.erase_remove_if
        (fun col => String.eqb (col_name col) columnName) (columns (schema t)) in
    (true, mkTable (name t) (mkSchema cols (constraints (schema t)))
                   (map (fun record : DbRecord => delete columnName record) (records t))).

(** *** Database.cpp: select *)

(** [evaluateCondition], the filter of [select]. *)
Definition evaluateCondition (record : DbRecord) (condition : string) : bool :=
  let cond := Utility.trim condition in
  if Str.empty cond then true
  else
    match Str.find_char "=" cond with
    | None => false
    | Some pos =>
        let col := Utility.trim (Str.substr cond 0 pos) in
        let val := Utility.trim (Str.substr_from cond (pos + 1)) in
        let val := Utility.removeApostrophe val in
        match getValue col record with
        | Some recordVal => String.eqb recordVal val
        | None => false
        end
    end.

(** What [select] prints for one record.  For the single column [*] it is
    every pair of the record, in the order of the record's
    [std::unordered_map], which is left open here: the row is the record
    itself.  Otherwise it is the requested columns that the record has, in
    the order of the request. *)
Inductive Row :=
| WholeRecord (data : DbRecord)
| Cells (cells : list (string * string)).

Definition select_row (cols : list string) (record : DbRecord) : Row :=
  let projected := omap (fun col => (fun v => (col, v)) <$> record !! col) cols in
  match cols with
  | [c] => if String.eqb c "*" then WholeRecord record else Cells projected
  | _ => Cells projected
  end.

(** [Database::select]: the return value and the rows written to the output. *)
Definition select (tableName : string) (cols : list string) (condition : string)
    (tables : Tables) : bool * list Row :=
  match getTable tableName tables with
  | None => (false, [])
  | Some table =>
      (true,
       map (select_row cols)
         (List.filter
            (fun record =>
               negb (negb (Str.empty condition)
                     && negb (evaluateCondition record condition)))
            (records table)))
  end.

(** *** Vocabulary of the further statements *)

(** [s] consists of characters removed by [trim]. *)
Fixpoint all_space (s : string) : bool :=
  match s with
  | EmptyString => true
  | String c r => Str.mem c Utility.whitespace && all_space r
  end.

(** The number of records that satisfy a predicate. *)
Definition count_matching (p : DbRecord -> bool) (rs : list DbRecord) : nat :=
  length (List.filter p rs).

(** The key repeated: [k], [k k], [k k k], ... *)
Fixpoint repeat_key (n : nat) (k : string) : string :=
  match n with
  | O => k
  | S n' => k +:+ repeat_key n' k
  end.

(** The number of occurrences of a character in a string. *)
Fixpoint count_char (d : ascii) (s : string) : nat :=
  match s with
  | EmptyString => O
  | String c r => ((if Ascii.eqb c d then 1 else 0) + count_char d r)%nat
  end.

(** The condition [<sp1><col><sp2>=<sp3><lit><sp4>]. *)
Definition spaced_condition (sp1 col sp2 sp3 lit sp4 : string) : string :=
  sp1 +:+ col +:+ sp2 +:+ "=" +:+ sp3 +:+ lit +:+ sp4.

(** The constraint checked by one of the two copies of the key loop. *)
Definition key_constraint (pk : bool) (K : list string) : Constraint :=
  if pk then PrimaryKeyConstraint K else UniqueConstraint K.

(** The constraint is a foreign key. *)
Definition is_foreign_key (c : Constraint) : bool :=
  match c with ForeignKeyConstraint _ _ _ => true | _ => false end.

(** Every record has its key values, all different from the other records'
    key values, and none of them empty for a primary key. *)
Definition key_invariant (pk : bool) (K : list string) (rs : list DbRecord) : Prop :=
  Forall (fun r => exists vs, gather_existing K r = Some vs
                              /\ (pk = true -> EmptyString ∉ vs)) rs
  /\ NoDup (map (gather_existing K) rs).

(** *** Utility.cpp: generateUUID *)

(** [ss << std::hex << std::setfill('0') << std::setw(2) << static_cast<int>(b)]
    for a byte [b]: two lower-case hexadecimal digits. *)
Definition hex_digit (d : N) : ascii :=
  if d <? 10 then ascii_of_N (48 + d) else ascii_of_N (87 + d).

Definition hex2 (b : N) : string :=
  String (hex_digit (b / 16)) (String (hex_digit (b mod 16)) EmptyString).

(** The formatting loop of [generateUUID], from index [i] on. *)
Fixpoint format_uuid (i : nat) (uuid : list N) : string :=
  match uuid with
  | [] => EmptyString
  | b :: rest =>
      hex2 b
      +:+ (if Nat.eqb i 3 || Nat.eqb i 5 || Nat.eqb i 7 || Nat.eqb i 9
           then "-" else EmptyString)
      +:+ format_uuid (S i) rest
  end.

(** [Utility::generateUUID]; [draw i] is the value of the [i]-th call
    [dist(gen)], the cast to [unsigned char] keeps its low eight bits. *)
Definition generateUUID (draw : nat -> N) : string :=
  let uuid := map (fun i => draw i mod 256) (seq 0 16) in
  let uuid := <[6%nat := N.lor (N.land (default 0 (uuid !! 6%nat)) 15) 64]> uuid in
  let uuid := <[8%nat := N.lor (N.land (default 0 (uuid !! 8%nat)) 63) 128]> uuid in
  format_uuid 0 uuid.

(** A decimal digit or one of [a] .. [f]. *)
Definition is_hex (c : ascii) : bool :=
  let n := N_of_ascii c in
  ((48 <=? n) && (n <=? 57)) || ((97 <=? n) && (n <=? 102)).

(** ** Tactics *)

(** Closes a decidable closed goal by evaluating its decision procedure. *)
Ltac by_computation :=
  match goal with
  | |- ?P => apply (@bool_decide_unpack P _); vm_compute; exact I
  end.

(** Lengths of concatenated lists. *)
Ltac len_lia :=
  repeat (rewrite length_app || rewrite length_cons); simpl;
  repeat (rewrite length_app || rewrite length_cons); simpl; lia.

(** Case analysis on the membership of a character in a literal set. *)
Ltac mem_cases E :=
  cbv [Str.mem String.append nl] in E;
  repeat (apply orb_true_iff in E as [E|E];
          [apply Ascii.eqb_eq in E; subst; reflexivity|]);
  try discriminate E.

(** * Theorems *)

(** ** The erase-remove idiom is a stable filter *)



Section RemoveIfSpec.
Context {A : Type}.
Variable p : A -> bool.

Lemma find_if_split (v : list A) :
  exists pre rest,
    v = pre ++ rest /\ length pre = Algorithm.find_if p v
    /\ List.filter (fun x => negb (p x)) pre = pre
    /\ match rest with [] => True | x :: _ => p x = true end.
Proof.
  induction v as [|x v IH]; simpl.
  - exists [], []. auto.
  - destruct (p x) eqn:Hx.
    + exists [], (x :: v). simpl. auto.
    + destruct IH as (pre & rest & -> & Hlen & Hf & Hr).
      exists (x :: pre), rest. simpl. rewrite Hx. simpl.
      repeat split; auto. f_equal. exact Hf.
Qed.

Lemma remove_if_loop_spec (todo : list A) :
  forall kept junk, junk <> [] ->
    let r := Algorithm.remove_if_loop p (length todo) (length (kept ++ junk))
               (length kept) (kept ++ junk ++ todo) in
    take (fst r) (snd r) = kept ++ List.filter (fun x => negb (p x)) todo.
Proof.
  induction todo as [|x todo IH]; intros kept junk Hjunk; simpl.
  - rewrite app_nil_r, app_nil_r. apply take_app_length.
  - assert (Hlook : (kept ++ junk ++ x :: todo) !! length (kept ++ junk) = Some x).
    { rewrite app_assoc. rewrite lookup_app_r by lia.
      rewrite Nat.sub_diag. reflexivity. }
    rewrite Hlook. destruct (p x) eqn:Hx; simpl.
    + specialize (IH kept (junk ++ [x])).
      rewrite <- !app_assoc in IH. simpl in IH.
      replace (S (length (kept ++ junk))) with (length (kept ++ junk ++ [x]))
        by len_lia.
      apply IH. destruct junk; discriminate.
    + destruct junk as [|j0 junk]; [congruence|].
      specialize (IH (kept ++ [x]) (junk ++ [x])).
      replace (<[length kept := x]> (kept ++ (j0 :: junk) ++ x :: todo))
        with ((kept ++ [x]) ++ (junk ++ [x]) ++ todo).
      2:{ rewrite insert_app_r_alt by lia. rewrite Nat.sub_diag. simpl.
          rewrite <- !app_assoc. reflexivity. }
      replace (S (length (kept ++ j0 :: junk)))
        with (length ((kept ++ [x]) ++ junk ++ [x]))
        by len_lia.
      replace (S (length kept)) with (length (kept ++ [x]))
        by len_lia.
      rewrite IH by (destruct junk; discriminate).
      rewrite <- app_assoc. reflexivity.
Qed.

(** [v.erase(std::remove_if(...), v.end())] leaves exactly the elements
    that do not satisfy the predicate, in their order. *)
Lemma erase_remove_if_filter (v : list A) :
  Algorithm.erase_remove_if p v = List.filter (fun x => negb (p x)) v.
Proof.
  unfold Algorithm.erase_remove_if, Algorithm.remove_if, Algorithm.erase_to_end.
  destruct (find_if_split v) as (pre & rest & -> & Hlen & Hf & Hr).
  rewrite <- Hlen. destruct rest as [|x todo].
  - rewrite app_nil_r, Nat.eqb_refl. rewrite Hf. apply firstn_all.
  - destruct (Nat.eqb_spec (length pre) (length (pre ++ x :: todo))) as [E|_].
    { rewrite length_app in E. simpl in E. lia. }
    replace (length (pre ++ x :: todo) - S (length pre))%nat with (length todo)
      by len_lia.
    pose proof (remove_if_loop_spec todo pre [x]) as H.
    rewrite length_app in H. simpl in H.
    replace (length pre + 1)%nat with (S (length pre)) in H by lia.
    specialize (H ltac:(discriminate)).
    destruct (Algorithm.remove_if_loop p (length todo) (S (length pre))
                (length pre) (pre ++ x :: todo)) as [e v'].
    simpl in H. rewrite H. rewrite List.filter_app. simpl.
    rewrite Hr. simpl. rewrite Hf. reflexivity.
Qed.
End RemoveIfSpec.

(** ** Table.cpp: insertRecord *)

Lemma with_records_id (t : Table) : with_records t (records t) = t.
Proof. destruct t; reflexivity. Qed.

Lemma map_pointwise {A B : Type} (f g : A -> B) (l : list A) :
  map f l = map g l <-> (forall x, x ∈ l -> f x = g x).
Proof.
  induction l as [|a l IH]; simpl.
  - split; [intros _ x Hx; inversion Hx | reflexivity].
  - split.
    + intros H x Hx. injection H as Ha Hl. apply elem_of_cons in Hx as [->|Hx]; auto.
      apply IH; auto.
    + intros H. f_equal.
      * apply H. apply elem_of_cons; auto.
      * apply IH. intros x Hx. apply H. apply elem_of_cons; auto.
Qed.

(** The values gathered from a record are its entries for the key columns,
    all of them present. *)
Lemma gather_existing_Some (K : list string) (r : DbRecord) (vs : list string) :
  gather_existing K r = Some vs <-> map (fun c => r !! c) K = map Some vs.
Proof.
  revert vs. induction K as [|c K IH]; intros vs; simpl.
  - split.
    + intros [= <-]. reflexivity.
    + destruct vs; [reflexivity | discriminate].
  - unfold hasColumn, getValue. destruct (r !! c) as [v|] eqn:Hc; simpl.
    + destruct (gather_existing K r) as [ws|] eqn:Hg.
      * split.
        -- intros [= <-]. simpl. f_equal. apply IH. reflexivity.
        -- destruct vs as [|v' vs]; [discriminate|]. simpl. intros [= -> H].
           apply IH in H. congruence.
      * split; [discriminate|].
        destruct vs as [|v' vs]; [discriminate|]. simpl. intros [= -> H].
        apply IH in H. discriminate.
    + split; [discriminate|]. destruct vs; discriminate.
Qed.

Lemma gather_existing_agree (K : list string) (a b : DbRecord) (vs : list string) :
  gather_existing K a = Some vs ->
  (forall c, c ∈ K -> a !! c = b !! c) ->
  gather_existing K b = Some vs.
Proof.
  intros Ha Hab. apply gather_existing_Some. apply gather_existing_Some in Ha.
  rewrite <- Ha. symmetry. apply map_pointwise. exact Hab.
Qed.

Lemma gather_existing_same (K : list string) (a b : DbRecord) (vs : list string) :
  gather_existing K a = Some vs -> gather_existing K b = Some vs ->
  forall c, c ∈ K -> is_Some (b !! c) /\ a !! c = b !! c.
Proof.
  intros Ha Hb c Hc.
  apply gather_existing_Some in Ha. apply gather_existing_Some in Hb.
  assert (Hab : map (fun c => a !! c) K = map (fun c => b !! c) K) by congruence.
  pose proof (proj1 (map_pointwise _ _ _) Hab c Hc) as E. simpl in E.
  split; [|exact E].
  clear Ha Hab E. revert vs Hb. induction K as [|k K IH]; intros vs Hb.
  - inversion Hc.
  - destruct vs as [|v vs]; [discriminate|]. simpl in Hb. injection Hb as Hk HK.
    apply elem_of_cons in Hc as [->|Hc]; eauto.
Qed.

Lemma gather_new_inr (pk : bool) (K : list string) (r : DbRecord) (vs : list string) :
  gather_new pk K r = inr vs -> gather_existing K r = Some vs.
Proof.
  revert vs. induction K as [|c K IH]; intros vs; simpl.
  - intros [= <-]. reflexivity.
  - destruct (hasColumn c r); simpl; [|discriminate].
    destruct (pk && Str.empty (default EmptyString (getValue c r))); [discriminate|].
    destruct (gather_new pk K r) as [e|ws]; [discriminate|].
    intros [= <-]. rewrite (IH ws eq_refl). reflexivity.
Qed.

Lemma gather_new_inl (pk : bool) (K : list string) (r : DbRecord) (e : InsertError) :
  gather_new pk K r = inl e ->
  (exists col, e = MissingColumn pk col /\ col ∈ K /\ r !! col = None)
  \/ (exists col, pk = true /\ e = EmptyKeyValue col /\ col ∈ K
                  /\ r !! col = Some EmptyString).
Proof.
  induction K as [|c K IH]; simpl; [discriminate|].
  unfold hasColumn, getValue. destruct (r !! c) as [v|] eqn:Hc; simpl.
  - destruct pk; simpl.
    + destruct v as [|a v]; simpl.
      * intros [= <-]. right. exists c. repeat split; auto. apply elem_of_cons; auto.
      * destruct (gather_new true K r) as [e'|ws]; [|discriminate].
        intros [= <-]. destruct (IH eq_refl) as [(col & ? & ? & ?)|(col & ? & ? & ? & ?)].
        -- left. exists col. repeat split; auto. apply elem_of_cons; auto.
        -- right. exists col. repeat split; auto. apply elem_of_cons; auto.
    + destruct (gather_new false K r) as [e'|ws]; [|discriminate].
      intros [= <-]. destruct (IH eq_refl) as [(col & ? & ? & ?)|(col & ? & ? & ? & ?)].
      * left. exists col. repeat split; auto. apply elem_of_cons; auto.
      * discriminate.
  - intros [= <-]. left. exists c. repeat split; auto. apply elem_of_cons; auto.
Qed.

Lemma has_duplicate_true (K vs : list string) (rs : list DbRecord) :
  has_duplicate K vs rs = true <->
  exists existing, existing ∈ rs /\ gather_existing K existing = Some vs.
Proof.
  induction rs as [|r rs IH]; simpl.
  - split; [discriminate|]. intros (x & Hx & _). inversion Hx.
  - destruct (gather_existing K r) as [ws|] eqn:Hg.
    + destruct (bool_decide_reflect (ws = vs)) as [->|Hne].
      * split; [|reflexivity]. intros _. exists r. split; auto. apply elem_of_cons; auto.
      * rewrite IH. split.
        -- intros (x & Hx & Hgx). exists x. split; auto. apply elem_of_cons; auto.
        -- intros (x & Hx & Hgx). apply elem_of_cons in Hx as [->|Hx]; [congruence|eauto].
    + rewrite IH. split.
      * intros (x & Hx & Hgx). exists x. split; auto. apply elem_of_cons; auto.
      * intros (x & Hx & Hgx). apply elem_of_cons in Hx as [->|Hx]; [congruence|eauto].
Qed.

Lemma check_key_Some (pk : bool) (K : list string) (r : DbRecord)
    (rs : list DbRecord) (e : InsertError) :
  check_key pk K r rs = Some e ->
  (exists col, e = MissingColumn pk col /\ col ∈ K /\ r !! col = None)
  \/ (exists col, pk = true /\ e = EmptyKeyValue col /\ col ∈ K
                  /\ r !! col = Some EmptyString)
  \/ (e = DuplicateEntry pk K
      /\ exists existing, existing ∈ rs
           /\ forall col, col ∈ K -> is_Some (r !! col) /\ existing !! col = r !! col).
Proof.
  unfold check_key. destruct (gather_new pk K r) as [e'|vs] eqn:Hg.
  - intros [= <-]. destruct (gather_new_inl _ _ _ _ Hg); auto.
  - destruct (has_duplicate K vs rs) eqn:Hd; [|discriminate].
    intros [= <-]. right. right. split; [reflexivity|].
    apply has_duplicate_true in Hd as (x & Hx & Hgx). exists x. split; [exact Hx|].
    apply gather_new_inr in Hg. intros col Hcol.
    exact (gather_existing_same K x r vs Hgx Hg col Hcol).
Qed.

Lemma check_key_None (pk : bool) (K : list string) (r : DbRecord) (rs : list DbRecord) :
  check_key pk K r rs = None ->
  exists vs, gather_existing K r = Some vs
             /\ (forall x, x ∈ rs -> gather_existing K x <> Some vs)
             /\ (pk = true -> EmptyString ∉ vs).
Proof.
  unfold check_key. destruct (gather_new pk K r) as [e'|vs] eqn:Hg; [discriminate|].
  destruct (has_duplicate K vs rs) eqn:Hd; [discriminate|]. intros _.
  exists vs. split; [eapply gather_new_inr; eauto|]. split.
  - intros x Hx Hgx.
    assert (has_duplicate K vs rs = true) by (apply has_duplicate_true; eauto).
    congruence.
  - intros ->. clear Hd. revert vs Hg. induction K as [|c K IH]; simpl; intros vs.
    + intros [= <-]. apply not_elem_of_nil.
    + destruct (hasColumn c r); simpl; [|discriminate].
      destruct (default EmptyString (getValue c r)) as [|a v] eqn:Hv; simpl; [discriminate|].
      destruct (gather_new true K r) as [e|ws]; [discriminate|].
      intros [= <-]. intros Hin. apply elem_of_cons in Hin as [?|Hin]; [discriminate|].
      exact (IH ws eq_refl Hin).
Qed.

Lemma check_constraints_Some (cs : list Constraint) (r : DbRecord)
    (rs : list DbRecord) (e : InsertError) (t : Table) :
  (forall c, c ∈ cs -> c ∈ constraints (schema t)) -> rs = records t ->
  check_constraints cs r rs = Some e -> explains e r t.
Proof.
  intros Hcs ->. induction cs as [|c cs IH]; simpl; [discriminate|].
  assert (Hc : c ∈ constraints (schema t)) by (apply Hcs, elem_of_cons; auto).
  assert (Hrest : forall c', c' ∈ cs -> c' ∈ constraints (schema t))
    by (intros c' H'; apply Hcs, elem_of_cons; auto).
  destruct c as [K|K|K ref refK].
  - destruct (check_key true K r (records t)) as [e'|] eqn:Hk; [|auto].
    intros [= <-].
    destruct (check_key_Some _ _ _ _ _ Hk)
      as [(col & -> & ? & ?)|[(col & _ & -> & ? & ?)|(-> & x & ? & ?)]];
      simpl; eauto.
  - destruct (check_key false K r (records t)) as [e'|] eqn:Hk; [|auto].
    intros [= <-].
    destruct (check_key_Some _ _ _ _ _ Hk)
      as [(col & -> & ? & ?)|[(col & ? & _)|(-> & x & ? & ?)]];
      simpl; eauto; discriminate.
  - auto.
Qed.

(** C2: a rejected insert leaves the table as it was, and the rejection is
    one of: a missing constraint column, an empty primary-key value, a
    duplicate on a constraint's columns; an accepted insert appends the
    record at the end of the record sequence. *)
Theorem insertRecord_atomic (record : DbRecord) (t : Table) :
  (fst (insertRecord record t) = false ->
     snd (insertRecord record t) = t
     /\ exists e, insert_check record t = Some e /\ explains e record t)
  /\ (fst (insertRecord record t) = true ->
       name (snd (insertRecord record t)) = name t
       /\ schema (snd (insertRecord record t)) = schema t
       /\ records (snd (insertRecord record t)) = records t ++ [record]).
Proof.
  unfold insertRecord. destruct (insert_check record t) as [e|] eqn:Hc; simpl.
  - split; [|discriminate]. intros _. split; [reflexivity|].
    exists e. split; [reflexivity|].
    unfold insert_check in Hc. eapply check_constraints_Some; eauto.
  - split; [discriminate|]. intros _. repeat split.
Qed.

Lemma insertRecord_atomic_witness :
  snd (insertRecord Sample.bob Sample.users) = Sample.users
  /\ records (snd (insertRecord Sample.alice Sample.empty_users)) = [Sample.alice].
Proof.
  split.
  - apply (proj1 (insertRecord_atomic Sample.bob Sample.users)).
    vm_compute. reflexivity.
  - apply (proj2 (insertRecord_atomic Sample.alice Sample.empty_users)).
    vm_compute. reflexivity.
Defined.

(** *** Primary-key uniqueness *)


Lemma check_constraints_None_pk (cs : list Constraint) (K : list string)
    (r : DbRecord) (rs : list DbRecord) :
  PrimaryKeyConstraint K ∈ cs -> check_constraints cs r rs = None ->
  check_key true K r rs = None.
Proof.
  induction cs as [|c cs IH]; intros Hin; [inversion Hin|]. simpl.
  apply elem_of_cons in Hin as [<-|Hin].
  - destruct (check_key true K r rs); [discriminate|reflexivity].
  - destruct c as [K'|K'|K' ref refK].
    + destruct (check_key true K' r rs); [discriminate|auto].
    + destruct (check_key false K' r rs); [discriminate|auto].
    + auto.
Qed.

Lemma insertRecord_pk_invariant (K : list string) (r : DbRecord) (t : Table) :
  PrimaryKeyConstraint K ∈ constraints (schema t) ->
  pk_invariant K (records t) ->
  pk_invariant K (records (snd (insertRecord r t))).
Proof.
  intros HK [Hall Hnd]. unfold insertRecord.
  destruct (insert_check r t) eqn:Hc; simpl; [split; assumption|].
  unfold insert_check in Hc.
  apply (check_constraints_None_pk _ K) in Hc; [|exact HK].
  apply check_key_None in Hc as (vs & Hvs & Hfresh & _).
  split.
  - apply Forall_app. split; [exact Hall|]. constructor; [|constructor].
    rewrite Hvs. eauto.
  - rewrite map_app. simpl. apply NoDup_app. split; [exact Hnd|]. split.
    + intros k Hk Hk'. apply list_elem_of_singleton in Hk'. subst k.
      apply list_elem_of_fmap in Hk as (x & Hx1 & Hx2).
      apply (Hfresh x Hx2). congruence.
    + apply NoDup_singleton.
Qed.

Lemma insert_all_schema (rs : list DbRecord) (t : Table) :
  schema (insert_all t rs) = schema t.
Proof.
  revert t. induction rs as [|r rs IH]; intros t; simpl; [reflexivity|].
  unfold insert_all in *. simpl. rewrite IH.
  unfold insertRecord. destruct (insert_check r t); reflexivity.
Qed.

Lemma insert_all_pk_invariant (K : list string) (rs : list DbRecord) (t : Table) :
  PrimaryKeyConstraint K ∈ constraints (schema t) ->
  pk_invariant K (records t) ->
  pk_invariant K (records (insert_all t rs)).
Proof.
  revert t. induction rs as [|r rs IH]; intros t HK Hinv; simpl; [exact Hinv|].
  unfold insert_all in *. simpl. apply IH.
  - unfold insertRecord. destruct (insert_check r t); exact HK.
  - apply insertRecord_pk_invariant; assumption.
Qed.

(** C1: in a table with a primary key on [K], filled from the empty record
    sequence by any sequence of [insertRecord] calls, no two records agree
    on every column of [K]. *)
Theorem primary_key_unique (tableName : string) (s : Schema) (K : list string)
    (inserts : list DbRecord) (i j : nat) (ri rj : DbRecord) :
  PrimaryKeyConstraint K ∈ constraints s ->
  i <> j ->
  records (insert_all (mkTable tableName s []) inserts) !! i = Some ri ->
  records (insert_all (mkTable tableName s []) inserts) !! j = Some rj ->
  ~ (forall col, col ∈ K -> ri !! col = rj !! col).
Proof.
  intros HK Hij Hi Hj Heq.
  destruct (insert_all_pk_invariant K inserts (mkTable tableName s []) HK)
    as [Hall Hnd].
  { split; [constructor|]. simpl. apply NoDup_nil_2. }
  assert (Hsi : is_Some (gather_existing K ri)).
  { rewrite Forall_forall in Hall. apply Hall.
    eapply list_elem_of_lookup_2; eauto. }
  destruct Hsi as [vs Hvs].
  pose proof (gather_existing_agree K ri rj vs Hvs Heq) as Hvs'.
  apply Hij. eapply NoDup_lookup; [exact Hnd| |].
  - change (map (gather_existing K)) with (fmap (M:=list) (gather_existing K)).
    rewrite list_lookup_fmap, Hi. simpl. rewrite Hvs. reflexivity.
  - change (map (gather_existing K)) with (fmap (M:=list) (gather_existing K)).
    rewrite list_lookup_fmap, Hj. simpl. rewrite Hvs'. reflexivity.
Qed.

Lemma primary_key_unique_witness :
  ~ (forall col, col ∈ ["id"] -> Sample.alice !! col = Sample.carol !! col).
Proof.
  apply (primary_key_unique "users" Sample.users_schema ["id"]
           [Sample.alice; Sample.bob; Sample.carol] 0 1).
  - vm_compute. apply list_elem_of_here.
  - lia.
  - vm_compute. reflexivity.
  - vm_compute. reflexivity.
Defined.

(** ** Table.cpp: updateRecord and deleteRecord *)

Lemma delete_pred_spec (col val : string) (r : DbRecord) :
  delete_pred col val r = bool_decide (r !! col = Some val).
Proof.
  unfold delete_pred, getValue. destruct (r !! col) as [v|].
  - destruct (String.eqb_spec v val) as [->|Hne].
    + rewrite bool_decide_eq_true_2; reflexivity.
    + rewrite bool_decide_eq_false_2; [reflexivity|]. intros [= ?]. auto.
  - rewrite bool_decide_eq_false_2; [reflexivity|]. discriminate.
Qed.

Lemma filter_all_kept {A : Type} (f : A -> bool) (l : list A) :
  (forall x, x ∈ l -> f x = true) -> List.filter f l = l.
Proof.
  induction l as [|a l IH]; intros H; simpl; [reflexivity|].
  rewrite (H a) by (apply elem_of_cons; auto). f_equal.
  apply IH. intros x Hx. apply H. apply elem_of_cons; auto.
Qed.

Lemma filter_sublist {A : Type} (f : A -> bool) (l : list A) :
  sublist (List.filter f l) l.
Proof.
  induction l as [|a l IH]; simpl; [constructor|].
  destruct (f a); [apply sublist_skip | apply sublist_cons]; exact IH.
Qed.

(** What [updateRecord] does for an equality clause: the records whose
    stored value equals the literal are patched, the others kept, and the
    result tells whether any was patched. *)
Lemma update_loop_spec (newRecord : DbRecord) (col val : string)
    (rs : list DbRecord) (updated : bool) :
  update_loop newRecord col val rs updated =
    (updated || existsb (fun r => bool_decide (r !! col = Some val)) rs,
     map (fun r => if bool_decide (r !! col = Some val)
                   then apply_patch newRecord r else r) rs).
Proof.
  revert updated. induction rs as [|r rs IH]; intros updated; simpl.
  - rewrite orb_false_r. reflexivity.
  - unfold getValue. destruct (r !! col) as [v|] eqn:Hv.
    + destruct (String.eqb_spec v val) as [->|Hne].
      * rewrite IH. rewrite bool_decide_eq_true_2 by reflexivity. simpl.
        rewrite orb_true_r. reflexivity.
      * rewrite IH. rewrite bool_decide_eq_false_2 by (intros [= ?]; auto).
        reflexivity.
    + rewrite IH. rewrite bool_decide_eq_false_2 by discriminate. reflexivity.
Qed.



Lemma empty_false_iff (s : string) : Str.empty s = false <-> s <> EmptyString.
Proof. destruct s; simpl; split; congruence. Qed.




(** What [deleteRecord] does for an equality clause. *)
Lemma deleteRecord_clause (condition col val : string) (t : Table) :
  Utility.trim condition <> "all" ->
  equality_clause condition = Some (col, val) ->
  deleteRecord condition t =
    let kept :=
      List.filter
        (fun r => negb (bool_decide (r !! col = Some (Utility.removeApostrophe val))))
        (records t) in
    (Nat.ltb (length kept) (length (records t)), with_records t kept).
Proof.
  intros Hall Hclause. unfold deleteRecord. unfold equality_clause in Hclause.
  destruct (String.eqb_spec (Utility.trim condition) "all") as [E|_]; [contradiction|].
  destruct (Str.find_char "=" (Utility.trim condition)) as [pos|]; [|discriminate].
  injection Hclause as <- <-.
  change (if negb (Str.empty ?v) && Ascii.eqb (Str.front ?v) "'" && Ascii.eqb (Str.back ?v) "'"
          then Str.substr ?v 1 (Str.sub (Str.size ?v) 2) else ?v)
    with (Utility.removeApostrophe v).
  cbv zeta. rewrite erase_remove_if_filter.
  rewrite (List.filter_ext _
             (fun r => negb (bool_decide
                (r !! Utility.trim (Str.substr (Utility.trim condition) 0 pos)
                 = Some (Utility.removeApostrophe
                           (Utility.trim (Str.substr_from (Utility.trim condition) (pos + 1)))))))).
  - reflexivity.
  - intros r. rewrite delete_pred_spec. reflexivity.
Qed.

(** C10: a delete with an equality condition leaves exactly the records
    that do not match, in their original order and unmodified; the name and
    the schema of the table are untouched. *)
Theorem deleteRecord_keeps_others (condition col val : string) (t : Table) :
  Utility.trim condition <> "all" ->
  equality_clause condition = Some (col, val) ->
  records (snd (deleteRecord condition t)) =
    List.filter
      (fun r => negb (bool_decide (r !! col = Some (Utility.removeApostrophe val))))
      (records t)
  /\ sublist (records (snd (deleteRecord condition t))) (records t)
  /\ (forall r, r ∈ records (snd (deleteRecord condition t)) <->
                r ∈ records t /\ r !! col <> Some (Utility.removeApostrophe val))
  /\ name (snd (deleteRecord condition t)) = name t
  /\ schema (snd (deleteRecord condition t)) = schema t.
Proof.
  intros Hall Hclause. rewrite (deleteRecord_clause _ _ _ _ Hall Hclause). simpl.
  split; [reflexivity|]. split; [apply filter_sublist|]. split; [|split; reflexivity].
  intros r. rewrite !list_elem_of_In, List.filter_In.
  rewrite negb_true_iff, bool_decide_eq_false. reflexivity.
Qed.

Lemma deleteRecord_keeps_others_witness :
  records (snd (deleteRecord "name = 'Alice'" Sample.users)) = [Sample.carol].
Proof.
  etransitivity.
  - apply (deleteRecord_keeps_others "name = 'Alice'" "name" "'Alice'" Sample.users).
    + vm_compute. discriminate.
    + vm_compute. reflexivity.
  - vm_compute. reflexivity.
Defined.

(** C8, as the code has it: the condition [all] empties the table and
    returns [true]; the empty condition is refused as malformed, the table
    kept as it was; an equality condition that matches no record keeps the
    table as it was and returns [false], the value returned for a malformed
    condition as well. *)
Theorem deleteRecord_cases (condition : string) (t : Table) :
  (Utility.trim condition = "all" ->
     deleteRecord condition t = (true, with_records t [])
     /\ (length (records t) - length (records (snd (deleteRecord condition t)))
         = length (records t))%nat)
  /\ (Utility.trim condition = EmptyString -> deleteRecord condition t = (false, t))
  /\ (forall col val,
        Utility.trim condition <> "all" ->
        equality_clause condition = Some (col, val) ->
        (forall r, r ∈ records t -> r !! col <> Some (Utility.removeApostrophe val)) ->
        deleteRecord condition t = (false, t)).
Proof.
  split; [|split].
  - intros E. unfold deleteRecord. rewrite E. simpl. split; [reflexivity|]. lia.
  - intros E. unfold deleteRecord. rewrite E. reflexivity.
  - intros col val Hall Hclause Hnone.
    rewrite (deleteRecord_clause _ _ _ _ Hall Hclause). cbv zeta.
    rewrite filter_all_kept.
    + rewrite Nat.ltb_irrefl, with_records_id. reflexivity.
    + intros r Hr. apply negb_true_iff, bool_decide_eq_false. auto.
Qed.

Lemma deleteRecord_cases_witness :
  deleteRecord "all" Sample.users = (true, Sample.empty_users)
  /\ deleteRecord "" Sample.users = (false, Sample.users)
  /\ deleteRecord "id = 99" Sample.users = (false, Sample.users).
Proof.
  split; [|split].
  - apply (proj1 (deleteRecord_cases "all" Sample.users)). vm_compute. reflexivity.
  - apply (proj1 (proj2 (deleteRecord_cases "" Sample.users))). vm_compute. reflexivity.
  - apply (proj2 (proj2 (deleteRecord_cases "id = 99" Sample.users)) "id" "99").
    + vm_compute. discriminate.
    + vm_compute. reflexivity.
    + apply Forall_forall. by_computation.
Defined.

(** C8 as stated fails: a delete with the empty condition does not empty
    the table, and a delete that matches nothing does not return success. *)
Lemma delete_empty_condition_counterexample :
  ~ (forall (t : Table),
       records (snd (deleteRecord "" t)) = []
       /\ (forall condition col val,
             Utility.trim condition <> "all" ->
             equality_clause condition = Some (col, val) ->
             (forall r, r ∈ records t -> r !! col <> Some (Utility.removeApostrophe val)) ->
             fst (deleteRecord condition t) = true)).
Proof.
  intros H. destruct (H Sample.users) as [Hempty _].
  assert (E : length (records (snd (deleteRecord "" Sample.users))) = 2%nat)
    by (vm_compute; reflexivity).
  rewrite Hempty in E. discriminate.
Qed.

(** C9 fails on the code: [updateRecord] compares the stored value with the
    literal as written, quotes included, where [deleteRecord] strips them.
    On the table of the scenarios the condition [name = 'Alice'] selects
    Alice's record for deletion and no record for update. *)
Lemma updateRecord_keeps_quotes :
  equality_clause "name = 'Alice'" = Some ("name", "'Alice'")
  /\ Sample.alice !! "name" = Some "Alice"
  /\ updateRecord Sample.patch "name = 'Alice'" Sample.users = (false, Sample.users)
  /\ deleteRecord "name = 'Alice'" Sample.users
     = (true, with_records Sample.users [Sample.carol])
  /\ updateRecord Sample.patch "name = Alice" Sample.users
     = (true, with_records Sample.users
                [setValue "age" "31" Sample.alice; Sample.carol]).
Proof. vm_compute. repeat split; reflexivity. Qed.

(** In general the records patched by [updateRecord] are those whose stored
    value equals the literal with its quotes. *)
Lemma updateRecord_clause (newRecord : DbRecord) (condition col val : string)
    (t : Table) :
  Utility.trim condition <> EmptyString ->
  Utility.trim condition <> "all" ->
  equality_clause condition = Some (col, val) ->
  records (snd (updateRecord newRecord condition t)) =
    map (fun r => if bool_decide (r !! col = Some val)
                  then apply_patch newRecord r else r) (records t).
Proof.
  intros Hne Hall Hclause. unfold updateRecord. unfold equality_clause in Hclause.
  apply empty_false_iff in Hne. rewrite Hne.
  destruct (String.eqb_spec (Utility.trim condition) "all") as [E|_]; [contradiction|].
  simpl. destruct (Str.find_char "=" (Utility.trim condition)) as [pos|]; [|discriminate].
  injection Hclause as -> ->. rewrite update_loop_spec. reflexivity.
Qed.

(** ** Database.cpp: the cipher *)

Lemma lxor_byte (x y : N) : x < 256 -> y < 256 -> N.lxor x y < 256.
Proof.
  intros Hx Hy. destruct (N.eq_dec (N.lxor x y) 0) as [->|Hne]; [lia|].
  change 256 with (2 ^ 8). apply N.log2_lt_pow2; [lia|].
  eapply N.le_lt_trans; [apply N.log2_lxor|].
  apply N.max_lub_lt.
  - destruct (N.eq_dec x 0) as [->|Hx0]; [simpl; lia|].
    apply N.log2_lt_pow2; [lia|exact Hx].
  - destruct (N.eq_dec y 0) as [->|Hy0]; [simpl; lia|].
    apply N.log2_lt_pow2; [lia|exact Hy].
Qed.

Lemma xor_char_involutive (a b : ascii) : xor_char (xor_char a b) b = a.
Proof.
  unfold xor_char.
  rewrite N_ascii_embedding
    by (apply lxor_byte; apply N_ascii_bounded).
  rewrite N.lxor_assoc, N.lxor_nilpotent, N.lxor_0_r.
  apply ascii_N_embedding.
Qed.

Lemma xor_loop_involutive (data key : string) (i : N) :
  xor_loop i (xor_loop i data key) key = data.
Proof.
  revert i. induction data as [|c data IH]; intros i; simpl; [reflexivity|].
  rewrite xor_char_involutive, IH. reflexivity.
Qed.

Lemma xor_loop_length (data key : string) (i : N) :
  String.length (xor_loop i data key) = String.length data.
Proof.
  revert i. induction data as [|c data IH]; intros i; simpl; [reflexivity|].
  rewrite IH. reflexivity.
Qed.

Lemma xor_loop_get (data key : string) (i : N) (n : nat) :
  String.get n (xor_loop i data key) =
    (fun c => xor_char c (char_at key ((i + N.of_nat n) mod Str.size key)))
      <$> String.get n data.
Proof.
  revert i n. induction data as [|c data IH]; intros i n; simpl.
  - destruct n; reflexivity.
  - destruct n as [|n].
    + simpl. rewrite N.add_0_r. reflexivity.
    + rewrite IH. replace (i + 1 + N.of_nat n) with (i + N.of_nat (S n)) by lia.
      reflexivity.
Qed.

Lemma get_None_length (s : string) (n : nat) :
  String.get n s = None -> (String.length s <= n)%nat.
Proof.
  revert n. induction s as [|a s IH]; intros n Hget; simpl; [lia|].
  destruct n as [|n]; [discriminate|]. simpl in Hget. apply IH in Hget. lia.
Qed.

Lemma encrypt_then_decrypt (b k : string) :
  k <> EmptyString ->
  encryptData b k = Some (xor_loop 0 b k)
  /\ decryptData (xor_loop 0 b k) k = Some b.
Proof.
  intros Hk.
  assert (Hempty : Str.empty k = false) by (destruct k; [contradiction|reflexivity]).
  unfold encryptData, decryptData. rewrite Hempty. simpl.
  rewrite xor_loop_involutive. split; reflexivity.
Qed.

Lemma xor_loop_byte (data key : string) (n : nat) (x y : ascii) :
  String.get n data = Some x ->
  String.get (n mod String.length key)%nat key = Some y ->
  exists z, String.get n (xor_loop 0 data key) = Some z
            /\ N_of_ascii z = N.lxor (N_of_ascii x) (N_of_ascii y).
Proof.
  intros Hx Hy. exists (xor_char x y). split.
  - rewrite xor_loop_get, Hx. cbn [fmap option_fmap option_map]. f_equal. f_equal.
    unfold char_at, Str.size. rewrite N.add_0_l.
    destruct key as [|k0 key]; [destruct (n mod 0)%nat; discriminate|].
    rewrite N2Nat.inj_mod, !Nat2N.id, Hy. reflexivity.
  - unfold xor_char. apply N_ascii_embedding. apply lxor_byte; apply N_ascii_bounded.
Qed.

(** C3: for a non-empty key, [encryptData] is the byte-wise XOR with the key
    repeated cyclically: the byte at position [n] of the result is the
    bitwise exclusive or ([N.lxor] on the byte values) of the byte at
    position [n] of the data and the byte at position [n mod len(k)] of the
    key; [decryptData] undoes it, and the two functions are the same
    function. *)
Theorem cipher_involution (b k : string) :
  k <> EmptyString ->
  exists c,
    encryptData b k = Some c
    /\ decryptData c k = Some b
    /\ Str.size c = Str.size b
    /\ (forall i, i < Str.size b ->
          char_at c i = xor_char (char_at b i) (char_at k (i mod Str.size k)))
    /\ (forall (n : nat) (x y : ascii),
          String.get n b = Some x ->
          String.get (n mod String.length k)%nat k = Some y ->
          exists z, String.get n c = Some z
                    /\ N_of_ascii z = N.lxor (N_of_ascii x) (N_of_ascii y))
    /\ String.length c = String.length b
    /\ (forall data key, decryptData data key = encryptData data key).
Proof.
  intros Hk. exists (xor_loop 0 b k).
  destruct (encrypt_then_decrypt b k Hk) as [Henc Hdec].
  split; [exact Henc|]. split; [exact Hdec|].
  split; [unfold Str.size; rewrite xor_loop_length; reflexivity|].
  split; [|split; [|split; [apply xor_loop_length|reflexivity]]].
  - intros i Hi. unfold char_at. rewrite xor_loop_get.
    rewrite N.add_0_l, N2Nat.id.
    destruct (String.get (N.to_nat i) b) as [c|] eqn:Hget; [reflexivity|].
    apply get_None_length in Hget. unfold Str.size in Hi. lia.
  - intros n x y. apply xor_loop_byte.
Qed.

Lemma cipher_involution_witness :
  exists c,
    encryptData "TABLE:users" "key" = Some c
    /\ decryptData c "key" = Some "TABLE:users"
    /\ map N_of_ascii (list_ascii_of_string c)
       = [63; 36; 59; 39; 32; 67; 30; 22; 28; 25; 22]
    /\ (exists z, String.get 7 c = Some z
                  /\ N_of_ascii z = N.lxor (N_of_ascii "s") (N_of_ascii "e")).
Proof.
  destruct (cipher_involution "TABLE:users" "key" ltac:(discriminate))
    as (c & Henc & Hdec & _ & _ & Hbyte & _).
  exists c. split; [exact Henc|]. split; [exact Hdec|]. split.
  - assert (E : (map N_of_ascii ∘ list_ascii_of_string)
                  <$> encryptData "TABLE:users" "key"
                = Some [63; 36; 59; 39; 32; 67; 30; 22; 28; 25; 22])
      by (vm_compute; reflexivity).
    rewrite Henc in E. injection E as E. exact E.
  - apply (Hbyte 7%nat); reflexivity.
Defined.

(** ** Database.cpp: dropTable *)

Lemma references_table_true (A : string) (c : Constraint) :
  references_table A c = true <->
  exists cols refCols, c = ForeignKeyConstraint cols A refCols.
Proof.
  destruct c as [K|K|K ref refK]; simpl.
  - split; [discriminate|]. intros (? & ? & ?). discriminate.
  - split; [discriminate|]. intros (? & ? & ?). discriminate.
  - rewrite String.eqb_eq. split.
    + intros ->. eauto.
    + intros (? & ? & [= _ -> _]). reflexivity.
Qed.

Lemma strip_foreign_keys_spec (A : string) (t : Table) :
  name (strip_foreign_keys A t) = name t
  /\ records (strip_foreign_keys A t) = records t
  /\ columns (schema (strip_foreign_keys A t)) = columns (schema t)
  /\ constraints (schema (strip_foreign_keys A t))
     = List.filter (fun c => negb (references_table A c)) (constraints (schema t)).
Proof.
  unfold strip_foreign_keys. simpl. repeat split.
  apply erase_remove_if_filter.
Qed.

(** C6: dropping an existing table [A] removes the entry of [A] and, in
    every other table, exactly the foreign keys that reference [A]; the
    other constraints stay, in their order, and names, columns and records
    are not touched. *)
Theorem dropTable_cascade (tables : Tables) (A : string) (tA : Table) :
  tables !! A = Some tA ->
  exists tables',
    dropTable A tables = (true, tables')
    /\ tables' !! A = None
    /\ dom tables' = dom tables ∖ {[A]}
    /\ forall B t, B <> A -> tables !! B = Some t ->
         exists t',
           tables' !! B = Some t'
           /\ name t' = name t
           /\ records t' = records t
           /\ columns (schema t') = columns (schema t)
           /\ constraints (schema t')
              = List.filter (fun c => negb (references_table A c))
                  (constraints (schema t))
           /\ sublist (constraints (schema t')) (constraints (schema t))
           /\ (forall c, c ∈ constraints (schema t') <->
                 c ∈ constraints (schema t)
                 /\ forall cols refCols, c <> ForeignKeyConstraint cols A refCols)
           /\ (forall K, PrimaryKeyConstraint K ∈ constraints (schema t) ->
                 PrimaryKeyConstraint K ∈ constraints (schema t'))
           /\ (forall K, UniqueConstraint K ∈ constraints (schema t) ->
                 UniqueConstraint K ∈ constraints (schema t'))
           /\ (forall K ref refK, ref <> A ->
                 ForeignKeyConstraint K ref refK ∈ constraints (schema t) ->
                 ForeignKeyConstraint K ref refK ∈ constraints (schema t')).
Proof.
  intros HA. unfold dropTable, getTable. rewrite HA.
  eexists. split; [reflexivity|]. split; [apply lookup_delete_eq|].
  split; [rewrite dom_delete_L, dom_fmap_L; reflexivity|].
  intros B t HB Ht. exists (strip_foreign_keys A t).
  rewrite lookup_delete_ne by congruence. rewrite lookup_fmap, Ht.
  destruct (strip_foreign_keys_spec A t) as (Hn & Hr & Hc & Hk).
  assert (Hmem : forall c, c ∈ constraints (schema (strip_foreign_keys A t)) <->
            c ∈ constraints (schema t) /\ references_table A c = false).
  { intros c. rewrite Hk, !list_elem_of_In, List.filter_In, negb_true_iff.
    reflexivity. }
  split; [reflexivity|]. do 4 (split; [assumption|]).
  split; [rewrite Hk; apply filter_sublist|].
  split; [|split; [|split]].
  - intros c. rewrite Hmem. split.
    + intros [Hin Hf]. split; [exact Hin|]. intros cols refCols ->.
      simpl in Hf. rewrite String.eqb_refl in Hf. discriminate.
    + intros [Hin Hf]. split; [exact Hin|].
      destruct (references_table A c) eqn:E; [|reflexivity].
      apply references_table_true in E as (cols & refCols & ->).
      exfalso. exact (Hf cols refCols eq_refl).
  - intros K HK. apply Hmem. split; [exact HK|reflexivity].
  - intros K HK. apply Hmem. split; [exact HK|reflexivity].
  - intros K ref refK Hne HK. apply Hmem. split; [exact HK|].
    simpl. apply String.eqb_neq. exact Hne.
Qed.

Lemma dropTable_cascade_witness :
  exists tables',
    dropTable "users" Sample.catalog = (true, tables')
    /\ tables' !! "users" = None
    /\ (constraints ∘ schema) <$> tables' !! "orders"
       = Some [PrimaryKeyConstraint ["oid"]; UniqueConstraint ["oid"; "uid"];
               ForeignKeyConstraint ["oid"] "items" ["id"]].
Proof.
  destruct (dropTable_cascade Sample.catalog "users" Sample.users)
    as (tables' & Hd & Hgone & _ & Hrest).
  - vm_compute. reflexivity.
  - exists tables'. split; [exact Hd|]. split; [exact Hgone|].
    destruct (Hrest "orders" Sample.orders) as (t' & Ht' & _ & _ & _ & Hk & _).
    + discriminate.
    + vm_compute. reflexivity.
    + rewrite Ht'. simpl. rewrite Hk. vm_compute. reflexivity.
Defined.

(** ** Streams of lines *)

Lemma read_until_length (d : ascii) (s : string) :
  (String.length (snd (Str.read_until d s)) <= String.length s)%nat.
Proof.
  induction s as [|a s IH]; simpl; [lia|].
  destruct (Ascii.eqb a d); simpl; [lia|].
  destruct (Str.read_until d s) as [l rest]. simpl in *. lia.
Qed.

Lemma getline_length (d : ascii) (s line rest : string) :
  Str.getline d s = Some (line, rest) ->
  (String.length rest < String.length s)%nat.
Proof.
  destruct s as [|a s]; simpl; [discriminate|].
  destruct (Ascii.eqb a d).
  - intros [= _ <-]. lia.
  - pose proof (read_until_length d s) as H.
    destruct (Str.read_until d s) as [l r]. intros [= _ <-]. simpl in H. lia.
Qed.

(** [getlines] lists what successive [getline] calls return. *)
Lemma getlines_getline (d : ascii) (s : string) :
  Str.getlines d s =
    match Str.getline d s with
    | None => []
    | Some (line, rest) => line :: Str.getlines d rest
    end.
Proof.
  induction s as [|a s IH]; [reflexivity|].
  cbn [Str.getlines Str.getline Str.read_until].
  destruct (Ascii.eqb a d); [reflexivity|].
  rewrite IH. destruct s as [|b s]; [reflexivity|].
  cbn [Str.getline]. destruct (Str.read_until d (String b s)) as [l r].
  reflexivity.
Qed.

Lemma read_records_length (n : nat) (cols : list string) (iss : string) (t : Table) :
  (String.length (fst (read_records n cols iss t)) <= String.length iss)%nat.
Proof.
  revert iss t. induction n as [|n IH]; intros iss t; simpl; [lia|].
  destruct (Str.getline newline iss) as [[line rest]|] eqn:Hg; simpl; [|lia].
  apply getline_length in Hg. specialize (IH rest (snd (insertRecord
    (build_record cols 0 (Utility.split (Utility.trim line) "|") ∅) t))). lia.
Qed.

(** The loader always finishes: with fuel above the length of the stream
    the loop never runs out of it. *)
Lemma load_loop_fuel (fuel : nat) (iss : string) (tables : Tables) :
  (String.length iss < fuel)%nat -> is_Some (load_loop fuel iss tables).
Proof.
  revert iss tables. induction fuel as [|fuel IH]; intros iss tables Hlen; [lia|].
  cbn [load_loop].
  destruct (Str.getline newline iss) as [[l1 s1]|] eqn:H1; [|eauto].
  apply getline_length in H1.
  destruct (Str.empty (Utility.trim l1)); [apply IH; lia|].
  destruct (negb (Str.starts_with "TABLE:" (Utility.trim l1))); [apply IH; lia|].
  destruct (Str.getline newline s1) as [[l2 s2]|] eqn:H2; [|eauto].
  apply getline_length in H2.
  destruct (negb (Str.starts_with "COLUMNS:" (Utility.trim l2))); [eauto|].
  destruct (Str.getline newline s2) as [[l3 s3]|] eqn:H3; [|eauto].
  apply getline_length in H3.
  destruct (negb (Str.starts_with "CONSTRAINTS:" (Utility.trim l3))); [eauto|].
  destruct (Str.getline newline s3) as [[l4 s4]|] eqn:H4; [|eauto].
  apply getline_length in H4.
  destruct (negb (Str.starts_with "RECORDS:" (Utility.trim l4))); [eauto|].
  destruct (Num.stoi _) as [recordCount|]; [|eauto].
  match goal with
  | |- context [read_records ?n ?c ?s ?t] =>
      pose proof (read_records_length n c s t) as H5;
      destruct (read_records n c s t) as [s5 t5]
  end.
  simpl in H5.
  destruct (Str.getline newline s5) as [[l6 s6]|] eqn:H6; [|eauto].
  apply getline_length in H6.
  destruct (negb _); [eauto|]. apply IH. lia.
Qed.

(** ** Database.cpp: loading what is not a catalog *)






(** ** Strings: concatenation, lines, trimming *)

Lemma append_cons (c : ascii) (s t : string) :
  String c s +:+ t = String c (s +:+ t).
Proof. reflexivity. Qed.

Lemma append_nil_l (s : string) : EmptyString +:+ s = s.
Proof. reflexivity. Qed.

Lemma append_nil_r (s : string) : s +:+ EmptyString = s.
Proof. induction s as [|c s IH]; [reflexivity|]. rewrite append_cons, IH. reflexivity. Qed.

Lemma append_assoc (a b c : string) : (a +:+ b) +:+ c = a +:+ (b +:+ c).
Proof.
  induction a as [|x a IH]; [reflexivity|]. rewrite !append_cons, IH. reflexivity.
Qed.

Lemma length_append (a b : string) :
  String.length (a +:+ b) = (String.length a + String.length b)%nat.
Proof.
  induction a as [|x a IH]; [reflexivity|]. rewrite append_cons. simpl. rewrite IH.
  reflexivity.
Qed.

Lemma size_append (a b : string) : Str.size (a +:+ b) = Str.size a + Str.size b.
Proof. unfold Str.size. rewrite length_append. lia. Qed.

Lemma drop_append (a b : string) : Str.drop (String.length a) (a +:+ b) = b.
Proof. induction a as [|x a IH]; [reflexivity|]. rewrite append_cons. exact IH. Qed.

Lemma take_append (a b : string) : Str.take (String.length a) (a +:+ b) = a.
Proof.
  induction a as [|x a IH]; [destruct b; reflexivity|].
  rewrite append_cons. simpl. rewrite IH. reflexivity.
Qed.

Lemma take_all (s : string) : Str.take (String.length s) s = s.
Proof. rewrite <- (append_nil_r s) at 2. rewrite take_append. reflexivity. Qed.

Lemma empty_append (a b : string) :
  Str.empty (a +:+ b) = Str.empty a && Str.empty b.
Proof. destruct a; reflexivity. Qed.

Lemma front_append (a b : string) :
  Str.front (a +:+ b) = if Str.empty a then Str.front b else Str.front a.
Proof. destruct a; reflexivity. Qed.

Lemma back_cons (c : ascii) (s : string) :
  Str.back (String c s) = if Str.empty s then c else Str.back s.
Proof. destruct s; reflexivity. Qed.

Lemma back_append (a b : string) :
  Str.back (a +:+ b) = if Str.empty b then Str.back a else Str.back b.
Proof.
  induction a as [|x a IH].
  - destruct b; reflexivity.
  - rewrite append_cons, !back_cons, IH, empty_append.
    destruct (Str.empty a), (Str.empty b); reflexivity.
Qed.

Lemma substr_from_append (a b : string) :
  Str.substr_from (a +:+ b) (Str.size a) = b.
Proof. unfold Str.substr_from, Str.size. rewrite Nat2N.id. apply drop_append. Qed.

(** The middle of a concatenation, as [substr] extracts it. *)
Lemma substr_middle (a b c : string) (len : N) :
  len = Str.size b -> Str.substr (a +:+ b +:+ c) (Str.size a) len = b.
Proof.
  intros ->. unfold Str.substr. rewrite !size_append.
  replace (N.to_nat (N.min (Str.size b) (Str.size a + (Str.size b + Str.size c) - Str.size a)))
    with (String.length b) by (unfold Str.size; lia).
  unfold Str.size at 1. rewrite Nat2N.id, drop_append. apply take_append.
Qed.

Lemma substr_prefix (a b : string) :
  Str.substr (a +:+ b) 0 (Str.size a) = a.
Proof.
  unfold Str.substr. rewrite size_append.
  replace (N.to_nat (N.min (Str.size a) (Str.size a + Str.size b - 0)))
    with (String.length a) by (unfold Str.size; lia).
  simpl. apply take_append.
Qed.

Lemma sub_exact (a b : N) : b <= a -> Str.sub a b = a - b.
Proof. intros H. unfold Str.sub. destruct (N.leb_spec b a); [reflexivity|lia]. Qed.

(** *** Characters that a string is free of *)

Lemma free_of_append (f a b : string) :
  free_of f (a +:+ b) = free_of f a && free_of f b.
Proof.
  induction a as [|x a IH]; [reflexivity|]. rewrite append_cons. simpl.
  rewrite IH, andb_assoc. reflexivity.
Qed.

Lemma free_of_char (f s : string) (d : ascii) :
  Str.mem d f = true -> free_of f s = true -> free_of (String d EmptyString) s = true.
Proof.
  intros Hd. induction s as [|c s IH]; simpl; [reflexivity|].
  rewrite !andb_true_iff, !negb_true_iff, orb_false_r. intros [Hc Hs].
  split; [|auto]. destruct (Ascii.eqb_spec d c) as [->|]; [congruence|reflexivity].
Qed.

Lemma free_of_sub (f g s : string) :
  (forall c, Str.mem c g = true -> Str.mem c f = true) ->
  free_of f s = true -> free_of g s = true.
Proof.
  intros Hsub. induction s as [|c s IH]; simpl; [reflexivity|].
  rewrite !andb_true_iff, !negb_true_iff. intros [Hc Hs]. split; [|auto].
  destruct (Str.mem c g) eqn:E; [|reflexivity]. apply Hsub in E. congruence.
Qed.

(** *** Reading a line *)

Lemma read_until_line (d : ascii) (line rest : string) :
  free_of (String d EmptyString) line = true ->
  Str.read_until d (line +:+ String d rest) = (line, rest).
Proof.
  induction line as [|c line IH]; simpl.
  - intros _. rewrite Ascii.eqb_refl. reflexivity.
  - rewrite andb_true_iff, negb_true_iff, orb_false_r. intros [Hc Hl].
    rewrite Ascii.eqb_sym, Hc, (IH Hl). reflexivity.
Qed.

Lemma getline_line (d : ascii) (line rest : string) :
  free_of (String d EmptyString) line = true ->
  Str.getline d (line +:+ String d rest) = Some (line, rest).
Proof.
  intros H. unfold Str.getline.
  destruct (line +:+ String d rest) eqn:E.
  - destruct line; discriminate.
  - rewrite <- E, read_until_line by exact H. reflexivity.
Qed.

Lemma read_until_last (d : ascii) (line : string) :
  free_of (String d EmptyString) line = true ->
  Str.read_until d line = (line, EmptyString).
Proof.
  induction line as [|c line IH]; simpl; [reflexivity|].
  rewrite andb_true_iff, negb_true_iff, orb_false_r. intros [Hc Hl].
  rewrite Ascii.eqb_sym, Hc, (IH Hl). reflexivity.
Qed.

Lemma getlines_line (d : ascii) (line rest : string) :
  free_of (String d EmptyString) line = true ->
  Str.getlines d (line +:+ String d rest) = line :: Str.getlines d rest.
Proof.
  intros H. rewrite getlines_getline, getline_line by exact H. reflexivity.
Qed.

Lemma getlines_last (d : ascii) (line : string) :
  line <> EmptyString -> free_of (String d EmptyString) line = true ->
  Str.getlines d line = [line].
Proof.
  intros Hne H. rewrite getlines_getline. unfold Str.getline.
  destruct line; [contradiction|]. rewrite read_until_last by exact H. reflexivity.
Qed.

(** *** Trimming *)

Lemma find_last_not_of_back (set s : string) :
  s <> EmptyString -> Str.mem (Str.back s) set = false ->
  Str.find_last_not_of set s = Some (N.of_nat (String.length s - 1)).
Proof.
  induction s as [|c s IH]; [contradiction|]. intros _. rewrite back_cons.
  destruct s as [|c' s'].
  - simpl. intros ->. reflexivity.
  - change (Str.empty (String c' s')) with false. cbv iota. intros Hb.
    cbn [Str.find_last_not_of] in *. rewrite (IH ltac:(discriminate) Hb).
    f_equal. simpl. lia.
Qed.

(** When [find_first_not_of] finds a character, so does [find_last_not_of]:
    the second [None] branch of [trim] is never taken. *)
Lemma find_last_not_of_Some (set s : string) (i : N) :
  Str.find_first_not_of set s = Some i -> is_Some (Str.find_last_not_of set s).
Proof.
  revert i. induction s as [|a s IH]; intros i; cbn [Str.find_first_not_of
    Str.find_last_not_of]; [discriminate|].
  destruct (Str.mem a set) eqn:Ha.
  - destruct (Str.find_first_not_of set s) as [j|]; [|discriminate].
    intros _. destruct (IH j eq_refl) as [k ->]. eauto.
  - intros _. destruct (Str.find_last_not_of set s); eauto.
Qed.

(** A string without outer white space is left as it is by [trim]. *)
Lemma trim_id (s : string) : no_outer_space s = true -> Utility.trim s = s.
Proof.
  destruct s as [|c s]; [reflexivity|]. unfold no_outer_space.
  rewrite andb_true_iff, !negb_true_iff. intros [Hf Hb].
  unfold Utility.trim. cbn [Str.find_first_not_of]. cbn [Str.front] in Hf. rewrite Hf.
  rewrite (find_last_not_of_back _ (String c s) ltac:(discriminate) Hb).
  unfold Str.substr. rewrite sub_exact by lia.
  replace (N.to_nat (N.min (N.of_nat (String.length (String c s) - 1) - 0 + 1)
                           (Str.size (String c s) - 0)))
    with (String.length (String c s)) by (unfold Str.size; simpl; lia).
  change (N.to_nat 0) with O. cbn [Str.drop]. apply take_all.
Qed.

Lemma no_outer_space_append (a b : string) :
  no_outer_space a = true -> no_outer_space b = true ->
  no_outer_space (a +:+ b) = true.
Proof.
  destruct a as [|x a]; [intros _ H; exact H|].
  destruct b as [|y b]; [intros H _; rewrite append_nil_r; exact H|].
  unfold no_outer_space. rewrite append_cons.
  rewrite <- (append_cons x a (String y b)), front_append, back_append.
  simpl Str.empty. cbv iota. rewrite !andb_true_iff. intros [H1 _] [_ H2].
  split; assumption.
Qed.

(** *** Joining and splitting *)

Lemma join_cons2 (sep x y : string) (r : list string) :
  join sep (x :: y :: r) = x +:+ sep +:+ join sep (y :: r).
Proof. reflexivity. Qed.

Lemma free_of_join (f sep : string) (vs : list string) :
  free_of f sep = true -> forallb (free_of f) vs = true ->
  free_of f (join sep vs) = true.
Proof.
  intros Hsep. induction vs as [|x [|y r] IH]; [reflexivity | simpl | ].
  - rewrite andb_true_r. auto.
  - rewrite join_cons2. cbn [forallb]. rewrite andb_true_iff. intros [Hx Hr].
    rewrite !free_of_append, Hx, Hsep. simpl. apply IH. exact Hr.
Qed.

Lemma no_outer_space_join (sep : string) (vs : list string) :
  no_outer_space sep = true -> forallb no_outer_space vs = true ->
  no_outer_space (join sep vs) = true.
Proof.
  intros Hsep. induction vs as [|x [|y r] IH]; [reflexivity | simpl | ].
  - rewrite andb_true_r. auto.
  - rewrite join_cons2. cbn [forallb]. rewrite andb_true_iff. intros [Hx Hr].
    apply no_outer_space_append; [exact Hx|].
    apply no_outer_space_append; [exact Hsep|]. apply IH. exact Hr.
Qed.

Lemma plain_name_parts (f s : string) :
  plain_name f s = true ->
  s <> EmptyString /\ no_outer_space s = true /\ free_of f s = true.
Proof.
  unfold plain_name. rewrite !andb_true_iff, negb_true_iff.
  intros [[H1 H2] H3]. repeat split; auto. apply empty_false_iff. exact H1.
Qed.

Lemma plain_names_free (f : string) (vs : list string) :
  forallb (plain_name f) vs = true -> forallb (free_of f) vs = true.
Proof.
  induction vs as [|x r IH]; simpl; [reflexivity|].
  rewrite !andb_true_iff. intros [Hx Hr]. split; [|auto].
  apply plain_name_parts in Hx. tauto.
Qed.

Lemma plain_names_no_outer_space (f : string) (vs : list string) :
  forallb (plain_name f) vs = true -> forallb no_outer_space vs = true.
Proof.
  induction vs as [|x r IH]; simpl; [reflexivity|].
  rewrite !andb_true_iff. intros [Hx Hr]. split; [|auto].
  apply plain_name_parts in Hx. tauto.
Qed.

Lemma plain_names_sub (f g : string) (vs : list string) :
  (forall c, Str.mem c g = true -> Str.mem c f = true) ->
  forallb (plain_name f) vs = true -> forallb (plain_name g) vs = true.
Proof.
  intros Hsub. induction vs as [|x r IH]; simpl; [reflexivity|].
  rewrite !andb_true_iff. intros [Hx Hr]. split; [|auto].
  apply plain_name_parts in Hx as (H1 & H2 & H3). unfold plain_name.
  rewrite H2, (free_of_sub f g x Hsub H3).
  apply empty_false_iff in H1. rewrite H1. reflexivity.
Qed.

(** Splitting the joined names gives the names back. *)
Lemma getlines_join (d : ascii) (vs : list string) :
  forallb (plain_name (String d EmptyString)) vs = true ->
  Str.getlines d (join (String d EmptyString) vs) = vs.
Proof.
  induction vs as [|x [|y r] IH]; [reflexivity | simpl | ].
  - rewrite andb_true_r. intros Hx. apply plain_name_parts in Hx as (H1 & _ & H3).
    apply getlines_last; assumption.
  - rewrite join_cons2. cbn [forallb]. rewrite andb_true_iff. intros [Hx Hr].
    apply plain_name_parts in Hx as (_ & _ & H3).
    change (String d EmptyString +:+ join (String d EmptyString) (y :: r))
      with (String d (join (String d EmptyString) (y :: r))).
    rewrite getlines_line by exact H3. f_equal. apply IH. exact Hr.
Qed.

Lemma map_trim_id (vs : list string) :
  forallb no_outer_space vs = true -> map Utility.trim vs = vs.
Proof.
  induction vs as [|x r IH]; simpl; [reflexivity|].
  rewrite andb_true_iff. intros [Hx Hr]. rewrite trim_id, IH by assumption.
  reflexivity.
Qed.

Lemma split_join (f : string) (d : ascii) (vs : list string) :
  Str.mem d f = true -> forallb (plain_name f) vs = true ->
  Utility.split (join (String d EmptyString) vs) d = vs.
Proof.
  intros Hd Hvs. unfold Utility.split. rewrite getlines_join.
  - apply map_trim_id. eapply plain_names_no_outer_space; eauto.
  - revert Hvs. apply plain_names_sub. intros c. simpl. rewrite orb_false_r.
    intros E. apply Ascii.eqb_eq in E. subst c. exact Hd.
Qed.

Lemma getlines_join_field (d : ascii) (vs : list string) (j : nat) :
  forallb (free_of (String d EmptyString)) vs = true ->
  field (Str.getlines d (join (String d EmptyString) vs)) j = field vs j.
Proof.
  revert j. induction vs as [|x [|y r] IH]; intros j; [reflexivity | simpl | ].
  - rewrite andb_true_r. intros Hx. destruct x as [|c x].
    + destruct j; reflexivity.
    + rewrite getlines_last; [reflexivity|discriminate|exact Hx].
  - rewrite join_cons2. cbn [forallb]. rewrite andb_true_iff. intros [Hx Hr].
    change (String d EmptyString +:+ join (String d EmptyString) (y :: r))
      with (String d (join (String d EmptyString) (y :: r))).
    rewrite getlines_line by exact Hx.
    destruct j as [|j]; [reflexivity|]. unfold field in *. simpl.
    apply IH. exact Hr.
Qed.

Lemma field_map_trim (vs : list string) (j : nat) :
  field (map Utility.trim vs) j = Utility.trim (field vs j).
Proof.
  unfold field. change (map Utility.trim vs) with (Utility.trim <$> vs).
  rewrite list_lookup_fmap. destruct (vs !! j); reflexivity.
Qed.

Lemma split_join_field (f : string) (d : ascii) (vs : list string) (j : nat) :
  Str.mem d f = true ->
  forallb (fun v => no_outer_space v && free_of f v) vs = true ->
  field (Utility.split (join (String d EmptyString) vs) d) j = field vs j.
Proof.
  intros Hd Hvs. unfold Utility.split. rewrite field_map_trim, getlines_join_field.
  - unfold field. destruct (vs !! j) as [v|] eqn:E; [|reflexivity].
    apply trim_id. rewrite forallb_forall in Hvs.
    apply list_elem_of_lookup_2, list_elem_of_In in E. apply Hvs in E.
    apply andb_true_iff in E. tauto.
  - clear j. induction vs as [|x r IH]; simpl in *; [reflexivity|].
    apply andb_true_iff in Hvs as [Hx Hr]. apply andb_true_iff in Hx as [_ Hx].
    rewrite (free_of_char f x d Hd Hx). simpl. auto.
Qed.

(** *** Searching *)

Lemma size_cons (c : ascii) (s : string) : Str.size (String c s) = N.succ (Str.size s).
Proof. unfold Str.size. simpl. lia. Qed.

Lemma find_char_append (c : ascii) (a b : string) :
  free_of (String c EmptyString) a = true ->
  Str.find_char c (a +:+ String c b) = Some (Str.size a).
Proof.
  induction a as [|x a IH]; simpl.
  - intros _. rewrite Ascii.eqb_refl. reflexivity.
  - rewrite andb_true_iff, negb_true_iff, orb_false_r. intros [Hx Ha].
    rewrite Ascii.eqb_sym, Hx, (IH Ha), size_cons. reflexivity.
Qed.

Lemma find_arrow (a b : string) :
  free_of ")" a = true ->
  Str.find_str ")->" (a +:+ ")->" +:+ b) = Some (Str.size a).
Proof.
  induction a as [|x a IH].
  - intros _. reflexivity.
  - cbn [free_of]. rewrite andb_true_iff, negb_true_iff. intros [Hx Ha].
    rewrite append_cons. cbn [Str.find_str Str.starts_with].
    cbn [Str.mem] in Hx. rewrite orb_false_r in Hx. rewrite Hx. cbn [andb].
    rewrite (IH Ha), size_cons. reflexivity.
Qed.

Lemma starts_with_append (p s : string) : Str.starts_with p (p +:+ s) = true.
Proof.
  induction p as [|c p IH]; [reflexivity|]. rewrite append_cons. simpl.
  rewrite Ascii.eqb_refl. exact IH.
Qed.

(** *** Decimal numbers *)

Lemma digit_char_spec (d : N) :
  d < 10 ->
  Num.is_digit (Num.digit_char d) = true
  /\ Num.digit_value (Num.digit_char d) = d
  /\ Num.is_space (Num.digit_char d) = false
  /\ Str.mem (Num.digit_char d) Utility.whitespace = false
  /\ Ascii.eqb (Num.digit_char d) newline = false
  /\ Num.digit_char d <> "-"%char /\ Num.digit_char d <> "+"%char.
Proof.
  intros H.
  assert (Hd : d = 0 \/ d = 1 \/ d = 2 \/ d = 3 \/ d = 4 \/ d = 5 \/ d = 6
               \/ d = 7 \/ d = 8 \/ d = 9) by lia.
  repeat (destruct Hd as [->|Hd]; [vm_compute; repeat split; discriminate|]).
  subst d. vm_compute. repeat split; discriminate.
Qed.


Lemma is_digit_char (c : ascii) :
  Num.is_digit c = true -> exists d, d < 10 /\ c = Num.digit_char d.
Proof.
  unfold Num.is_digit. rewrite andb_true_iff, !N.leb_le. intros [H1 H2].
  exists (N_of_ascii c - 48). split; [lia|]. unfold Num.digit_char.
  replace (48 + (N_of_ascii c - 48)) with (N_of_ascii c) by lia.
  symmetry. apply ascii_N_embedding.
Qed.

Lemma digits_value_append (ds rest : string) (a : N) :
  all_digits ds = true ->
  Num.digits_value a (ds +:+ rest) = Num.digits_value (Num.digits_value a ds) rest.
Proof.
  revert a. induction ds as [|c ds IH]; intros a; simpl; [reflexivity|].
  rewrite andb_true_iff. intros [Hc Hds]. rewrite Hc. apply IH. exact Hds.
Qed.

Lemma all_digits_append (a b : string) :
  all_digits (a +:+ b) = all_digits a && all_digits b.
Proof.
  induction a as [|c a IH]; [reflexivity|]. simpl. rewrite IH, andb_assoc. reflexivity.
Qed.

Lemma to_decimal_loop_S (fuel : nat) (n : N) (acc : string) :
  Num.to_decimal_loop (S fuel) n acc =
    if n <? 10 then String (Num.digit_char (n mod 10)) acc
    else Num.to_decimal_loop fuel (n / 10) (String (Num.digit_char (n mod 10)) acc).
Proof. reflexivity. Qed.

Lemma to_decimal_loop_spec (fuel : nat) :
  forall n acc, n < 2 ^ N.of_nat (S fuel) ->
    exists ds,
      Num.to_decimal_loop (S fuel) n acc = ds +:+ acc
      /\ ds <> EmptyString
      /\ all_digits ds = true
      /\ forall a, Num.digits_value a ds = a * 10 ^ Str.size ds + n.
Proof.
  induction fuel as [|fuel IH]; intros n acc Hn.
  - assert (n < 10) by (change (2 ^ N.of_nat 1) with 2 in Hn; lia).
    exists (String (Num.digit_char n) EmptyString).
    rewrite to_decimal_loop_S. rewrite N.mod_small by assumption.
    destruct (digit_char_spec n) as (Hd & Hv & _); [assumption|].
    destruct (N.ltb_spec n 10); [|lia].
    repeat split; [discriminate|simpl; rewrite Hd; reflexivity|].
    intros a. simpl. rewrite Hd, Hv.
    change (Str.size (String (Num.digit_char n) EmptyString)) with 1. lia.
  - rewrite to_decimal_loop_S. destruct (N.ltb_spec n 10) as [Hlt|Hge].
    + exists (String (Num.digit_char n) EmptyString).
      rewrite N.mod_small by assumption.
      destruct (digit_char_spec n) as (Hd & Hv & _); [assumption|].
      repeat split; [discriminate|simpl; rewrite Hd; reflexivity|].
      intros a. simpl. rewrite Hd, Hv.
      change (Str.size (String (Num.digit_char n) EmptyString)) with 1. lia.
    + assert (Hdiv : n / 10 < 2 ^ N.of_nat (S fuel)).
      { apply N.Div0.div_lt_upper_bound.
        replace (N.of_nat (S (S fuel))) with (N.succ (N.of_nat (S fuel))) in Hn by lia.
        rewrite N.pow_succ_r' in Hn. lia. }
      destruct (IH (n / 10) (String (Num.digit_char (n mod 10)) acc) Hdiv)
        as (ds & Heq & Hne & Hall & Hval).
      assert (Hm : n mod 10 < 10) by (apply N.mod_lt; lia).
      destruct (digit_char_spec (n mod 10) Hm) as (Hd & Hv & _).
      exists (ds +:+ String (Num.digit_char (n mod 10)) EmptyString).
      split; [|split; [|split]].
      * rewrite Heq, append_assoc. reflexivity.
      * destruct ds; [contradiction|discriminate].
      * rewrite all_digits_append, Hall. simpl. rewrite Hd. reflexivity.
      * intros a. rewrite digits_value_append by exact Hall. simpl.
        rewrite Hd, Hv, Hval, size_append.
        change (Str.size (String (Num.digit_char (n mod 10)) EmptyString)) with 1.
        rewrite N.pow_add_r. pose proof (N.div_mod n 10 ltac:(lia)). 
        change (10 ^ 1) with 10. lia.
Qed.

Lemma to_decimal_spec (n : N) :
  Num.to_decimal n <> EmptyString
  /\ all_digits (Num.to_decimal n) = true
  /\ Num.digits_value 0 (Num.to_decimal n) = n.
Proof.
  unfold Num.to_decimal.
  destruct (to_decimal_loop_spec (N.to_nat (N.log2 n)) n EmptyString)
    as (ds & Heq & Hne & Hall & Hval).
  - destruct (N.eq_dec n 0) as [->|Hn0].
    + simpl. lia.
    + replace (N.of_nat (S (N.to_nat (N.log2 n)))) with (N.succ (N.log2 n)) by lia.
      apply N.log2_spec. lia.
  - rewrite Heq, append_nil_r. repeat split; auto.
Qed.

Lemma all_digits_plain (ds : string) :
  all_digits ds = true ->
  free_of nl ds = true /\ no_outer_space ds = true.
Proof.
  intros Hall.
  assert (Hchars : forall c rest pre, ds = pre +:+ String c rest ->
            Str.mem c Utility.whitespace = false /\ Ascii.eqb c newline = false).
  { intros c rest pre ->. rewrite all_digits_append in Hall.
    apply andb_true_iff in Hall as [_ Hall]. simpl in Hall.
    apply andb_true_iff in Hall as [Hc _].
    apply is_digit_char in Hc as (d & Hd & ->).
    destruct (digit_char_spec d Hd) as (_ & _ & _ & ? & ? & _). auto. }
  split.
  - clear Hall. induction ds as [|c ds IH]; [reflexivity|].
    cbn [free_of]. unfold nl at 1. cbn [Str.mem].
    destruct (Hchars c ds EmptyString eq_refl) as [_ Hn].
    rewrite orb_false_r, Ascii.eqb_sym, Hn. cbn [negb andb]. apply IH.
    intros c' rest pre ->. apply (Hchars c' rest (String c pre)). reflexivity.
  - destruct ds as [|c ds]; [reflexivity|]. unfold no_outer_space.
    destruct (Hchars c ds EmptyString eq_refl) as [Hw _]. cbn [Str.front]. rewrite Hw.
    cbn [negb andb]. clear Hall Hw.
    revert c Hchars. induction ds as [|c' ds IH]; intros c Hchars.
    + cbn [Str.back]. destruct (Hchars c EmptyString EmptyString eq_refl) as [-> _].
      reflexivity.
    + rewrite back_cons. change (Str.empty (String c' ds)) with false. cbv iota.
      apply IH. intros c0 rest pre E. apply (Hchars c0 rest (String c pre)).
      rewrite E. reflexivity.
Qed.

(** [std::stoi] reads back what [oss << n] wrote, for an [n] that fits an
    [int]. *)
Lemma stoi_to_decimal (n : N) :
  n < 2 ^ 31 -> Num.stoi (Num.to_decimal n) = Some (Z.of_N n).
Proof.
  intros Hn. destruct (to_decimal_spec n) as (Hne & Hall & Hval).
  destruct (Num.to_decimal n) as [|c ds]; [contradiction|].
  pose proof Hall as Hall'. simpl in Hall'. apply andb_true_iff in Hall' as [Hc _].
  destruct (is_digit_char c Hc) as (d & Hd & ->).
  destruct (digit_char_spec d Hd) as (_ & _ & Hsp & _ & _ & Hminus & Hplus).
  unfold Num.stoi. cbn [Num.skip_spaces]. rewrite Hsp.
  assert (Hsign :
    match String (Num.digit_char d) ds with
    | String "-" r => (true, r)
    | String "+" r => (false, r)
    | _ => (false, String (Num.digit_char d) ds)
    end = (false, String (Num.digit_char d) ds)).
  { assert (Hcases : d = 0 \/ d = 1 \/ d = 2 \/ d = 3 \/ d = 4 \/ d = 5 \/ d = 6
               \/ d = 7 \/ d = 8 \/ d = 9) by lia.
    repeat (destruct Hcases as [->|Hcases]; [reflexivity|]). subst d. reflexivity. }
  rewrite Hsign. cbn [Str.front]. rewrite Hc, Hval.
  destruct (Z.leb_spec (- 2 ^ 31) (Z.of_N n)); [|lia].
  destruct (Z.leb_spec (Z.of_N n) (2 ^ 31 - 1)); [reflexivity|lia].
Qed.

(** ** Database.cpp: a constraint is read back as it was written *)

Lemma mem_nl_in (f : string) (c : ascii) :
  Str.mem c nl = true -> Str.mem newline f = true -> Str.mem c f = true.
Proof.
  unfold nl. cbn [Str.mem]. rewrite orb_false_r. intros E.
  apply Ascii.eqb_eq in E. subst c. auto.
Qed.


Lemma parse_write_key (cols : list string) :
  forallb (plain_name (",;" +:+ nl)) cols = true ->
  Utility.split (join "," cols) "," = cols.
Proof. apply split_join. reflexivity. Qed.

Lemma substr_payload (tag payload tail : string) (pos len : N) :
  pos = Str.size tag -> len = Str.size payload ->
  Str.substr (tag +:+ payload +:+ tail) pos len = payload.
Proof. intros -> ->. apply substr_middle. reflexivity. Qed.

Lemma parse_write_constraint (c : Constraint) (s : Schema) :
  plain_constraint c = true ->
  parse_constraint (write_constraint c) s = addConstraint c s.
Proof.
  destruct c as [cols|cols|cols ref refCols]; cbn [plain_constraint write_constraint].
  - intros Hc. unfold parse_constraint. rewrite starts_with_append.
    rewrite (substr_payload "PK(" (join "," cols) ")").
    + rewrite parse_write_key by exact Hc. reflexivity.
    + reflexivity.
    + rewrite !size_append. change (Str.size "PK(") with 3. change (Str.size ")") with 1.
      rewrite sub_exact by lia. lia.
  - intros Hc. unfold parse_constraint.
    change (Str.starts_with "PK(" ("UQ(" +:+ join "," cols +:+ ")")) with false.
    rewrite starts_with_append. cbv iota.
    rewrite (substr_payload "UQ(" (join "," cols) ")").
    + rewrite parse_write_key by exact Hc. reflexivity.
    + reflexivity.
    + rewrite !size_append. change (Str.size "UQ(") with 3. change (Str.size ")") with 1.
      rewrite sub_exact by lia. lia.
  - rewrite !andb_true_iff. intros [[[Hcols Href1] Href2] Hrefs].
    unfold parse_constraint.
    set (J := join "," cols). set (J2 := join "," refCols).
    change (Str.starts_with "PK(" ("FK(" +:+ J +:+ ")->" +:+ ref +:+ "(" +:+ J2 +:+ ")"))
      with false.
    change (Str.starts_with "UQ(" ("FK(" +:+ J +:+ ")->" +:+ ref +:+ "(" +:+ J2 +:+ ")"))
      with false.
    rewrite starts_with_append. cbv iota.
    assert (HJ : free_of ")" J = true).
    { apply free_of_join; [reflexivity|].
      apply plain_names_free. revert Hcols. apply plain_names_sub.
      intros ch E. mem_cases E. }
    assert (Harrow : Str.find_str ")->"
              ("FK(" +:+ J +:+ ")->" +:+ ref +:+ "(" +:+ J2 +:+ ")")
            = Some (3 + Str.size J)).
    { rewrite <- (append_assoc "FK(" J). rewrite find_arrow.
      - rewrite size_append. reflexivity.
      - rewrite free_of_append, HJ. reflexivity. }
    rewrite Harrow.
    rewrite (substr_payload "FK(" J (")->" +:+ ref +:+ "(" +:+ J2 +:+ ")"));
      [|reflexivity|rewrite sub_exact by lia; lia].
    assert (Hrest : Str.substr_from
              ("FK(" +:+ J +:+ ")->" +:+ ref +:+ "(" +:+ J2 +:+ ")") (3 + Str.size J + 3)
            = ref +:+ "(" +:+ J2 +:+ ")").
    { rewrite <- (append_assoc J ")->"), <- (append_assoc "FK(" (J +:+ ")->")).
      replace (3 + Str.size J + 3) with (Str.size ("FK(" +:+ J +:+ ")->")).
      - apply substr_from_append.
      - rewrite !size_append. change (Str.size "FK(") with 3.
        change (Str.size ")->") with 3. lia. }
    rewrite Hrest.
    assert (Hparen : Str.find_char "(" (ref +:+ "(" +:+ J2 +:+ ")") = Some (Str.size ref)).
    { change ("(" +:+ J2 +:+ ")") with (String "("%char (J2 +:+ ")")).
      apply find_char_append. revert Href2. apply free_of_sub.
      intros ch E. mem_cases E. }
    rewrite Hparen.
    rewrite substr_prefix, trim_id by exact Href1.
    rewrite <- (append_assoc ref "(").
    rewrite (substr_payload (ref +:+ "(") J2 ")").
    + unfold J, J2. rewrite (parse_write_key refCols) by exact Hrefs.
      rewrite (parse_write_key cols).
      * reflexivity.
      * revert Hcols. apply plain_names_sub. intros ch E. mem_cases E.
    + rewrite size_append. reflexivity.
    + rewrite !size_append. change (Str.size "(") with 1. change (Str.size ")") with 1.
      rewrite (sub_exact _ (Str.size ref)) by lia. rewrite sub_exact by lia. lia.
Qed.

Lemma plain_name_intro (f s : string) :
  Str.empty s = false -> no_outer_space s = true -> free_of f s = true ->
  plain_name f s = true.
Proof. intros H1 H2 H3. unfold plain_name. rewrite H1, H2, H3. reflexivity. Qed.

Lemma plain_names_join_free (f g : string) (cols : list string) :
  (forall c, Str.mem c g = true -> Str.mem c f = true) ->
  free_of g "," = true ->
  forallb (plain_name f) cols = true -> free_of g (join "," cols) = true.
Proof.
  intros Hsub Hsep Hcols. apply free_of_join; [exact Hsep|].
  apply plain_names_free. revert Hcols. apply plain_names_sub. exact Hsub.
Qed.

Lemma plain_names_join_no_outer_space (f : string) (cols : list string) :
  forallb (plain_name f) cols = true -> no_outer_space (join "," cols) = true.
Proof.
  intros Hcols. apply no_outer_space_join; [reflexivity|].
  eapply plain_names_no_outer_space; eauto.
Qed.

(** A written constraint is one token of the constraints line. *)
Lemma write_constraint_plain (c : Constraint) :
  plain_constraint c = true ->
  plain_name (";" +:+ nl) (write_constraint c) = true.
Proof.
  destruct c as [cols|cols|cols ref refCols]; cbn [plain_constraint write_constraint].
  - intros Hc. apply plain_name_intro; [reflexivity| |].
    + repeat (apply no_outer_space_append; [try reflexivity|]); try reflexivity.
      eapply plain_names_join_no_outer_space; eauto.
    + rewrite !free_of_append.
      rewrite (plain_names_join_free (",;" +:+ nl) (";" +:+ nl) cols); auto.
      intros ch E. mem_cases E.
  - intros Hc. apply plain_name_intro; [reflexivity| |].
    + repeat (apply no_outer_space_append; [try reflexivity|]); try reflexivity.
      eapply plain_names_join_no_outer_space; eauto.
    + rewrite !free_of_append.
      rewrite (plain_names_join_free (",;" +:+ nl) (";" +:+ nl) cols); auto.
      intros ch E. mem_cases E.
  - rewrite !andb_true_iff. intros [[[Hcols Href1] Href2] Hrefs].
    apply plain_name_intro; [reflexivity| |].
    + apply no_outer_space_append; [reflexivity|].
      apply no_outer_space_append;
        [eapply plain_names_join_no_outer_space; eauto|].
      apply no_outer_space_append; [reflexivity|].
      apply no_outer_space_append; [exact Href1|].
      apply no_outer_space_append; [reflexivity|].
      apply no_outer_space_append;
        [eapply plain_names_join_no_outer_space; eauto|reflexivity].
    + rewrite !free_of_append.
      rewrite (plain_names_join_free (",;)" +:+ nl) (";" +:+ nl) cols); auto.
      2:{ intros ch E. mem_cases E. }
      rewrite (plain_names_join_free (",;" +:+ nl) (";" +:+ nl) refCols); auto.
      2:{ intros ch E. mem_cases E. }
      rewrite (free_of_sub ("(;" +:+ nl) (";" +:+ nl) ref); auto.
      intros ch E. mem_cases E.
Qed.

Lemma write_constraints_join (cs : list Constraint) :
  write_constraints cs true = join ";" (map write_constraint cs).
Proof.
  destruct cs as [|c cs]; [reflexivity|].
  cbn [write_constraints]. rewrite append_nil_l.
  revert c. induction cs as [|c' cs IH]; intros c.
  - simpl. apply append_nil_r.
  - cbn [write_constraints map]. rewrite join_cons2. f_equal.
    change (";" +:+ write_constraint c' +:+ write_constraints cs false)
      with (";" +:+ (write_constraint c' +:+ write_constraints cs false)).
    rewrite (IH c'). reflexivity.
Qed.

Lemma plain_constraints_tokens (cs : list Constraint) :
  forallb plain_constraint cs = true ->
  forallb (plain_name (";" +:+ nl)) (map write_constraint cs) = true.
Proof.
  induction cs as [|c cs IH]; simpl; [reflexivity|].
  rewrite !andb_true_iff. intros [Hc Hcs]. split; [|auto].
  apply write_constraint_plain. exact Hc.
Qed.

Lemma fold_parse_constraints (cs : list Constraint) (s : Schema) :
  forallb plain_constraint cs = true ->
  fold_left (fun s token => parse_constraint token s) (map write_constraint cs) s
  = mkSchema (columns s) (constraints s ++ cs).
Proof.
  revert s. induction cs as [|c cs IH]; intros s; simpl.
  - intros _. rewrite app_nil_r. destruct s; reflexivity.
  - rewrite andb_true_iff. intros [Hc Hcs].
    rewrite parse_write_constraint by exact Hc. rewrite IH by exact Hcs.
    unfold addConstraint. simpl. rewrite <- app_assoc. reflexivity.
Qed.

(** The constraints line: free of line breaks and of outer white space, and
    read back as the constraints that were written. *)
Lemma constraints_line (cs : list Constraint) (s : Schema) :
  forallb plain_constraint cs = true ->
  free_of nl (write_constraints cs true) = true
  /\ no_outer_space (write_constraints cs true) = true
  /\ (if negb (Str.empty (write_constraints cs true))
      then fold_left (fun s token => parse_constraint token s)
             (Utility.split (write_constraints cs true) ";") s
      else s) = mkSchema (columns s) (constraints s ++ cs).
Proof.
  intros Hcs. pose proof (plain_constraints_tokens cs Hcs) as Htok.
  rewrite write_constraints_join. split; [|split].
  - apply free_of_join; [reflexivity|]. apply plain_names_free.
    revert Htok. apply plain_names_sub. intros ch E. mem_cases E.
  - apply no_outer_space_join; [reflexivity|].
    eapply plain_names_no_outer_space; eauto.
  - destruct cs as [|c cs].
    + simpl. rewrite app_nil_r. destruct s; reflexivity.
    + assert (Hne : Str.empty (join ";" (map write_constraint (c :: cs))) = false).
      { simpl in Htok. apply andb_true_iff in Htok as [Hc _].
        apply plain_name_parts in Hc as (Hne & _).
        cbn [map]. destruct (map write_constraint cs).
        - simpl. apply empty_false_iff. exact Hne.
        - rewrite join_cons2, empty_append.
          apply empty_false_iff in Hne. rewrite Hne. reflexivity. }
      rewrite Hne. cbn [negb].
      rewrite (split_join (";" +:+ nl) ";") by (reflexivity || exact Htok).
      apply fold_parse_constraints. exact Hcs.
Qed.

(** The columns line. *)
Lemma fold_add_columns (names : list string) (s : Schema) :
  fold_left (fun s colName => addColumn (Column_ colName STRING) s) names s
  = mkSchema (columns s ++ map (fun n => Column_ n STRING) names) (constraints s).
Proof.
  revert s. induction names as [|n names IH]; intros s; simpl.
  - rewrite app_nil_r. destruct s; reflexivity.
  - rewrite IH. unfold addColumn. simpl. rewrite <- app_assoc. reflexivity.
Qed.

(** ** Database.cpp: a record is read back as it was written *)

Lemma record_values_written (cols : list Column) (r : DbRecord) :
  record_values cols r = map (written_value r) (map col_name cols).
Proof.
  unfold record_values. rewrite map_map. apply map_ext. intros c.
  unfold hasColumn, getValue, written_value. destruct (r !! col_name c); reflexivity.
Qed.

Lemma build_record_lookup (g : string -> string) (values : list string)
    (cols : list string) :
  forall (j : nat) (acc : DbRecord) (c : string),
    (forall k col, cols !! k = Some col -> field values (j + k) = g col) ->
    build_record cols j values acc !! c
    = if bool_decide (c ∈ cols) then Some (g c) else acc !! c.
Proof.
  induction cols as [|col rest IH]; intros j acc c Hfield.
  - cbn [build_record]. rewrite bool_decide_eq_false_2 by apply not_elem_of_nil.
    reflexivity.
  - cbn [build_record]. rewrite IH.
    2:{ intros k col' Hk. replace (S j + k)%nat with (j + S k)%nat by lia.
        apply Hfield. exact Hk. }
    change (match values !! j with Some v => v | None => EmptyString end)
      with (field values j).
    assert (Hj : field values j = g col).
    { replace j with (j + 0)%nat at 1 by lia. apply Hfield. reflexivity. }
    destruct (bool_decide_reflect (c ∈ rest)) as [Hin|Hnin].
    + rewrite bool_decide_eq_true_2 by (apply elem_of_cons; auto). reflexivity.
    + unfold setValue. destruct (decide (c = col)) as [->|Hne].
      * rewrite lookup_insert_eq, Hj.
        rewrite bool_decide_eq_true_2 by (apply elem_of_cons; auto). reflexivity.
      * rewrite lookup_insert_ne by congruence.
        rewrite bool_decide_eq_false_2; [reflexivity|].
        intros Hin. apply elem_of_cons in Hin as [?|?]; contradiction.
Qed.

Lemma written_values_plain (names : list string) (r : DbRecord) :
  plain_record names r ->
  forallb (fun v => no_outer_space v && free_of ("|" +:+ nl) v)
          (map (written_value r) names) = true.
Proof.
  intros [Hdom Hval]. apply forallb_forall. intros v Hv.
  apply in_map_iff in Hv as (c & <- & Hc). apply list_elem_of_In in Hc.
  apply Hdom in Hc as [w Hw]. unfold written_value. rewrite Hw. simpl.
  exact (Hval c w Hw).
Qed.

(** The record line: free of line breaks and of outer white space, and
    read back as the record that was written. *)
Lemma record_line (cols : list Column) (r : DbRecord) :
  plain_record (map col_name cols) r ->
  let line := join "|" (record_values cols r) in
  free_of nl line = true
  /\ no_outer_space line = true
  /\ build_record (map col_name cols) 0 (Utility.split line "|") ∅ = r.
Proof.
  intros Hr. cbv zeta. rewrite record_values_written.
  pose proof (written_values_plain _ _ Hr) as Hplain.
  set (names := map col_name cols) in *.
  split; [|split].
  - apply free_of_join; [reflexivity|].
    apply forallb_forall. intros v Hv. rewrite forallb_forall in Hplain.
    apply Hplain in Hv. apply andb_true_iff in Hv as [_ Hv].
    revert Hv. apply free_of_sub. intros ch E. mem_cases E.
  - apply no_outer_space_join; [reflexivity|].
    apply forallb_forall. intros v Hv. rewrite forallb_forall in Hplain.
    apply Hplain in Hv. apply andb_true_iff in Hv as [Hv _]. exact Hv.
  - apply map_eq. intros c.
    rewrite (build_record_lookup (written_value r)).
    + destruct Hr as [Hdom _].
      destruct (bool_decide_reflect (c ∈ names)) as [Hin|Hnin].
      * apply Hdom in Hin as [w Hw]. unfold written_value. rewrite Hw. reflexivity.
      * rewrite lookup_empty. destruct (r !! c) eqn:E; [|reflexivity].
        exfalso. apply Hnin, Hdom. eauto.
    + intros k col Hk. simpl.
      rewrite (split_join_field ("|" +:+ nl) "|") by (reflexivity || exact Hplain).
      unfold field. change (map (written_value r) names) with (written_value r <$> names).
      rewrite list_lookup_fmap, Hk. reflexivity.
Qed.

Lemma write_records_cons (cols : list Column) (r : DbRecord) (rs : list DbRecord)
    (rest : string) :
  write_records cols (r :: rs) +:+ rest
  = join "|" (record_values cols r) +:+ String newline (write_records cols rs +:+ rest).
Proof.
  cbn [write_records]. unfold write_record. rewrite !append_assoc. reflexivity.
Qed.

(** Reading the record lines of a frame rebuilds the record sequence. *)
Lemma read_records_written (cols : list Column) (tableName : string) (s : Schema)
    (rest : string) (rs : list DbRecord) :
  forall pre,
    Forall (plain_record (map col_name cols)) rs ->
    (forall a r b, rs = a ++ r :: b ->
       check_constraints (constraints s) r (pre ++ a) = None) ->
    read_records (length rs) (map col_name cols)
      (write_records cols rs +:+ rest) (mkTable tableName s pre)
    = (rest, mkTable tableName s (pre ++ rs)).
Proof.
  induction rs as [|r rs IH]; intros pre Hplain Hchk.
  - simpl. rewrite app_nil_r. reflexivity.
  - inversion Hplain as [|? ? Hr Hrs]; subst.
    destruct (record_line cols r Hr) as (Hfree & Hnos & Hbuild).
    cbn [length read_records]. rewrite write_records_cons.
    rewrite getline_line by exact Hfree.
    rewrite trim_id by exact Hnos. rewrite Hbuild.
    assert (Hins : insertRecord r (mkTable tableName s pre)
                   = (true, mkTable tableName s (pre ++ [r]))).
    { unfold insertRecord, insert_check. simpl.
      specialize (Hchk [] r rs eq_refl). rewrite app_nil_r in Hchk.
      rewrite Hchk. reflexivity. }
    rewrite Hins. cbn [snd]. rewrite IH.
    + rewrite <- app_assoc. reflexivity.
    + exact Hrs.
    + intros a r0 b ->. rewrite <- app_assoc. apply (Hchk (r :: a) r0 b). reflexivity.
Qed.

(** ** Database.cpp: a frame is read back as the table it was written from *)

Lemma write_table_lines (tableName : string) (t : Table) (rest : string) :
  write_table tableName t +:+ rest
  = ("TABLE:" +:+ tableName) +:+ String newline
    (("COLUMNS:" +:+ join "," (map col_name (columns (schema t)))) +:+ String newline
    (("CONSTRAINTS:" +:+ write_constraints (constraints (schema t)) true)
       +:+ String newline
    (("RECORDS:" +:+ Num.to_decimal (N.of_nat (length (records t))))
       +:+ String newline
    (write_records (columns (schema t)) (records t)
       +:+ ("END_TABLE" +:+ String newline rest))))).
Proof.
  unfold write_table, nl. rewrite !append_assoc. reflexivity.
Qed.

Lemma header_line (tag payload : string) :
  free_of nl tag = true -> no_outer_space tag = true -> Str.empty tag = false ->
  free_of nl payload = true -> no_outer_space payload = true ->
  free_of (String newline EmptyString) (tag +:+ payload) = true
  /\ Utility.trim (tag +:+ payload) = tag +:+ payload
  /\ Str.empty (tag +:+ payload) = false
  /\ Str.starts_with tag (tag +:+ payload) = true
  /\ Utility.trim (Str.substr_from (tag +:+ payload) (Str.size tag)) = payload.
Proof.
  intros Ht1 Ht2 Ht3 Hp1 Hp2. split; [|split; [|split; [|split]]].
  - change (String newline EmptyString) with nl. rewrite free_of_append, Ht1, Hp1.
    reflexivity.
  - apply trim_id. apply no_outer_space_append; assumption.
  - rewrite empty_append, Ht3. reflexivity.
  - apply starts_with_append.
  - rewrite substr_from_append. apply trim_id. exact Hp2.
Qed.

Lemma load_frame (fuel : nat) (tableName : string) (t : Table) (rest : string)
    (acc : Tables) :
  plain_table tableName t ->
  load_loop (S fuel) (write_table tableName t +:+ rest) acc
  = load_loop fuel rest (addTable tableName (reloaded tableName t) acc).
Proof.
  intros (Hn1 & Hn2 & Hcols & Hcs & Hrs & Hreplay & Hlen).
  rewrite write_table_lines.
  set (names := map col_name (columns (schema t))) in *.
  destruct (header_line "TABLE:" tableName) as (A1 & A2 & A3 & A4 & A5);
    [reflexivity..|exact Hn2|exact Hn1|].
  destruct (header_line "COLUMNS:" (join "," names)) as (B1 & B2 & _ & B4 & B5);
    [reflexivity..| | |].
  { apply (plain_names_join_free ("," +:+ nl)); [|reflexivity|exact Hcols].
    intros ch E. mem_cases E. }
  { eapply plain_names_join_no_outer_space; eauto. }
  destruct (constraints_line (constraints (schema t))
              (mkSchema (map (fun n => Column_ n STRING) names) []) Hcs)
    as (Hc1 & Hc2 & Hc3).
  destruct (header_line "CONSTRAINTS:" (write_constraints (constraints (schema t)) true))
    as (C1 & C2 & _ & C4 & C5); [reflexivity..|exact Hc1|exact Hc2|].
  destruct (to_decimal_spec (N.of_nat (length (records t)))) as (_ & Hd & _).
  destruct (all_digits_plain _ Hd) as (Hd1 & Hd2).
  destruct (header_line "RECORDS:" (Num.to_decimal (N.of_nat (length (records t)))))
    as (D1 & D2 & _ & D4 & D5); [reflexivity..|exact Hd1|exact Hd2|].
  change (Str.size "TABLE:") with 6 in A5.
  change (Str.size "COLUMNS:") with 8 in B5.
  change (Str.size "CONSTRAINTS:") with 12 in C5.
  change (Str.size "RECORDS:") with 8 in D5.
  cbn [load_loop].
  rewrite getline_line by exact A1. cbv beta iota.
  rewrite A2, A3, A4, A5. cbn [negb]. cbv beta iota.
  rewrite getline_line by exact B1. cbv beta iota.
  rewrite B2, B4, B5. cbn [negb]. cbv beta iota.
  rewrite getline_line by exact C1. cbv beta iota.
  rewrite C2, C4, C5. cbn [negb]. cbv beta iota.
  rewrite getline_line by exact D1. cbv beta iota.
  rewrite D2, D4, D5. cbn [negb]. cbv beta iota.
  rewrite stoi_to_decimal by exact Hlen.
  rewrite (split_join ("," +:+ nl) ",") by (reflexivity || exact Hcols).
  rewrite fold_add_columns. cbn [columns constraints app].
  rewrite Hc3. cbn [columns constraints app].
  replace (Z.to_nat (Z.of_N (N.of_nat (length (records t)))))
    with (length (records t)) by lia.
  subst names.
  rewrite (read_records_written (columns (schema t)) tableName
             (mkSchema (map (fun n => Column_ n STRING)
                          (map col_name (columns (schema t))))
                       (constraints (schema t)))
             ("END_TABLE" +:+ String newline rest) (records t) []).
  - cbv beta iota.
    rewrite (getline_line newline "END_TABLE" rest) by reflexivity. cbv beta iota.
    change (Utility.trim "END_TABLE") with "END_TABLE".
    change (negb ("END_TABLE" =? "END_TABLE")%string) with false. cbv iota.
    unfold reloaded. rewrite map_map. reflexivity.
  - exact Hrs.
  - intros a r b E. simpl. exact (Hreplay a r b E).
Qed.

(** ** Database.cpp: flushing and loading a catalog *)

Lemma write_tables_length (l : list (string * Table)) :
  (length l <= String.length (write_tables l))%nat.
Proof.
  induction l as [|[n t] l IH]; [simpl; lia|].
  cbn [write_tables length]. rewrite length_append.
  assert (1 <= String.length (write_table n t))%nat
    by (unfold write_table; rewrite length_append; simpl; lia).
  lia.
Qed.

Lemma load_tables (l : list (string * Table)) :
  forall (fuel : nat) (acc : Tables),
    (length l < fuel)%nat ->
    Forall (fun e => plain_table (fst e) (snd e)) l ->
    load_loop fuel (write_tables l) acc = Some (LoadTrue, fold_left add_reloaded l acc).
Proof.
  induction l as [|[n t] l IH]; intros fuel acc Hfuel Hplain.
  - destruct fuel as [|fuel]; [simpl in Hfuel; lia|]. reflexivity.
  - destruct fuel as [|fuel]; [simpl in Hfuel; lia|].
    inversion Hplain as [|? ? Ht Hl]; subst. cbn [write_tables].
    rewrite load_frame by exact Ht. cbn [fold_left].
    apply IH; [simpl in Hfuel; lia|exact Hl].
Qed.

Lemma fold_add_reloaded_lookup (l : list (string * Table)) :
  forall (acc : Tables) (n : string),
    NoDup (map fst l) ->
    (forall t, (n, t) ∈ l -> fold_left add_reloaded l acc !! n = Some (reloaded n t))
    /\ (n ∉ map fst l -> fold_left add_reloaded l acc !! n = acc !! n).
Proof.
  induction l as [|[k t] l IH]; intros acc n Hnd.
  - split; [intros t Ht; inversion Ht|reflexivity].
  - cbn [map fst] in Hnd. apply NoDup_cons in Hnd as [Hk Hnd].
    cbn [fold_left]. destruct (IH (add_reloaded acc (k, t)) n Hnd) as [IH1 IH2].
    split.
    + intros t0 Hin. apply elem_of_cons in Hin as [[= -> ->]|Hin].
      * rewrite IH2 by exact Hk. unfold add_reloaded, addTable. simpl.
        apply lookup_insert_eq.
      * apply IH1. exact Hin.
    + intros Hnin. cbn [map fst] in Hnin. apply not_elem_of_cons in Hnin as [Hne Hnin].
      rewrite IH2 by exact Hnin. unfold add_reloaded, addTable. simpl.
      apply lookup_insert_ne. congruence.
Qed.

Lemma reload_catalog (tables : Tables) (visited : list (string * Table)) (n : string) :
  iteration_of tables visited ->
  fold_left add_reloaded visited ∅ !! n = reloaded n <$> tables !! n.
Proof.
  unfold iteration_of. intros Hperm.
  destruct (fold_add_reloaded_lookup visited ∅ n) as [H1 H2].
  { rewrite Hperm. apply NoDup_fst_map_to_list. }
  destruct (tables !! n) as [t|] eqn:E; simpl.
  - apply H1. rewrite Hperm. apply elem_of_map_to_list. exact E.
  - rewrite H2; [apply lookup_empty|].
    intros Hin. apply list_elem_of_fmap in Hin as ([k t] & Hk & Hin). simpl in Hk.
    subst k. rewrite Hperm in Hin. apply elem_of_map_to_list in Hin. congruence.
Qed.

Lemma iteration_plain (tables : Tables) (visited : list (string * Table)) :
  iteration_of tables visited -> plain_catalog tables ->
  Forall (fun e => plain_table (fst e) (snd e)) visited.
Proof.
  unfold iteration_of. intros Hperm Hplain. apply Forall_forall. intros [n t] Hin.
  rewrite Hperm in Hin. apply elem_of_map_to_list in Hin. apply Hplain. exact Hin.
Qed.

(** C4, as the code has it: for a catalog that the format can carry, loading
    with the same key the file that a flush wrote rebuilds the catalog: the
    same table names, each table with the same column names in the same
    order, the same constraints and the same records, in whatever order the
    flush visited the tables. *)
Theorem flush_load_roundtrip (tables old : Tables) (visited : list (string * Table))
    (filename key : string) (fs fs' : FileSystem) :
  key <> EmptyString ->
  plain_catalog tables ->
  iteration_of tables visited ->
  flushToFile filename key visited fs = Some (true, fs') ->
  exists tables',
    loadFromFile filename key old fs' = Some (LoadTrue, tables')
    /\ dom tables' = dom tables
    /\ (forall n, tables' !! n = reloaded n <$> tables !! n)
    /\ (forall n t, tables !! n = Some t ->
          exists t',
            tables' !! n = Some t'
            /\ name t' = n
            /\ map col_name (columns (schema t')) = map col_name (columns (schema t))
            /\ constraints (schema t') = constraints (schema t)
            /\ records t' = records t).
Proof.
  intros Hkey Hplain Hvisit Hflush.
  destruct (encrypt_then_decrypt (serialize visited) key Hkey) as [Henc Hdec].
  unfold flushToFile in Hflush. rewrite Henc in Hflush.
  destruct (negb (fs_writable fs filename)); [discriminate|].
  injection Hflush as <-.
  exists (fold_left add_reloaded visited ∅).
  assert (Hlookup : forall n,
            fold_left add_reloaded visited ∅ !! n = reloaded n <$> tables !! n)
    by (intros n; apply reload_catalog; exact Hvisit).
  split; [|split; [|split]].
  - unfold loadFromFile. cbn [fs_files]. rewrite lookup_insert_eq, Hdec.
    unfold serialize. rewrite load_tables; [reflexivity| |].
    + pose proof (write_tables_length visited). lia.
    + apply (iteration_plain tables); assumption.
  - apply set_eq. intros n. rewrite !elem_of_dom, Hlookup.
    destruct (tables !! n); simpl; split; intros [x Hx]; eauto; discriminate.
  - exact Hlookup.
  - intros n t Ht. exists (reloaded n t). rewrite Hlookup, Ht.
    split; [reflexivity|]. unfold reloaded. simpl. rewrite map_map.
    repeat split; reflexivity.
Qed.

(** Tests that establish the hypotheses of the round trip. *)
Lemma plain_record_intro (cols : list string) (r : DbRecord) :
  dom r = list_to_set cols ->
  map_Forall (fun _ v => plain_value v = true) r ->
  plain_record cols r.
Proof.
  intros Hdom Hval. split.
  - intros c. rewrite <- elem_of_dom, Hdom, elem_of_list_to_set. reflexivity.
  - intros c v Hc. exact (Hval c v Hc).
Qed.

Lemma replay_ok_sound (cs : list Constraint) (rs : list DbRecord) :
  forall pre, replay_ok cs pre rs = true ->
    forall a r b, rs = a ++ r :: b -> check_constraints cs r (pre ++ a) = None.
Proof.
  induction rs as [|r0 rs IH]; intros pre Hok a r b E.
  - destruct a; discriminate.
  - cbn [replay_ok] in Hok.
    destruct (check_constraints cs r0 pre) eqn:Hc; [discriminate|].
    destruct a as [|a0 a].
    + injection E as -> ->. rewrite app_nil_r. exact Hc.
    + injection E as -> ->. specialize (IH (pre ++ [a0]) Hok a r b eq_refl).
      rewrite <- app_assoc in IH. exact IH.
Qed.

Lemma replay_ok_replayable (cs : list Constraint) (rs : list DbRecord) :
  replay_ok cs [] rs = true -> replayable cs rs.
Proof. intros H a r b E. exact (replay_ok_sound cs rs [] H a r b E). Qed.

(** A table filled by [insertRecord] alone is replayable. *)
Lemma insertRecord_replayable (r : DbRecord) (t : Table) :
  replayable (constraints (schema t)) (records t) ->
  replayable (constraints (schema (snd (insertRecord r t))))
             (records (snd (insertRecord r t))).
Proof.
  intros Hrep. unfold insertRecord.
  destruct (insert_check r t) eqn:Hc; simpl; [exact Hrep|].
  intros a r0 b E. destruct b as [|x b _] using rev_ind.
  - apply app_inj_tail in E as [Ha Hr]. subst r0.
    unfold insert_check in Hc. rewrite Ha in Hc. exact Hc.
  - rewrite app_comm_cons, app_assoc in E. apply app_inj_tail in E as [E _].
    exact (Hrep a r0 b E).
Qed.

Lemma insert_all_replayable (tableName : string) (s : Schema) (inserts : list DbRecord) :
  replayable (constraints s)
             (records (insert_all (mkTable tableName s []) inserts)).
Proof.
  assert (H : forall t, replayable (constraints (schema t)) (records t) ->
            replayable (constraints (schema (insert_all t inserts)))
                       (records (insert_all t inserts))).
  { induction inserts as [|r rs IH]; intros t Ht; [exact Ht|].
    unfold insert_all in *. simpl. apply IH. apply insertRecord_replayable. exact Ht. }
  specialize (H (mkTable tableName s [])). rewrite insert_all_schema in H.
  apply H. intros a r b E. destruct a; discriminate.
Qed.

Lemma plain_table_intro (tableName : string) (t : Table) :
  no_outer_space tableName = true ->
  free_of nl tableName = true ->
  forallb (plain_name ("," +:+ nl)) (map col_name (columns (schema t))) = true ->
  forallb plain_constraint (constraints (schema t)) = true ->
  Forall (fun r => dom r = list_to_set (map col_name (columns (schema t)))
                   /\ map_Forall (fun _ v => plain_value v = true) r) (records t) ->
  replay_ok (constraints (schema t)) [] (records t) = true ->
  N.of_nat (length (records t)) < 2 ^ 31 ->
  plain_table tableName t.
Proof.
  intros H1 H2 H3 H4 H5 H6 H7. unfold plain_table.
  split; [exact H1|]. split; [exact H2|]. split; [exact H3|]. split; [exact H4|].
  split; [|split; [apply replay_ok_replayable; exact H6|exact H7]].
  eapply Forall_impl; [exact H5|]. intros r [Hd Hv].
  apply plain_record_intro; assumption.
Qed.

Lemma sample_catalog_plain : plain_catalog Sample.catalog.
Proof.
  intros n t. unfold Sample.catalog, addTable.
  destruct (decide (n = "orders")) as [->|Ho].
  - rewrite lookup_insert_eq. intros [= <-].
    apply plain_table_intro; try (vm_compute; reflexivity). by_computation.
  - rewrite lookup_insert_ne by congruence.
    destruct (decide (n = "users")) as [->|Hu].
    + rewrite lookup_insert_eq. intros [= <-].
      apply plain_table_intro; try (vm_compute; reflexivity). by_computation.
    + rewrite lookup_insert_ne by congruence. rewrite lookup_empty. discriminate.
Qed.

Lemma sample_iterations :
  iteration_of Sample.catalog Sample.orders_first
  /\ iteration_of Sample.catalog Sample.users_first
  /\ iteration_of Sample.scenario Sample.scenario_entries
  /\ iteration_of Sample.notes_catalog Sample.notes_entries.
Proof.
  unfold iteration_of, Sample.catalog, Sample.scenario, Sample.notes_catalog, addTable.
  assert (H1 : Sample.scenario_entries ≡ₚ map_to_list (<["users" := Sample.users]> ∅)).
  { rewrite map_to_list_insert by apply lookup_empty.
    rewrite map_to_list_empty. reflexivity. }
  assert (H2 : Sample.orders_first
               ≡ₚ map_to_list (<["orders" := Sample.orders]> (<["users" := Sample.users]> ∅))).
  { rewrite map_to_list_insert by reflexivity. rewrite <- H1. reflexivity. }
  split; [exact H2|]. split; [|split; [exact H1|]].
  - rewrite <- H2. apply perm_swap.
  - rewrite map_to_list_insert by apply lookup_empty.
    rewrite map_to_list_empty. reflexivity.
Qed.

Lemma flush_load_roundtrip_witness :
  exists fs' tables',
    flushToFile "shop.db" "secret" Sample.users_first Sample.disk = Some (true, fs')
    /\ loadFromFile "shop.db" "secret" Sample.scenario fs' = Some (LoadTrue, tables')
    /\ dom tables' = dom Sample.catalog
    /\ (records <$> tables' !! "users") = Some [Sample.alice; Sample.carol].
Proof.
  eexists.
  destruct (flush_load_roundtrip Sample.catalog Sample.scenario Sample.users_first
              "shop.db" "secret" Sample.disk _ ltac:(discriminate) sample_catalog_plain
              (proj1 (proj2 sample_iterations)) ltac:(vm_compute; reflexivity))
    as (tables' & Hload & Hdom & Hlookup & _).
  exists tables'. split; [vm_compute; reflexivity|].
  split; [exact Hload|]. split; [exact Hdom|].
  rewrite Hlookup. vm_compute. reflexivity.
Defined.

(** C4 as stated fails: a value that contains the field separator is cut
    at the separator when the file is loaded. *)
Lemma roundtrip_counterexample :
  ~ (forall (tables old : Tables) (visited : list (string * Table))
            (filename key : string) (fs fs' : FileSystem),
       iteration_of tables visited ->
       key <> EmptyString ->
       flushToFile filename key visited fs = Some (true, fs') ->
       exists tables',
         loadFromFile filename key old fs' = Some (LoadTrue, tables')
         /\ forall n t, tables !! n = Some t ->
              exists t',
                tables' !! n = Some t'
                /\ map col_name (columns (schema t')) = map col_name (columns (schema t))
                /\ constraints (schema t') = constraints (schema t)
                /\ records t' = records t).
Proof.
  intros H.
  destruct (H Sample.notes_catalog ∅ Sample.notes_entries "notes.db" "k" Sample.disk
              (mkFileSystem
                 (<["notes.db" := xor_loop 0 (serialize Sample.notes_entries) "k"]> ∅)
                 (fun _ => true)))
    as (tables' & Hload & Hsame).
  - apply sample_iterations.
  - discriminate.
  - vm_compute. reflexivity.
  - assert (E : loadFromFile "notes.db" "k" ∅
                  (mkFileSystem
                     (<["notes.db" := xor_loop 0 (serialize Sample.notes_entries) "k"]> ∅)
                     (fun _ => true))
                = Some (LoadTrue,
                        addTable "notes"
                          (with_records Sample.notes [setValue "a" "x" ∅]) ∅))
      by (vm_compute; reflexivity).
    rewrite E in Hload. injection Hload as <-.
    destruct (Hsame "notes" Sample.notes) as (t' & Ht' & _ & _ & Hrec).
    + vm_compute. reflexivity.
    + unfold addTable in Ht'. rewrite lookup_insert_eq in Ht'. injection Ht' as <-.
      apply (f_equal (fmap (M:=list) (fun r : DbRecord => r !! "a"))) in Hrec.
      assert (E1 : (fun r : DbRecord => r !! "a")
                     <$> records (with_records Sample.notes [setValue "a" "x" ∅])
                   = [Some "x"]) by (vm_compute; reflexivity).
      assert (E2 : (fun r : DbRecord => r !! "a") <$> records Sample.notes
                   = [Some "x|y"]) by (vm_compute; reflexivity).
      rewrite E1, E2 in Hrec. discriminate.
Qed.

(** * Further properties of the engine *)

(** ** Utility.cpp: trim, split, removeApostrophe *)

Lemma all_space_append (a b : string) :
  all_space (a +:+ b) = all_space a && all_space b.
Proof.
  induction a as [|c a IH]; [reflexivity|]. simpl. rewrite IH, andb_assoc. reflexivity.
Qed.

Lemma find_first_not_of_all_space (s : string) :
  all_space s = true -> Str.find_first_not_of Utility.whitespace s = None.
Proof.
  induction s as [|c s IH]; [reflexivity|]. cbn [all_space Str.find_first_not_of].
  rewrite andb_true_iff. intros [Hc Hs]. rewrite Hc, (IH Hs). reflexivity.
Qed.

Lemma find_first_not_of_skip (pre x : string) :
  all_space pre = true ->
  Str.find_first_not_of Utility.whitespace (pre +:+ x)
  = N.add (Str.size pre) <$> Str.find_first_not_of Utility.whitespace x.
Proof.
  induction pre as [|c pre IH]; intros Hpre.
  - rewrite append_nil_l. destruct (Str.find_first_not_of _ x); reflexivity.
  - cbn [all_space] in Hpre. apply andb_true_iff in Hpre as [Hc Hpre].
    rewrite append_cons. cbn [Str.find_first_not_of]. rewrite Hc, (IH Hpre), size_cons.
    destruct (Str.find_first_not_of _ x); simpl; [f_equal; lia|reflexivity].
Qed.

Lemma find_last_not_of_all_space (s : string) :
  all_space s = true -> Str.find_last_not_of Utility.whitespace s = None.
Proof.
  induction s as [|c s IH]; [reflexivity|]. cbn [all_space Str.find_last_not_of].
  rewrite andb_true_iff. intros [Hc Hs]. rewrite (IH Hs), Hc. reflexivity.
Qed.

Lemma find_last_not_of_append (x post : string) :
  all_space post = true ->
  Str.find_last_not_of Utility.whitespace (x +:+ post)
  = Str.find_last_not_of Utility.whitespace x.
Proof.
  intros Hpost. induction x as [|c x IH].
  - rewrite append_nil_l. apply find_last_not_of_all_space. exact Hpost.
  - rewrite append_cons. cbn [Str.find_last_not_of]. rewrite IH. reflexivity.
Qed.

Lemma find_last_not_of_shift (pre x : string) (i : N) :
  Str.find_last_not_of Utility.whitespace x = Some i ->
  Str.find_last_not_of Utility.whitespace (pre +:+ x) = Some (Str.size pre + i).
Proof.
  intros Hx. induction pre as [|c pre IH].
  - rewrite append_nil_l, Hx. reflexivity.
  - rewrite append_cons. cbn [Str.find_last_not_of]. rewrite IH, size_cons.
    f_equal. lia.
Qed.

(** [trim] removes the white space around a core that has none at its
    ends. *)
Lemma trim_strip (pre core post : string) :
  all_space pre = true -> all_space post = true -> no_outer_space core = true ->
  Utility.trim (pre +:+ core +:+ post) = core.
Proof.
  intros Hpre Hpost Hcore. unfold Utility.trim.
  destruct core as [|c core].
  - rewrite append_nil_l, find_first_not_of_all_space; [reflexivity|].
    rewrite all_space_append, Hpre, Hpost. reflexivity.
  - unfold no_outer_space in Hcore. apply andb_true_iff in Hcore as [Hf Hb].
    apply negb_true_iff in Hf. apply negb_true_iff in Hb. cbn [Str.front] in Hf.
    rewrite find_first_not_of_skip by exact Hpre.
    rewrite append_cons. cbn [Str.find_first_not_of]. rewrite Hf.
    rewrite <- append_cons. cbn [fmap option_fmap option_map].
    rewrite (find_last_not_of_shift pre (String c core +:+ post)
               (N.of_nat (String.length (String c core) - 1))).
    2:{ rewrite find_last_not_of_append by exact Hpost.
        apply find_last_not_of_back; [discriminate|exact Hb]. }
    rewrite N.add_0_r. apply substr_middle.
    rewrite sub_exact by lia. unfold Str.size. simpl. lia.
Qed.

(** Every string is a core without outer white space, wrapped in white
    space. *)
Lemma space_core_space (s : string) :
  exists pre core post,
    s = pre +:+ core +:+ post
    /\ all_space pre = true /\ all_space post = true /\ no_outer_space core = true.
Proof.
  induction s as [|a s (pre & core & post & -> & Hpre & Hpost & Hcore)].
  - exists EmptyString, EmptyString, EmptyString. repeat split.
  - destruct (Str.mem a Utility.whitespace) eqn:Ha.
    + exists (String a pre), core, post. repeat split; auto.
      cbn [all_space]. rewrite Ha, Hpre. reflexivity.
    + destruct core as [|c core].
      * exists EmptyString, (String a EmptyString), (pre +:+ post).
        repeat split.
        -- rewrite all_space_append, Hpre, Hpost. reflexivity.
        -- unfold no_outer_space. cbn [Str.front Str.back]. rewrite Ha. reflexivity.
      * exists EmptyString, (String a (pre +:+ String c core)), post.
        split.
        { rewrite append_nil_l.
          change (String a (pre +:+ String c core) +:+ post)
            with (String a ((pre +:+ String c core) +:+ post)).
          rewrite append_assoc. reflexivity. }
        repeat split; auto.
        unfold no_outer_space in *. cbn [Str.front]. rewrite Ha. cbn [negb andb].
        rewrite back_cons, empty_append. cbn [Str.empty].
        rewrite andb_false_r, back_append. cbn [Str.empty].
        apply andb_true_iff in Hcore as [_ Hb]. exact Hb.
Qed.

(** X1: [trim] cuts a string down to its part between the first and the
    last character that is not white space: the string is white space, the
    trimmed text, white space, and the trimmed text has no white space at
    its ends; in particular trimming twice is trimming once. *)
Theorem trim_spec (s : string) :
  (exists pre post,
     s = pre +:+ Utility.trim s +:+ post
     /\ all_space pre = true /\ all_space post = true)
  /\ no_outer_space (Utility.trim s) = true
  /\ Utility.trim (Utility.trim s) = Utility.trim s
  /\ (all_space s = true -> Utility.trim s = EmptyString).
Proof.
  destruct (space_core_space s) as (pre & core & post & -> & Hpre & Hpost & Hcore).
  rewrite trim_strip by assumption.
  split; [exists pre, post; auto|]. split; [exact Hcore|].
  split; [apply trim_id; exact Hcore|].
  intros Hall. rewrite !all_space_append in Hall.
  apply andb_true_iff in Hall as [_ Hall]. apply andb_true_iff in Hall as [Hall _].
  destruct core as [|c core]; [reflexivity|].
  unfold no_outer_space in Hcore. cbn [Str.front all_space] in *.
  apply andb_true_iff in Hall as [Hc _]. rewrite Hc in Hcore. discriminate.
Qed.

Lemma trim_spec_witness : Utility.trim "   " = EmptyString.
Proof. apply (trim_spec "   "). reflexivity. Defined.

Lemma getlines_free (d : ascii) (s : string) :
  Forall (fun tok => free_of (String d EmptyString) tok = true) (Str.getlines d s).
Proof.
  induction s as [|a s IH]; cbn [Str.getlines]; [constructor|].
  destruct (Ascii.eqb a d) eqn:Ha.
  - constructor; [reflexivity|exact IH].
  - destruct (Str.getlines d s) as [|l ls].
    + repeat constructor. cbn [free_of Str.mem]. rewrite Ascii.eqb_sym, Ha. reflexivity.
    + inversion IH as [|? ? Hl Hls]; subst. constructor; [|exact Hls].
      cbn [free_of Str.mem]. rewrite Ascii.eqb_sym, Ha. exact Hl.
Qed.

Lemma getlines_nonempty (d : ascii) (s : string) :
  s <> EmptyString -> Str.getlines d s <> [].
Proof.
  destruct s as [|a s]; [contradiction|]. intros _. cbn [Str.getlines].
  destruct (Ascii.eqb a d); [discriminate|].
  destruct (Str.getlines d s); discriminate.
Qed.

Lemma getlines_count (d : ascii) (s : string) :
  length (Str.getlines d s)
  = (count_char d s
     + (if Str.empty s || Ascii.eqb (Str.back s) d then 0 else 1))%nat.
Proof.
  induction s as [|a s IH]; [reflexivity|].
  cbn [Str.getlines count_char Str.empty orb]. rewrite back_cons.
  destruct s as [|b s].
  - cbn [Str.getlines Str.empty count_char]. destruct (Ascii.eqb a d); reflexivity.
  - change (Str.empty (String b s)) with false in *. cbn [orb] in IH. cbv iota.
    destruct (Ascii.eqb a d).
    + cbn [length]. rewrite IH. lia.
    + pose proof (getlines_nonempty d (String b s) ltac:(discriminate)) as Hne.
      destruct (Str.getlines d (String b s)) as [|l ls]; [contradiction|].
      cbn [length] in *. rewrite IH. lia.
Qed.

(** X2: [split] never returns a token that contains the delimiter or that
    has white space at an end; the empty string has no token, and otherwise
    there is one token per delimiter, plus one for the text after the last
    delimiter when there is such text. *)
Theorem split_tokens (s : string) (d : ascii) :
  Forall (fun tok => no_outer_space tok = true
                     /\ free_of (String d EmptyString) tok = true)
         (Utility.split s d)
  /\ length (Utility.split s d)
     = (count_char d s
        + (if Str.empty s || Ascii.eqb (Str.back s) d then 0 else 1))%nat.
Proof.
  unfold Utility.split. split.
  - pose proof (getlines_free d s) as H. induction H as [|tok l Htok Hl IH];
      cbn [map]; constructor; [|exact IH].
    destruct (space_core_space tok) as (pre & core & post & -> & Hpre & Hpost & Hcore).
    rewrite trim_strip by assumption. split; [exact Hcore|].
    rewrite !free_of_append in Htok. apply andb_true_iff in Htok as [_ Htok].
    apply andb_true_iff in Htok as [Htok _]. exact Htok.
  - rewrite length_map. apply getlines_count.
Qed.

Lemma back_snoc (a : string) (c : ascii) : Str.back (a +:+ String c EmptyString) = c.
Proof. rewrite back_append. reflexivity. Qed.

Lemma removeApostrophe_quoted (x : string) :
  Utility.removeApostrophe ("'" +:+ x +:+ "'") = x.
Proof.
  unfold Utility.removeApostrophe.
  change (Str.empty ("'" +:+ x +:+ "'")) with false.
  change (Str.front ("'" +:+ x +:+ "'")) with "'"%char.
  replace (Str.back ("'" +:+ x +:+ "'")) with "'"%char
    by (rewrite <- (append_assoc "'" x "'"); symmetry; apply back_snoc).
  rewrite !Ascii.eqb_refl. cbn [negb andb]. cbv iota.
  apply (substr_payload "'" x "'"); [reflexivity|].
  rewrite !size_append. change (Str.size "'") with 1. rewrite sub_exact by lia. lia.
Qed.

(** X3: [removeApostrophe] takes one pair of enclosing quotes off, whatever
    is between them, and leaves alone a string that does not both start and
    end with a quote. *)
Theorem removeApostrophe_spec (x : string) :
  Utility.removeApostrophe ("'" +:+ x +:+ "'") = x
  /\ (Str.front x <> "'"%char \/ Str.back x <> "'"%char ->
      Utility.removeApostrophe x = x).
Proof.
  split; [apply removeApostrophe_quoted|].
  unfold Utility.removeApostrophe. intros [H|H].
  - apply Ascii.eqb_neq in H. rewrite H, andb_false_r. reflexivity.
  - apply Ascii.eqb_neq in H. rewrite H, andb_false_r. reflexivity.
Qed.

Lemma removeApostrophe_spec_witness : Utility.removeApostrophe "it's" = "it's".
Proof. apply (removeApostrophe_spec "it's"). left. discriminate. Defined.

(** ** Conditions: [column = literal] *)

Lemma all_space_free (s : string) (c : ascii) :
  all_space s = true -> Str.mem c Utility.whitespace = false ->
  free_of (String c EmptyString) s = true.
Proof.
  intros Hs Hc. induction s as [|a s IH]; [reflexivity|].
  cbn [all_space] in Hs. apply andb_true_iff in Hs as [Ha Hs].
  cbn [free_of Str.mem]. rewrite orb_false_r.
  destruct (Ascii.eqb_spec c a) as [->|_]; [congruence|]. simpl. auto.
Qed.

Lemma no_outer_space_edges (a mid b : string) :
  a <> EmptyString -> b <> EmptyString ->
  no_outer_space a = true -> no_outer_space b = true ->
  no_outer_space (a +:+ mid +:+ b) = true.
Proof.
  intros Ha Hb Hna Hnb. destruct a as [|x a]; [contradiction|].
  destruct b as [|y b]; [contradiction|].
  unfold no_outer_space in *. rewrite append_cons.
  apply andb_true_iff in Hna as [Hf _]. apply andb_true_iff in Hnb as [_ Hl].
  cbn [Str.front] in *. rewrite Hf. cbn [andb]. rewrite <- append_cons.
  rewrite !back_append. change (Str.empty (String y b)) with false.
  rewrite empty_append, andb_false_r. exact Hl.
Qed.

(** The parse of a condition written with any white space around its
    three parts. *)
Lemma spaced_condition_clause (sp1 col sp2 sp3 lit sp4 : string) :
  all_space sp1 = true -> all_space sp2 = true ->
  all_space sp3 = true -> all_space sp4 = true ->
  plain_name "=" col = true -> lit <> EmptyString -> no_outer_space lit = true ->
  Utility.trim (spaced_condition sp1 col sp2 sp3 lit sp4)
    = col +:+ sp2 +:+ "=" +:+ sp3 +:+ lit
  /\ Str.find_char "=" (col +:+ sp2 +:+ "=" +:+ sp3 +:+ lit) = Some (Str.size (col +:+ sp2))
  /\ equality_clause (spaced_condition sp1 col sp2 sp3 lit sp4) = Some (col, lit).
Proof.
  intros H1 H2 H3 H4 Hcol Hlit Hnl.
  apply plain_name_parts in Hcol as (Hc1 & Hc2 & Hc3).
  assert (Htrim : Utility.trim (spaced_condition sp1 col sp2 sp3 lit sp4)
                  = col +:+ sp2 +:+ "=" +:+ sp3 +:+ lit).
  { unfold spaced_condition.
    replace (sp1 +:+ col +:+ sp2 +:+ "=" +:+ sp3 +:+ lit +:+ sp4)
      with (sp1 +:+ (col +:+ sp2 +:+ "=" +:+ sp3 +:+ lit) +:+ sp4)
      by (rewrite !append_assoc; reflexivity).
    apply trim_strip; [exact H1|exact H4|].
    replace (col +:+ sp2 +:+ "=" +:+ sp3 +:+ lit)
      with (col +:+ (sp2 +:+ "=" +:+ sp3) +:+ lit)
      by (rewrite !append_assoc; reflexivity).
    apply no_outer_space_edges; assumption. }
  assert (Hfind : Str.find_char "=" (col +:+ sp2 +:+ "=" +:+ sp3 +:+ lit)
                  = Some (Str.size (col +:+ sp2))).
  { rewrite <- (append_assoc col sp2).
    change ("=" +:+ sp3 +:+ lit) with (String "="%char (sp3 +:+ lit)).
    apply find_char_append. rewrite free_of_append, Hc3.
    rewrite (all_space_free sp2 "=") by (exact H2 || reflexivity). reflexivity. }
  split; [exact Htrim|]. split; [exact Hfind|].
  unfold equality_clause. rewrite Htrim, Hfind. f_equal. f_equal.
  - rewrite <- (append_assoc col sp2), substr_prefix.
    rewrite <- (append_nil_l (col +:+ sp2)). apply trim_strip; auto.
  - replace (col +:+ sp2 +:+ "=" +:+ sp3 +:+ lit)
      with ((col +:+ sp2 +:+ "=") +:+ sp3 +:+ lit)
      by (rewrite !append_assoc; reflexivity).
    replace (Str.size (col +:+ sp2) + 1) with (Str.size (col +:+ sp2 +:+ "="))
      by (rewrite !size_append; change (Str.size "=") with 1; lia).
    rewrite substr_from_append.
    rewrite <- (append_nil_r lit) at 1. apply trim_strip; auto.
Qed.

(** Two conditions with the same column and literal are the same condition
    to [updateRecord] and to [deleteRecord]. *)
Lemma updateRecord_same_clause (newRecord : DbRecord) (c1 c2 : string) (t : Table) :
  Utility.trim c1 <> EmptyString -> Utility.trim c1 <> "all" ->
  Utility.trim c2 <> EmptyString -> Utility.trim c2 <> "all" ->
  equality_clause c1 = equality_clause c2 ->
  updateRecord newRecord c1 t = updateRecord newRecord c2 t.
Proof.
  intros Hn1 Ha1 Hn2 Ha2. unfold updateRecord, equality_clause.
  apply empty_false_iff in Hn1. apply empty_false_iff in Hn2. rewrite Hn1, Hn2.
  destruct (String.eqb_spec (Utility.trim c1) "all"); [contradiction|].
  destruct (String.eqb_spec (Utility.trim c2) "all"); [contradiction|].
  cbn [orb].
  destruct (Str.find_char "=" (Utility.trim c1)),
           (Str.find_char "=" (Utility.trim c2)); try discriminate; [|reflexivity].
  intros [= -> ->]. reflexivity.
Qed.

Lemma deleteRecord_same_clause (c1 c2 : string) (t : Table) :
  Utility.trim c1 <> "all" -> Utility.trim c2 <> "all" ->
  equality_clause c1 = equality_clause c2 ->
  deleteRecord c1 t = deleteRecord c2 t.
Proof.
  intros Ha1 Ha2. unfold deleteRecord, equality_clause.
  destruct (String.eqb_spec (Utility.trim c1) "all"); [contradiction|].
  destruct (String.eqb_spec (Utility.trim c2) "all"); [contradiction|].
  destruct (Str.find_char "=" (Utility.trim c1)),
           (Str.find_char "=" (Utility.trim c2)); try discriminate; [|reflexivity].
  intros [= -> ->]. reflexivity.
Qed.

(** X4: the white space around the column, the equals sign and the literal
    of a condition does not matter to [updateRecord] and [deleteRecord]:
    each returns, for the condition with any such white space, what it
    returns for [col=lit] written without any, and acts on the records that
    hold the literal in the column (for [deleteRecord] with its enclosing
    quotes removed). *)
Theorem condition_spacing (sp1 col sp2 sp3 lit sp4 : string) (newRecord : DbRecord)
    (t : Table) :
  all_space sp1 = true -> all_space sp2 = true ->
  all_space sp3 = true -> all_space sp4 = true ->
  plain_name "=" col = true -> lit <> EmptyString -> no_outer_space lit = true ->
  updateRecord newRecord (spaced_condition sp1 col sp2 sp3 lit sp4) t
  = updateRecord newRecord (col +:+ "=" +:+ lit) t
  /\ deleteRecord (spaced_condition sp1 col sp2 sp3 lit sp4) t
     = deleteRecord (col +:+ "=" +:+ lit) t
  /\ records (snd (updateRecord newRecord (spaced_condition sp1 col sp2 sp3 lit sp4) t))
     = map (fun r => if bool_decide (r !! col = Some lit)
                     then apply_patch newRecord r else r) (records t)
  /\ records (snd (deleteRecord (spaced_condition sp1 col sp2 sp3 lit sp4) t))
     = List.filter
         (fun r => negb (bool_decide (r !! col = Some (Utility.removeApostrophe lit))))
         (records t)
  /\ equality_clause (spaced_condition sp1 col sp2 sp3 lit sp4) = Some (col, lit)
  /\ Utility.trim (spaced_condition sp1 col sp2 sp3 lit sp4) <> EmptyString
  /\ Utility.trim (spaced_condition sp1 col sp2 sp3 lit sp4) <> "all".
Proof.
  intros H1 H2 H3 H4 Hcol Hlit Hnl.
  assert (Hparse : forall a b c d,
            all_space a = true -> all_space b = true ->
            all_space c = true -> all_space d = true ->
            equality_clause (spaced_condition a col b c lit d) = Some (col, lit)
            /\ Utility.trim (spaced_condition a col b c lit d) <> EmptyString
            /\ Utility.trim (spaced_condition a col b c lit d) <> "all").
  { intros a b c d Ha Hb Hc Hd.
    destruct (spaced_condition_clause a col b c lit d) as (Ht & Hf & Hcl); auto.
    split; [exact Hcl|]. rewrite Ht.
    split; intros E; rewrite E in Hf; discriminate. }
  destruct (Hparse sp1 sp2 sp3 sp4 H1 H2 H3 H4) as (Hc & Hne & Hall).
  destruct (Hparse EmptyString EmptyString EmptyString EmptyString
              eq_refl eq_refl eq_refl eq_refl) as (Hc0 & Hne0 & Hall0).
  assert (E0 : spaced_condition EmptyString col EmptyString EmptyString lit EmptyString
               = col +:+ "=" +:+ lit).
  { unfold spaced_condition. rewrite !append_nil_l, append_nil_r. reflexivity. }
  rewrite E0 in Hc0, Hne0, Hall0.
  split; [apply updateRecord_same_clause; congruence|].
  split; [apply deleteRecord_same_clause; congruence|].
  split; [apply updateRecord_clause; assumption|].
  split; [rewrite (deleteRecord_clause _ _ _ _ Hall Hc); reflexivity|].
  auto.
Qed.

Lemma condition_spacing_witness :
  updateRecord Sample.patch "  name =   Alice " Sample.users
  = updateRecord Sample.patch "name=Alice" Sample.users
  /\ deleteRecord "  name =   Alice " Sample.users = deleteRecord "name=Alice" Sample.users
  /\ records (snd (deleteRecord "  name =   Alice " Sample.users)) = [Sample.carol].
Proof.
  pose proof (condition_spacing "  " "name" " " "   " "Alice" " " Sample.patch
                Sample.users eq_refl eq_refl eq_refl eq_refl eq_refl
                ltac:(discriminate) eq_refl) as (Hu & Hd & _ & Hr & _).
  split; [exact Hu|]. split; [exact Hd|].
  etransitivity; [exact Hr|]. vm_compute. reflexivity.
Defined.

Lemma equality_clause_Some (condition col val : string) :
  equality_clause condition = Some (col, val) ->
  Utility.trim condition <> EmptyString /\ Utility.trim condition <> "all".
Proof.
  unfold equality_clause. intros H. split; intros E; rewrite E in H; discriminate.
Qed.

Lemma evaluateCondition_clause (r : DbRecord) (condition col val : string) :
  equality_clause condition = Some (col, val) ->
  evaluateCondition r condition = bool_decide (r !! col = Some (Utility.removeApostrophe val)).
Proof.
  intros Hc. destruct (equality_clause_Some _ _ _ Hc) as [Hne _].
  unfold evaluateCondition. unfold equality_clause in Hc.
  apply empty_false_iff in Hne. rewrite Hne.
  destruct (Str.find_char "=" (Utility.trim condition)) as [pos|]; [|discriminate].
  injection Hc as <- <-. cbv zeta.
  change (match getValue ?c r with Some v => String.eqb v ?x | None => false end)
    with (delete_pred c x r).
  apply delete_pred_spec.
Qed.

(** X5: the filter of [select]: the empty condition shows every record, a
    condition without an equals sign (also [all]) shows none, and an
    equality condition shows the records whose value for the column is the
    literal without its quotes, which are exactly the records that
    [deleteRecord] removes for the same condition. *)
Theorem evaluateCondition_spec (condition : string) (t : Table) :
  (Utility.trim condition = EmptyString ->
     forall r, evaluateCondition r condition = true)
  /\ (Utility.trim condition <> EmptyString -> equality_clause condition = None ->
        forall r, evaluateCondition r condition = false)
  /\ (forall col val, equality_clause condition = Some (col, val) ->
        (forall r, evaluateCondition r condition
                   = bool_decide (r !! col = Some (Utility.removeApostrophe val)))
        /\ records (snd (deleteRecord condition t))
           = List.filter (fun r => negb (evaluateCondition r condition)) (records t)).
Proof.
  split; [|split].
  - intros E r. unfold evaluateCondition. rewrite E. reflexivity.
  - intros Hne Hc r. unfold evaluateCondition. unfold equality_clause in Hc.
    apply empty_false_iff in Hne. rewrite Hne.
    destruct (Str.find_char "=" (Utility.trim condition)); [discriminate|reflexivity].
  - intros col val Hc. split; [intros r; apply evaluateCondition_clause; exact Hc|].
    destruct (equality_clause_Some _ _ _ Hc) as [_ Hall].
    rewrite (deleteRecord_clause _ _ _ _ Hall Hc). cbn [snd records with_records].
    apply List.filter_ext. intros r.
    rewrite (evaluateCondition_clause r _ _ _ Hc). reflexivity.
Qed.

Lemma evaluateCondition_spec_witness :
  (forall r, evaluateCondition r "  " = true)
  /\ (forall r, evaluateCondition r "all" = false)
  /\ records (snd (deleteRecord "name = 'Alice'" Sample.users))
     = List.filter (fun r => negb (evaluateCondition r "name = 'Alice'"))
         (records Sample.users).
Proof.
  split; [|split].
  - apply (proj1 (evaluateCondition_spec "  " Sample.users)). reflexivity.
  - apply (proj1 (proj2 (evaluateCondition_spec "all" Sample.users))).
    + discriminate.
    + reflexivity.
  - apply (proj2 (proj2 (evaluateCondition_spec "name = 'Alice'" Sample.users))
             "name" "'Alice'").
    vm_compute. reflexivity.
Defined.

(** X6: a condition with a quoted literal ['v'], for any text [v] between
    the quotes and any spacing: [select] and [deleteRecord] take the records
    whose value is [v], while [updateRecord] takes the records whose value
    is ['v'] with the quotes. *)
Theorem quoted_literal (sp1 col sp2 sp3 v sp4 : string) (newRecord : DbRecord)
    (t : Table) :
  all_space sp1 = true -> all_space sp2 = true ->
  all_space sp3 = true -> all_space sp4 = true ->
  plain_name "=" col = true ->
  let condition := spaced_condition sp1 col sp2 sp3 ("'" +:+ v +:+ "'") sp4 in
  (forall r, evaluateCondition r condition = bool_decide (r !! col = Some v))
  /\ records (snd (deleteRecord condition t))
     = List.filter (fun r => negb (bool_decide (r !! col = Some v))) (records t)
  /\ records (snd (updateRecord newRecord condition t))
     = map (fun r => if bool_decide (r !! col = Some ("'" +:+ v +:+ "'"))
                     then apply_patch newRecord r else r) (records t).
Proof.
  intros H1 H2 H3 H4 Hcol condition.
  assert (Hq1 : "'" +:+ v +:+ "'" <> EmptyString)
    by (change ("'" +:+ v +:+ "'") with (String "'"%char (v +:+ "'")); discriminate).
  assert (Hq2 : no_outer_space ("'" +:+ v +:+ "'") = true).
  { change ("'" +:+ v +:+ "'") with (String "'"%char (v +:+ "'")).
    unfold no_outer_space. cbn [Str.front].
    change (String "'"%char (v +:+ "'")) with ("'" +:+ v +:+ "'").
    rewrite <- (append_assoc "'" v "'"), back_snoc. reflexivity. }
  destruct (spaced_condition_clause sp1 col sp2 sp3 ("'" +:+ v +:+ "'") sp4
              H1 H2 H3 H4 Hcol Hq1 Hq2) as (_ & _ & Hc).
  fold condition in Hc. destruct (equality_clause_Some _ _ _ Hc) as [Hne Hall].
  split; [|split].
  - intros r. rewrite (evaluateCondition_clause r _ _ _ Hc), removeApostrophe_quoted.
    reflexivity.
  - rewrite (deleteRecord_clause _ _ _ _ Hall Hc). cbn [snd records with_records].
    rewrite removeApostrophe_quoted. reflexivity.
  - apply updateRecord_clause; assumption.
Qed.

Lemma quoted_literal_witness :
  records (snd (deleteRecord "name = 'Alice'" Sample.users))
  = List.filter (fun r => negb (bool_decide (r !! "name" = Some "Alice")))
      (records Sample.users).
Proof.
  apply (quoted_literal "" "name" " " " " "Alice" "" Sample.patch Sample.users);
    reflexivity.
Defined.

(** ** Table.cpp: dropColumn *)

Lemma Schema_hasColumn_spec (c : string) (s : Schema) :
  Schema_hasColumn c s = true <-> c ∈ map col_name (columns s).
Proof.
  unfold Schema_hasColumn. rewrite existsb_exists. split.
  - intros (col & Hin & E). apply String.eqb_eq in E. subst c.
    apply list_elem_of_In, in_map. exact Hin.
  - intros Hin. apply list_elem_of_In, in_map_iff in Hin as (col & E & Hin).
    exists col. split; [exact Hin|]. apply String.eqb_eq. exact E.
Qed.

Lemma dropColumn_ok (c : string) (t : Table) :
  Schema_hasColumn c (schema t) = true ->
  dropColumn c t
  = (true,
     mkTable (name t)
       (mkSchema (List.filter (fun col => negb (String.eqb (col_name col) c))
                    (columns (schema t)))
                 (constraints (schema t)))
       (map (fun record : DbRecord => delete c record) (records t))).
Proof.
  intros H. unfold dropColumn. rewrite H. cbn [negb]. rewrite erase_remove_if_filter.
  reflexivity.
Qed.

Lemma hasColumn_after_drop (c : string) (cols : list Column) :
  existsb (fun col => String.eqb (col_name col) c)
    (List.filter (fun col => negb (String.eqb (col_name col) c)) cols) = false.
Proof.
  induction cols as [|col cols IH]; [reflexivity|]. cbn [List.filter].
  destruct (String.eqb (col_name col) c) eqn:E; cbn [negb]; [exact IH|].
  cbn [existsb]. rewrite E, IH. reflexivity.
Qed.

(** X7: [dropColumn] refuses a column that the schema does not have and
    changes nothing then.  Otherwise it removes every column of that name
    from the schema, keeping the order of the others, and removes the value
    for it from every record; the other values, the number and order of the
    records, the name and the constraints stay, and dropping the same column
    again is refused. *)
Theorem dropColumn_spec (c : string) (t : Table) :
  ((c ∉ map col_name (columns (schema t))) -> dropColumn c t = (false, t))
  /\ (c ∈ map col_name (columns (schema t)) ->
      fst (dropColumn c t) = true
      /\ name (snd (dropColumn c t)) = name t
      /\ constraints (schema (snd (dropColumn c t))) = constraints (schema t)
      /\ columns (schema (snd (dropColumn c t)))
         = List.filter (fun col => negb (String.eqb (col_name col) c))
             (columns (schema t))
      /\ (c ∉ map col_name (columns (schema (snd (dropColumn c t)))))
      /\ length (records (snd (dropColumn c t))) = length (records t)
      /\ (forall i r, records t !! i = Some r ->
            exists r', records (snd (dropColumn c t)) !! i = Some r'
                       /\ r' !! c = None
                       /\ forall c', c' <> c -> r' !! c' = r !! c')
      /\ dropColumn c (snd (dropColumn c t)) = (false, snd (dropColumn c t))).
Proof.
  split.
  - intros Hnin. unfold dropColumn.
    destruct (Schema_hasColumn c (schema t)) eqn:E; [|reflexivity].
    apply Schema_hasColumn_spec in E. contradiction.
  - intros Hin. apply Schema_hasColumn_spec in Hin.
    rewrite (dropColumn_ok c t Hin). cbn [fst snd name schema constraints columns records].
    assert (Hgone : Schema_hasColumn c
               (mkSchema (List.filter (fun col => negb (String.eqb (col_name col) c))
                            (columns (schema t)))
                         (constraints (schema t))) = false)
      by apply hasColumn_after_drop.
    repeat split.
    + intros Hc.
      pose proof (proj2 (Schema_hasColumn_spec c
                    (mkSchema (List.filter (fun col => negb (String.eqb (col_name col) c))
                                 (columns (schema t)))
                              (constraints (schema t)))) Hc) as Hc'.
      congruence.
    + apply length_map.
    + intros i r Hi. exists (delete c r).
      change (map (fun record : DbRecord => delete c record) (records t))
        with ((fun record : DbRecord => delete c record) <$> records t).
      rewrite list_lookup_fmap, Hi. split; [reflexivity|].
      split; [apply lookup_delete_eq|]. intros c' Hne. apply lookup_delete_ne. congruence.
    + unfold dropColumn at 1. cbn [schema]. rewrite Hgone. reflexivity.
Qed.

Lemma dropColumn_spec_witness :
  dropColumn "salary" Sample.users = (false, Sample.users)
  /\ columns (schema (snd (dropColumn "age" Sample.users)))
     = [Column_ "id" INTEGER; Column_ "name" STRING].
Proof.
  split.
  - apply (proj1 (dropColumn_spec "salary" Sample.users)). by_computation.
  - destruct (proj2 (dropColumn_spec "age" Sample.users)) as (_ & _ & _ & H & _).
    + by_computation.
    + rewrite H. vm_compute. reflexivity.
Defined.

Lemma gather_new_missing (pk : bool) (K : list string) (r : DbRecord) (c : string) :
  c ∈ K -> r !! c = None -> exists e, gather_new pk K r = inl e.
Proof.
  intros Hc Hr. destruct (gather_new pk K r) as [e|vs] eqn:E; [eauto|].
  apply gather_new_inr in E.
  destruct (gather_existing_same K r r vs E E c Hc) as [[v Hv] _]. congruence.
Qed.

Lemma has_duplicate_missing (K vs : list string) (rs : list DbRecord) (c : string) :
  c ∈ K -> (forall r, r ∈ rs -> r !! c = None) -> has_duplicate K vs rs = false.
Proof.
  intros Hc Hrs. destruct (has_duplicate K vs rs) eqn:E; [|reflexivity].
  apply has_duplicate_true in E as (x & Hx & Hg).
  destruct (gather_existing_same K x x vs Hg Hg c Hc) as [[v Hv] _].
  rewrite (Hrs x Hx) in Hv. discriminate.
Qed.

(** X8: [dropColumn] does not touch the constraints.  After a column of a
    primary key is dropped, the key stays in the schema, no stored record
    carries the column, so no stored record can conflict with a new one on
    that key, and every record that lacks the column is rejected by
    [insertRecord]. *)
Theorem dropColumn_of_key (c : string) (K : list string) (t : Table) :
  c ∈ map col_name (columns (schema t)) ->
  PrimaryKeyConstraint K ∈ constraints (schema t) ->
  c ∈ K ->
  PrimaryKeyConstraint K ∈ constraints (schema (snd (dropColumn c t)))
  /\ (forall r, r ∈ records (snd (dropColumn c t)) -> r !! c = None)
  /\ (forall vs, has_duplicate K vs (records (snd (dropColumn c t))) = false)
  /\ (forall r, r !! c = None ->
        insertRecord r (snd (dropColumn c t)) = (false, snd (dropColumn c t))).
Proof.
  intros Hin HK Hc. apply Schema_hasColumn_spec in Hin.
  rewrite (dropColumn_ok c t Hin). cbn [snd schema constraints records].
  assert (Hnone : forall r, r ∈ map (fun record : DbRecord => delete c record) (records t)
                            -> r !! c = None).
  { intros r Hr. apply list_elem_of_In, in_map_iff in Hr as (r0 & <- & _).
    apply lookup_delete_eq. }
  split; [exact HK|]. split; [exact Hnone|].
  split; [intros vs; eapply has_duplicate_missing; eauto|].
  intros r Hr. unfold insertRecord, insert_check. cbn [schema constraints records].
  destruct (check_constraints (constraints (schema t)) r
              (map (fun record : DbRecord => delete c record) (records t))) eqn:E;
    [reflexivity|].
  apply (check_constraints_None_pk _ K) in E; [|exact HK].
  unfold check_key in E. destruct (gather_new_missing true K r c Hc Hr) as [e He].
  rewrite He in E. discriminate.
Qed.

Lemma dropColumn_of_key_witness :
  insertRecord Sample.patch (snd (dropColumn "id" Sample.users))
  = (false, snd (dropColumn "id" Sample.users)).
Proof.
  apply (dropColumn_of_key "id" ["id"] Sample.users).
  - by_computation.
  - vm_compute. apply list_elem_of_here.
  - by_computation.
  - vm_compute. reflexivity.
Defined.

(** ** Table.cpp: what insertRecord keeps for every key *)

Lemma check_constraints_None_key (pk : bool) (cs : list Constraint) (K : list string)
    (r : DbRecord) (rs : list DbRecord) :
  key_constraint pk K ∈ cs -> check_constraints cs r rs = None ->
  check_key pk K r rs = None.
Proof.
  induction cs as [|c cs IH]; intros Hin; [inversion Hin|]. cbn [check_constraints].
  apply elem_of_cons in Hin as [<-|Hin].
  - destruct pk; cbn [key_constraint].
    + destruct (check_key true K r rs); [discriminate|reflexivity].
    + destruct (check_key false K r rs); [discriminate|reflexivity].
  - destruct c as [K'|K'|K' ref refK].
    + destruct (check_key true K' r rs); [discriminate|auto].
    + destruct (check_key false K' r rs); [discriminate|auto].
    + auto.
Qed.

Lemma insertRecord_key_invariant (pk : bool) (K : list string) (r : DbRecord)
    (t : Table) :
  key_constraint pk K ∈ constraints (schema t) ->
  key_invariant pk K (records t) ->
  key_invariant pk K (records (snd (insertRecord r t))).
Proof.
  intros HK [Hall Hnd]. unfold insertRecord.
  destruct (insert_check r t) eqn:Hc; simpl; [split; assumption|].
  unfold insert_check in Hc.
  apply (check_constraints_None_key pk _ K) in Hc; [|exact HK].
  apply check_key_None in Hc as (vs & Hvs & Hfresh & Hempty).
  split.
  - apply Forall_app. split; [exact Hall|]. constructor; [|constructor]. eauto.
  - rewrite map_app. simpl. apply NoDup_app. split; [exact Hnd|]. split.
    + intros k Hk Hk'. apply list_elem_of_singleton in Hk'. subst k.
      apply list_elem_of_fmap in Hk as (x & Hx1 & Hx2).
      apply (Hfresh x Hx2). congruence.
    + apply NoDup_singleton.
Qed.

Lemma insert_all_key_invariant (pk : bool) (K : list string) (rs : list DbRecord)
    (t : Table) :
  key_constraint pk K ∈ constraints (schema t) ->
  key_invariant pk K (records t) ->
  key_invariant pk K (records (insert_all t rs)).
Proof.
  revert t. induction rs as [|r rs IH]; intros t HK Hinv; simpl; [exact Hinv|].
  unfold insert_all in *. simpl. apply IH.
  - unfold insertRecord. destruct (insert_check r t); exact HK.
  - apply insertRecord_key_invariant; assumption.
Qed.

Lemma key_invariant_nil (pk : bool) (K : list string) : key_invariant pk K [].
Proof. split; [constructor|]. simpl. apply NoDup_nil_2. Qed.

(** X9: in a table with a unique constraint on [K], filled from the empty
    record sequence by any sequence of [insertRecord] calls, every record
    has a value for each column of [K] and no two records agree on every
    column of [K]. *)
Theorem unique_constraint_unique (tableName : string) (s : Schema) (K : list string)
    (inserts : list DbRecord) (i j : nat) (ri rj : DbRecord) :
  UniqueConstraint K ∈ constraints s ->
  i <> j ->
  records (insert_all (mkTable tableName s []) inserts) !! i = Some ri ->
  records (insert_all (mkTable tableName s []) inserts) !! j = Some rj ->
  (forall col, col ∈ K -> is_Some (ri !! col))
  /\ ~ (forall col, col ∈ K -> ri !! col = rj !! col).
Proof.
  intros HK Hij Hi Hj.
  destruct (insert_all_key_invariant false K inserts (mkTable tableName s []) HK
              (key_invariant_nil false K)) as [Hall Hnd].
  assert (Hsi : exists vs, gather_existing K ri = Some vs
                           /\ (false = true -> EmptyString ∉ vs)).
  { rewrite Forall_forall in Hall. apply Hall. eapply list_elem_of_lookup_2; eauto. }
  destruct Hsi as (vs & Hvs & _). split.
  - intros col Hcol. exact (proj1 (gather_existing_same K ri ri vs Hvs Hvs col Hcol)).
  - intros Heq. pose proof (gather_existing_agree K ri rj vs Hvs Heq) as Hvs'.
    apply Hij. eapply NoDup_lookup; [exact Hnd| |].
    + change (map (gather_existing K)) with (fmap (M:=list) (gather_existing K)).
      rewrite list_lookup_fmap, Hi. simpl. rewrite Hvs. reflexivity.
    + change (map (gather_existing K)) with (fmap (M:=list) (gather_existing K)).
      rewrite list_lookup_fmap, Hj. simpl. rewrite Hvs'. reflexivity.
Qed.

Lemma unique_constraint_unique_witness :
  (forall col, col ∈ ["oid"; "uid"] -> is_Some (Sample.order1 !! col))
  /\ ~ (forall col, col ∈ ["oid"; "uid"] ->
          Sample.order1 !! col = setValue "uid" "2" Sample.order1 !! col).
Proof.
  apply (unique_constraint_unique "orders"
           (mkSchema [Column_ "oid" INTEGER; Column_ "uid" INTEGER]
                     [UniqueConstraint ["oid"; "uid"]])
           ["oid"; "uid"]
           [Sample.order1; Sample.order1; setValue "uid" "2" Sample.order1] 0 1).
  - apply list_elem_of_here.
  - lia.
  - vm_compute. reflexivity.
  - vm_compute. reflexivity.
Defined.

Lemma gather_existing_lookup (K : list string) (r : DbRecord) (vs : list string)
    (col : string) :
  gather_existing K r = Some vs -> col ∈ K ->
  exists v, r !! col = Some v /\ v ∈ vs.
Proof.
  revert vs. induction K as [|k K IH]; intros vs Hg Hcol; [inversion Hcol|].
  apply gather_existing_Some in Hg. destruct vs as [|v vs]; [discriminate|].
  simpl in Hg. injection Hg as Hk HK. apply gather_existing_Some in HK.
  apply elem_of_cons in Hcol as [->|Hcol].
  - exists v. split; [exact Hk|apply list_elem_of_here].
  - destruct (IH vs HK Hcol) as (w & Hw & Hin). exists w.
    split; [exact Hw|apply list_elem_of_further; exact Hin].
Qed.

(** X10: in a table with a primary key on [K], filled from the empty record
    sequence by [insertRecord] calls, every record has a non-empty value for
    each column of [K]; the values of the key pass
    [PrimaryKeyConstraint::validate]. *)
Theorem primary_key_values (tableName : string) (s : Schema) (K : list string)
    (inserts : list DbRecord) (r : DbRecord) :
  PrimaryKeyConstraint K ∈ constraints s ->
  r ∈ records (insert_all (mkTable tableName s []) inserts) ->
  (forall col, col ∈ K -> exists v, r !! col = Some v /\ v <> EmptyString)
  /\ exists vs, gather_existing K r = Some vs
                /\ validate (PrimaryKeyConstraint K) vs = true.
Proof.
  intros HK Hr.
  destruct (insert_all_key_invariant true K inserts (mkTable tableName s []) HK
              (key_invariant_nil true K)) as [Hall _].
  rewrite Forall_forall in Hall. destruct (Hall r Hr) as (vs & Hvs & Hne).
  specialize (Hne eq_refl). split.
  - intros col Hcol. destruct (gather_existing_lookup K r vs col Hvs Hcol) as (v & Hv & Hin).
    exists v. split; [exact Hv|]. intros ->. contradiction.
  - exists vs. split; [exact Hvs|]. cbn [validate]. unfold PrimaryKeyConstraint_validate.
    apply forallb_forall. intros v Hv. apply list_elem_of_In in Hv.
    destruct v; [contradiction|reflexivity].
Qed.

Lemma primary_key_values_witness :
  exists v, Sample.carol !! "id" = Some v /\ v <> EmptyString.
Proof.
  apply (proj1 (primary_key_values "users" Sample.users_schema ["id"]
                  [Sample.alice; Sample.patch; Sample.carol] Sample.carol
                  ltac:(vm_compute; apply list_elem_of_here)
                  ltac:(vm_compute; apply list_elem_of_further, list_elem_of_here))
               "id").
  apply list_elem_of_here.
Defined.

(** ** Constraint.cpp: validate *)

Lemma adjacent_equal_sorted (l : list string) :
  StronglySorted String.le l -> (adjacent_equal l = false <-> NoDup l).
Proof.
  induction 1 as [|a l Hsorted IH Hall]; [split; [constructor|reflexivity]|].
  destruct l as [|b l].
  - split; [intros _; apply NoDup_singleton|reflexivity].
  - cbn [adjacent_equal]. rewrite orb_false_iff, IH, String.eqb_neq. split.
    + intros [Hne Hnd]. apply NoDup_cons. split; [|exact Hnd].
      intros Hin. apply elem_of_cons in Hin as [->|Hin]; [congruence|].
      apply Hne. apply (anti_symm String.le).
      * inversion Hsorted as [|? ? _ Hb]; subst. rewrite Forall_forall in Hb.
        apply Hb. exact Hin.
      * inversion Hall; subst. assumption.
    + intros Hnd. apply NoDup_cons in Hnd as [Hnin Hnd]. split; [|exact Hnd].
      intros ->. apply Hnin, list_elem_of_here.
Qed.

(** X11: what the three [validate] functions accept: the primary key a list
    without an empty value, the unique constraint a list without two equal
    values, the foreign key a list with as many values as it has columns. *)
Theorem validate_spec (c : Constraint) (values : list string) :
  validate c values = true <->
  match c with
  | PrimaryKeyConstraint _ => EmptyString ∉ values
  | UniqueConstraint _ => NoDup values
  | ForeignKeyConstraint columnNames _ _ => length values = length columnNames
  end.
Proof.
  destruct c as [K|K|K ref refK]; cbn [validate].
  - unfold PrimaryKeyConstraint_validate. rewrite forallb_forall. split.
    + intros H Hin. apply list_elem_of_In, H in Hin. discriminate.
    + intros H v Hv. destruct v; [|reflexivity].
      exfalso. apply H, list_elem_of_In. exact Hv.
  - unfold UniqueConstraint_validate, std_sort. rewrite negb_true_iff.
    rewrite adjacent_equal_sorted by (apply StronglySorted_merge_sort; apply _).
    rewrite merge_sort_Permutation. reflexivity.
  - unfold ForeignKeyConstraint_validate. apply Nat.eqb_eq.
Qed.

(** ** Table.cpp: foreign keys and insertRecord *)

Lemma check_constraints_without (p : Constraint -> bool) (cs : list Constraint)
    (r : DbRecord) (rs : list DbRecord) :
  (forall c, p c = true -> is_foreign_key c = true) ->
  check_constraints (List.filter (fun c => negb (p c)) cs) r rs
  = check_constraints cs r rs.
Proof.
  intros Hp. induction cs as [|c cs IH]; [reflexivity|]. cbn [List.filter].
  destruct (p c) eqn:Hc; cbn [negb].
  - apply Hp in Hc. destruct c; try discriminate. cbn [check_constraints]. exact IH.
  - cbn [check_constraints]. rewrite IH. reflexivity.
Qed.

(** X12: [insertRecord] never enforces a foreign key: a table whose
    constraints are all foreign keys accepts every record, and in general
    the foreign keys of a schema have no effect on what is accepted. *)
Theorem foreign_keys_not_enforced (r : DbRecord) (t : Table) :
  insert_check r t
  = check_constraints
      (List.filter (fun c => negb (is_foreign_key c)) (constraints (schema t)))
      r (records t)
  /\ (forallb is_foreign_key (constraints (schema t)) = true ->
      insertRecord r t = (true, with_records t (records t ++ [r]))).
Proof.
  split.
  - unfold insert_check. symmetry. apply check_constraints_without. auto.
  - intros Hall. unfold insertRecord, insert_check.
    rewrite <- (check_constraints_without is_foreign_key) by auto.
    replace (List.filter (fun c => negb (is_foreign_key c)) (constraints (schema t)))
      with (@nil Constraint); [reflexivity|].
    induction (constraints (schema t)) as [|c cs IH]; [reflexivity|].
    cbn [forallb] in Hall. apply andb_true_iff in Hall as [Hc Hcs].
    cbn [List.filter]. rewrite Hc. cbn [negb]. auto.
Qed.

Lemma foreign_keys_not_enforced_witness :
  insertRecord Sample.order1
    (mkTable "lines" (mkSchema [] [ForeignKeyConstraint ["oid"] "nowhere" ["id"]])
       [Sample.order1])
  = (true,
     mkTable "lines" (mkSchema [] [ForeignKeyConstraint ["oid"] "nowhere" ["id"]])
       [Sample.order1; Sample.order1]).
Proof.
  apply (proj2 (foreign_keys_not_enforced Sample.order1
                  (mkTable "lines"
                     (mkSchema [] [ForeignKeyConstraint ["oid"] "nowhere" ["id"]])
                     [Sample.order1]))).
  reflexivity.
Defined.

(** X13: the cleanup of [dropTable] does not change what the other tables
    accept: after the drop, [insertRecord] on a remaining table gives the
    same answer and the same record sequence as before the drop. *)
Theorem dropTable_keeps_inserts (tables : Tables) (A B : string) (tA t : Table)
    (r : DbRecord) :
  tables !! A = Some tA -> tables !! B = Some t -> B <> A ->
  exists t',
    snd (dropTable A tables) !! B = Some t'
    /\ fst (insertRecord r t') = fst (insertRecord r t)
    /\ records (snd (insertRecord r t')) = records (snd (insertRecord r t)).
Proof.
  intros HA HB Hne. unfold dropTable, getTable. rewrite HA. cbn [snd].
  exists (strip_foreign_keys A t).
  rewrite lookup_delete_ne by congruence. rewrite lookup_fmap, HB.
  split; [reflexivity|].
  assert (Hchk : insert_check r (strip_foreign_keys A t) = insert_check r t).
  { unfold insert_check, strip_foreign_keys. cbn [schema constraints records with_schema].
    rewrite erase_remove_if_filter. apply check_constraints_without.
    intros c Hc. destruct c; try discriminate. reflexivity. }
  unfold insertRecord. rewrite Hchk. destruct (insert_check r t); split; reflexivity.
Qed.

Lemma dropTable_keeps_inserts_witness :
  exists t',
    snd (dropTable "users" Sample.catalog) !! "orders" = Some t'
    /\ fst (insertRecord Sample.order1 t') = fst (insertRecord Sample.order1 Sample.orders)
    /\ records (snd (insertRecord Sample.order1 t'))
       = records (snd (insertRecord Sample.order1 Sample.orders)).
Proof.
  apply (dropTable_keeps_inserts Sample.catalog "users" "orders" Sample.users).
  - vm_compute. reflexivity.
  - vm_compute. reflexivity.
  - discriminate.
Defined.

(** ** Table.cpp: more on updateRecord and deleteRecord *)

(** The loop of [setValue] calls overwrites the record with the new values. *)
Lemma apply_patch_union (newRecord r : DbRecord) : apply_patch newRecord r = newRecord ∪ r.
Proof.
  unfold apply_patch, setValue.
  induction newRecord as [|k v m Hk IH] using map_ind.
  - rewrite map_fold_empty, (left_id_L ∅ (∪)). reflexivity.
  - rewrite map_fold_insert_L; [|intros; apply insert_insert_ne; congruence|exact Hk].
    rewrite IH. apply insert_union_l.
Qed.

Lemma apply_patch_lookup (newRecord r : DbRecord) (c : string) :
  apply_patch newRecord r !! c
  = match newRecord !! c with Some v => Some v | None => r !! c end.
Proof.
  rewrite apply_patch_union, lookup_union.
  destruct (newRecord !! c), (r !! c); reflexivity.
Qed.

Lemma updateRecord_all (newRecord : DbRecord) (condition : string) (t : Table) :
  Utility.trim condition = EmptyString \/ Utility.trim condition = "all" ->
  updateRecord newRecord condition t
  = (true, with_records t (map (apply_patch newRecord) (records t))).
Proof. intros [E|E]; unfold updateRecord; rewrite E; reflexivity. Qed.

(** X14: [updateRecord] keeps the name, the schema, and the number and order
    of the records, whatever the condition; a record is either left as it
    was or gets the new values on top of its own ones.  With the empty
    condition or [all] it returns [true] and patches every record, also when
    there is none. *)
Theorem updateRecord_frame (newRecord : DbRecord) (condition : string) (t : Table) :
  name (snd (updateRecord newRecord condition t)) = name t
  /\ schema (snd (updateRecord newRecord condition t)) = schema t
  /\ length (records (snd (updateRecord newRecord condition t))) = length (records t)
  /\ (forall i r, records t !! i = Some r ->
        records (snd (updateRecord newRecord condition t)) !! i = Some r
        \/ (exists r', records (snd (updateRecord newRecord condition t)) !! i = Some r'
                       /\ forall c, r' !! c = match newRecord !! c with
                                              | Some v => Some v
                                              | None => r !! c
                                              end))
  /\ (Utility.trim condition = EmptyString \/ Utility.trim condition = "all" ->
      fst (updateRecord newRecord condition t) = true
      /\ forall i r, records t !! i = Some r ->
           exists r', records (snd (updateRecord newRecord condition t)) !! i = Some r'
                      /\ forall c, r' !! c = match newRecord !! c with
                                             | Some v => Some v
                                             | None => r !! c
                                             end).
Proof.
  assert (Hall : Utility.trim condition = EmptyString \/ Utility.trim condition = "all" ->
            fst (updateRecord newRecord condition t) = true
            /\ forall i r, records t !! i = Some r ->
                 exists r', records (snd (updateRecord newRecord condition t)) !! i = Some r'
                            /\ forall c, r' !! c = match newRecord !! c with
                                                   | Some v => Some v
                                                   | None => r !! c
                                                   end).
  { intros H. rewrite (updateRecord_all _ _ _ H). cbn [fst snd records with_records].
    split; [reflexivity|]. intros i r Hi. exists (apply_patch newRecord r).
    change (map (apply_patch newRecord) (records t))
      with (apply_patch newRecord <$> records t).
    rewrite list_lookup_fmap, Hi. split; [reflexivity|]. apply apply_patch_lookup. }
  destruct (decide (Utility.trim condition = EmptyString)) as [E|Hne].
  { destruct (Hall (or_introl E)) as [_ Hrec].
    rewrite (updateRecord_all _ _ _ (or_introl E)) in *.
    cbn [snd name schema records with_records] in *.
    repeat split; [apply length_map| |]; intros; eauto. }
  destruct (decide (Utility.trim condition = "all")) as [E|Hnall].
  { destruct (Hall (or_intror E)) as [_ Hrec].
    rewrite (updateRecord_all _ _ _ (or_intror E)) in *.
    cbn [snd name schema records with_records] in *.
    repeat split; [apply length_map| |]; intros; eauto. }
  split; [|split; [|split; [|split]]]; [| | | |intros [?|?]; contradiction].
  - unfold updateRecord. destruct (Str.empty _ || _); [reflexivity|].
    destruct (Str.find_char _ _); [|reflexivity].
    destruct (update_loop _ _ _ _ _); reflexivity.
  - unfold updateRecord. destruct (Str.empty _ || _); [reflexivity|].
    destruct (Str.find_char _ _); [|reflexivity].
    destruct (update_loop _ _ _ _ _); reflexivity.
  - destruct (equality_clause condition) as [[col val]|] eqn:Hc.
    + rewrite (updateRecord_clause _ _ _ _ _ Hne Hnall Hc). apply length_map.
    + unfold updateRecord. unfold equality_clause in Hc.
      apply empty_false_iff in Hne. rewrite Hne.
      destruct (String.eqb_spec (Utility.trim condition) "all"); [contradiction|].
      cbn [orb]. destruct (Str.find_char _ _); [discriminate|reflexivity].
  - intros i r Hi. destruct (equality_clause condition) as [[col val]|] eqn:Hc.
    + rewrite (updateRecord_clause _ _ _ _ _ Hne Hnall Hc).
      change (map ?f (records t)) with (f <$> records t).
      rewrite list_lookup_fmap, Hi. cbn [fmap option_fmap option_map].
      destruct (bool_decide (r !! col = Some val)); [right|left; reflexivity].
      eexists. split; [reflexivity|]. apply apply_patch_lookup.
    + left. unfold updateRecord. unfold equality_clause in Hc.
      apply empty_false_iff in Hne. rewrite Hne.
      destruct (String.eqb_spec (Utility.trim condition) "all"); [contradiction|].
      cbn [orb]. destruct (Str.find_char _ _); [discriminate|exact Hi].
Qed.

Lemma updateRecord_frame_witness :
  fst (updateRecord Sample.patch " all " Sample.empty_users) = true
  /\ forall i r, records Sample.users !! i = Some r ->
       exists r', records (snd (updateRecord Sample.patch "" Sample.users)) !! i = Some r'
                  /\ forall c, r' !! c = match Sample.patch !! c with
                                         | Some v => Some v
                                         | None => r !! c
                                         end.
Proof.
  split.
  - apply (proj2 (proj2 (proj2 (proj2
             (updateRecord_frame Sample.patch " all " Sample.empty_users))))).
    right. reflexivity.
  - apply (proj2 (proj2 (proj2 (proj2
             (updateRecord_frame Sample.patch "" Sample.users))))).
    left. reflexivity.
Defined.

(** X15: [updateRecord] does not check any constraint: an update of every
    record that sets all the columns of [K] leaves all records equal on [K],
    primary key or not. *)
Theorem updateRecord_ignores_keys (newRecord : DbRecord) (condition : string)
    (K : list string) (t : Table) (ri rj : DbRecord) :
  Utility.trim condition = EmptyString \/ Utility.trim condition = "all" ->
  (forall c, c ∈ K -> is_Some (newRecord !! c)) ->
  ri ∈ records (snd (updateRecord newRecord condition t)) ->
  rj ∈ records (snd (updateRecord newRecord condition t)) ->
  schema (snd (updateRecord newRecord condition t)) = schema t
  /\ forall c, c ∈ K -> ri !! c = newRecord !! c /\ ri !! c = rj !! c.
Proof.
  intros Hcond HK. rewrite (updateRecord_all _ _ _ Hcond).
  cbn [snd records schema with_records]. intros Hi Hj. split; [reflexivity|].
  apply list_elem_of_In, in_map_iff in Hi as (r1 & <- & _).
  apply list_elem_of_In, in_map_iff in Hj as (r2 & <- & _).
  intros c Hc. rewrite !apply_patch_lookup. destruct (HK c Hc) as [v ->]. auto.
Qed.

Lemma updateRecord_ignores_keys_witness :
  setValue "id" "7" Sample.alice !! "id" = setValue "id" "7" ∅ !! "id"
  /\ setValue "id" "7" Sample.alice !! "id" = setValue "id" "7" Sample.carol !! "id".
Proof.
  assert (HK : forall c, c ∈ ["id"] -> is_Some (setValue "id" "7" ∅ !! c)).
  { intros c Hc. apply list_elem_of_singleton in Hc. subst c. vm_compute. eauto. }
  apply (proj2 (updateRecord_ignores_keys (setValue "id" "7" ∅) "all" ["id"]
                  Sample.users (setValue "id" "7" Sample.alice)
                  (setValue "id" "7" Sample.carol)
                  (or_intror eq_refl) HK
                  ltac:(vm_compute; apply list_elem_of_here)
                  ltac:(vm_compute; apply list_elem_of_further, list_elem_of_here))
               "id").
  apply list_elem_of_here.
Defined.

Lemma filter_idem {A : Type} (f : A -> bool) (l : list A) :
  List.filter f (List.filter f l) = List.filter f l.
Proof.
  apply filter_all_kept. intros x Hx.
  apply list_elem_of_In, List.filter_In in Hx. tauto.
Qed.

Lemma filter_nonempty {A : Type} (f : A -> bool) (l : list A) :
  (0 < length (List.filter f l))%nat <-> exists x, x ∈ l /\ f x = true.
Proof.
  split.
  - destruct (List.filter f l) as [|x k] eqn:E; [simpl; lia|]. intros _.
    assert (Hx : In x (List.filter f l)) by (rewrite E; left; reflexivity).
    apply List.filter_In in Hx as [Hx Hf]. exists x. split; [|exact Hf].
    apply list_elem_of_In. exact Hx.
  - intros (x & Hx & Hf).
    assert (Hin : In x (List.filter f l)).
    { apply List.filter_In. split; [apply list_elem_of_In; exact Hx|exact Hf]. }
    destruct (List.filter f l); [destruct Hin|simpl; lia].
Qed.

(** X16: for an equality condition, [deleteRecord] removes as many records
    as hold the literal (quotes stripped) in the column, returns [true]
    exactly when there is such a record, and a second call with the same
    condition finds nothing: it returns [false] and changes nothing. *)
Theorem deleteRecord_count (condition col val : string) (t : Table) :
  Utility.trim condition <> "all" ->
  equality_clause condition = Some (col, val) ->
  (length (records (snd (deleteRecord condition t)))
   + count_matching
       (fun r => bool_decide (r !! col = Some (Utility.removeApostrophe val)))
       (records t)
   = length (records t))%nat
  /\ (fst (deleteRecord condition t) = true <->
      exists r, r ∈ records t /\ r !! col = Some (Utility.removeApostrophe val))
  /\ deleteRecord condition (snd (deleteRecord condition t))
     = (false, snd (deleteRecord condition t)).
Proof.
  intros Hall Hclause.
  rewrite (deleteRecord_clause _ _ _ (snd _) Hall Hclause).
  rewrite (deleteRecord_clause _ _ _ t Hall Hclause).
  cbv zeta. cbn [fst snd records with_records name schema].
  set (p := fun r : DbRecord =>
              bool_decide (r !! col = Some (Utility.removeApostrophe val))).
  set (kept := List.filter _ (records t)).
  assert (Hlen : (length kept + count_matching p (records t)
                  = length (records t))%nat).
  { unfold kept, count_matching. rewrite Nat.add_comm.
    apply (List.filter_length p). }
  split; [exact Hlen|]. split.
  - rewrite Nat.ltb_lt.
    transitivity (0 < count_matching p (records t))%nat; [lia|].
    unfold count_matching. rewrite filter_nonempty.
    split; intros (r & Hr & Hp); exists r; (split; [exact Hr|]).
    + apply bool_decide_eq_true in Hp. exact Hp.
    + apply bool_decide_eq_true. exact Hp.
  - unfold kept. rewrite filter_idem, Nat.ltb_irrefl. reflexivity.
Qed.

Lemma deleteRecord_count_witness :
  (length (records (snd (deleteRecord "name = 'Alice'" Sample.users)))
   + count_matching (fun r => bool_decide (r !! "name" = Some "Alice"))
       (records Sample.users)
   = length (records Sample.users))%nat.
Proof.
  apply (deleteRecord_count "name = 'Alice'" "name" "'Alice'" Sample.users).
  - vm_compute. discriminate.
  - vm_compute. reflexivity.
Defined.

(** ** Table.cpp: when insertRecord accepts *)

Lemma gather_new_present (pk : bool) (K : list string) (r : DbRecord) :
  (forall col, col ∈ K -> exists v, r !! col = Some v /\ (pk = true -> v <> EmptyString)) ->
  exists vs, gather_new pk K r = inr vs.
Proof.
  induction K as [|c K IH]; intros H; [exists []; reflexivity|].
  destruct (H c) as (v & Hv & Hne); [apply elem_of_cons; auto|].
  destruct IH as (vs & Hvs); [intros col Hcol; apply H, elem_of_cons; auto|].
  exists (v :: vs). cbn [gather_new]. unfold hasColumn, getValue.
  rewrite Hv, Hvs. cbn [is_Some_dec negb default].
  destruct pk; [|reflexivity].
  destruct v; [destruct (Hne eq_refl eq_refl)|reflexivity].
Qed.

Lemma check_key_accepts (pk : bool) (K : list string) (r : DbRecord)
    (rs : list DbRecord) :
  (forall col, col ∈ K -> exists v, r !! col = Some v /\ (pk = true -> v <> EmptyString)) ->
  (forall x, x ∈ rs -> exists col, col ∈ K /\ x !! col <> r !! col) ->
  check_key pk K r rs = None.
Proof.
  intros Hpresent Hfresh. unfold check_key.
  destruct (gather_new_present pk K r Hpresent) as (vs & Hvs). rewrite Hvs.
  destruct (has_duplicate K vs rs) eqn:Hd; [|reflexivity].
  apply has_duplicate_true in Hd as (x & Hx & Hgx).
  destruct (Hfresh x Hx) as (col & Hcol & Hne).
  apply gather_new_inr in Hvs.
  destruct (gather_existing_same K x r vs Hgx Hvs col Hcol) as [_ E].
  contradiction.
Qed.

(** X17: [insertRecord] accepts a record that, for every primary-key and
    unique constraint of the schema, has a value for each column of the
    constraint (not the empty one for a primary key) and differs from every
    stored record in at least one of these columns; the record is then the
    last of the table.  Foreign keys ask for nothing. *)
Theorem insertRecord_accepts (record : DbRecord) (t : Table) :
  (forall c, c ∈ constraints (schema t) ->
     forall pk K, c = key_constraint pk K ->
       (forall col, col ∈ K ->
          exists v, record !! col = Some v /\ (pk = true -> v <> EmptyString))
       /\ (forall x, x ∈ records t -> exists col, col ∈ K /\ x !! col <> record !! col)) ->
  insertRecord record t = (true, with_records t (records t ++ [record])).
Proof.
  intros H. unfold insertRecord, insert_check.
  assert (E : check_constraints (constraints (schema t)) record (records t) = None);
    [|rewrite E; reflexivity].
  induction (constraints (schema t)) as [|c cs IH]; [reflexivity|].
  cbn [check_constraints].
  assert (Hc : forall pk K, c = key_constraint pk K ->
                 check_key pk K record (records t) = None).
  { intros pk K ->. destruct (H (key_constraint pk K)) with (pk := pk) (K := K)
      as [H1 H2]; [apply elem_of_cons; auto|reflexivity|].
    apply check_key_accepts; assumption. }
  assert (Hrest : check_constraints cs record (records t) = None).
  { apply IH. intros c' Hc'. apply H, elem_of_cons; auto. }
  destruct c as [K|K|K ref refK].
  - rewrite (Hc true K eq_refl). exact Hrest.
  - rewrite (Hc false K eq_refl). exact Hrest.
  - exact Hrest.
Qed.

Lemma insertRecord_accepts_witness :
  insertRecord Sample.carol (with_records Sample.empty_users [Sample.alice])
  = (true, Sample.users).
Proof.
  apply (insertRecord_accepts Sample.carol
           (with_records Sample.empty_users [Sample.alice])).
  intros c Hc pk K HK.
  assert (E : key_constraint pk K = PrimaryKeyConstraint ["id"]).
  { rewrite <- HK. revert Hc. vm_compute. intros Hc.
    apply list_elem_of_singleton in Hc. exact Hc. }
  destruct pk; [|discriminate]. injection E as ->. split.
  - intros col Hcol. apply list_elem_of_singleton in Hcol. subst col.
    exists "2". split; [vm_compute; reflexivity|]. intros _. discriminate.
  - intros x Hx. apply list_elem_of_singleton in Hx. subst x.
    exists "id". split; [apply list_elem_of_here|]. vm_compute. discriminate.
Defined.

(** ** Database.cpp: insert, update, remove and select *)




Lemma updateRecord_shape (newRecord : DbRecord) (condition : string) (t : Table) :
  name (snd (updateRecord newRecord condition t)) = name t
  /\ schema (snd (updateRecord newRecord condition t)) = schema t
  /\ length (records (snd (updateRecord newRecord condition t))) = length (records t).
Proof.
  unfold updateRecord. destruct (Str.empty _ || _).
  - cbn [snd name schema records with_records]. rewrite length_map. auto.
  - destruct (Str.find_char _ _); [|auto]. rewrite update_loop_spec.
    cbn [snd name schema records with_records]. rewrite length_map. auto.
Qed.

Lemma deleteRecord_shape (condition : string) (t : Table) :
  name (snd (deleteRecord condition t)) = name t
  /\ schema (snd (deleteRecord condition t)) = schema t
  /\ sublist (records (snd (deleteRecord condition t))) (records t).
Proof.
  unfold deleteRecord. destruct (String.eqb _ _).
  - cbn [snd name schema records with_records]. repeat split. apply sublist_nil_l.
  - destruct (Str.find_char _ _); [|repeat split; reflexivity].
    cbv zeta. cbn [snd name schema records with_records].
    rewrite erase_remove_if_filter. repeat split. apply filter_sublist.
Qed.

(** X19: [Database::update] and [Database::remove] fail on an unknown table
    and change nothing.  They never add or drop a table, never touch
    another table than the named one, and keep that table's name and
    schema; an update keeps the number of its records, a remove leaves a
    subsequence of them. *)
Theorem update_remove_frame (tableName : string)
    (assignments : list (string * string)) (condition : string) (tables : Tables) :
  (tables !! tableName = None ->
     update tableName assignments condition tables = (false, tables)
     /\ remove tableName condition tables = (false, tables))
  /\ dom (snd (update tableName assignments condition tables)) = dom tables
  /\ dom (snd (remove tableName condition tables)) = dom tables
  /\ (forall n t, tables !! n = Some t ->
        exists t1 t2,
          snd (update tableName assignments condition tables) !! n = Some t1
          /\ snd (remove tableName condition tables) !! n = Some t2
          /\ (n <> tableName -> t1 = t /\ t2 = t)
          /\ name t1 = name t /\ schema t1 = schema t
          /\ length (records t1) = length (records t)
          /\ name t2 = name t /\ schema t2 = schema t
          /\ sublist (records t2) (records t)).
Proof.
  unfold update, remove, getTable.
  destruct (tables !! tableName) as [t0|] eqn:Ht0.
  - set (newRecord := fold_left _ assignments ∅).
    pose proof (updateRecord_shape newRecord condition t0) as (U1 & U2 & U3).
    pose proof (deleteRecord_shape condition t0) as (D1 & D2 & D3).
    destruct (updateRecord newRecord condition t0) as [ok1 t1].
    destruct (deleteRecord condition t0) as [ok2 t2].
    cbn [fst snd] in *.
    split; [discriminate|].
    assert (Hdom : forall x : Table, dom (<[tableName := x]> tables) = dom tables).
    { intros x. apply dom_insert_lookup_L. eauto. }
    split; [apply Hdom|]. split; [apply Hdom|].
    intros n t Ht. destruct (decide (n = tableName)) as [->|Hne].
    + assert (t = t0) by congruence. subst t0.
      exists t1, t2. rewrite !lookup_insert_eq.
      repeat split; auto; contradiction.
    + exists t, t. rewrite !lookup_insert_ne by congruence.
      repeat split; auto.
  - cbn [fst snd]. repeat split; auto.
    intros n t Ht. exists t, t. repeat split; auto.
Qed.

Lemma update_remove_frame_witness :
  update "nowhere" [("age", "31")] "all" Sample.catalog = (false, Sample.catalog)
  /\ remove "nowhere" "all" Sample.catalog = (false, Sample.catalog).
Proof.
  apply (proj1 (update_remove_frame "nowhere" [("age", "31")] "all" Sample.catalog)).
  vm_compute. reflexivity.
Defined.

(** X20: [Database::select] fails on an unknown table.  On a known one it
    returns [true] and prints one row per selected record, in the order of
    the table: every record when the condition is empty or blank, the
    records that hold the literal (quotes stripped) in the column for an
    equality condition, and no record for any other condition. *)
Theorem select_spec (tableName : string) (cols : list string) (condition : string)
    (tables : Tables) :
  (tables !! tableName = None -> select tableName cols condition tables = (false, []))
  /\ (forall t, tables !! tableName = Some t ->
        fst (select tableName cols condition tables) = true
        /\ (Utility.trim condition = EmptyString ->
            snd (select tableName cols condition tables)
            = map (select_row cols) (records t))
        /\ (forall col val, equality_clause condition = Some (col, val) ->
              snd (select tableName cols condition tables)
              = map (select_row cols)
                  (List.filter
                     (fun r => bool_decide
                                 (r !! col = Some (Utility.removeApostrophe val)))
                     (records t)))
        /\ (Utility.trim condition <> EmptyString ->
            equality_clause condition = None ->
            snd (select tableName cols condition tables) = [])).
Proof.
  unfold select, getTable. split; [intros ->; reflexivity|].
  intros t ->. cbn [fst snd]. split; [reflexivity|]. split; [|split].
  - intros E. f_equal. apply filter_all_kept. intros r _.
    unfold evaluateCondition. rewrite E. cbn [Str.empty].
    destruct (Str.empty condition); reflexivity.
  - intros col val Hc. f_equal. apply List.filter_ext. intros r.
    rewrite (evaluateCondition_clause r _ _ _ Hc).
    destruct (equality_clause_Some _ _ _ Hc) as [Hne _].
    assert (Hcond : Str.empty condition = false).
    { destruct condition; [|reflexivity]. destruct Hne. reflexivity. }
    rewrite Hcond. cbn [negb andb]. apply negb_involutive.
  - intros Hne Hnone.
    assert (Hcond : Str.empty condition = false).
    { destruct condition; [|reflexivity]. destruct Hne. reflexivity. }
    rewrite Hcond. cbn [negb andb].
    assert (E : List.filter (fun r => negb (negb (evaluateCondition r condition)))
                  (records t) = []); [|rewrite E; reflexivity].
    induction (records t) as [|r rs IH]; [reflexivity|]. cbn [List.filter].
    assert (Hr : evaluateCondition r condition = false).
    { unfold evaluateCondition. unfold equality_clause in Hnone.
      apply empty_false_iff in Hne. rewrite Hne.
      destruct (Str.find_char _ _); [discriminate|reflexivity]. }
    rewrite Hr. exact IH.
Qed.

Lemma select_spec_witness :
  select "nowhere" ["*"] "" Sample.catalog = (false, [])
  /\ snd (select "users" ["name"; "email"; "id"] "name = 'Alice'" Sample.catalog)
     = [Cells [("name", "Alice"); ("id", "1")]].
Proof.
  split.
  - apply (proj1 (select_spec "nowhere" ["*"] "" Sample.catalog)).
    vm_compute. reflexivity.
  - pose proof (proj2 (select_spec "users" ["name"; "email"; "id"] "name = 'Alice'"
                         Sample.catalog) Sample.users ltac:(vm_compute; reflexivity))
      as (_ & _ & H & _).
    rewrite (H "name" "'Alice'" ltac:(vm_compute; reflexivity)).
    vm_compute. reflexivity.
Defined.

(** ** Database.cpp: more on the cipher *)

Lemma size_repeat_key (n : nat) (k : string) :
  Str.size (repeat_key n k) = N.of_nat (S n) * Str.size k.
Proof.
  induction n as [|n IH]; cbn [repeat_key]; [lia|].
  rewrite size_append, IH. lia.
Qed.

Lemma char_at_append_l (k s : string) (j : N) :
  j < Str.size k -> char_at (k +:+ s) j = char_at k j.
Proof.
  intros Hj. unfold char_at. rewrite <- String.append_correct1; [reflexivity|].
  unfold Str.size in Hj. lia.
Qed.

Lemma char_at_append_r (k s : string) (j : N) :
  char_at (k +:+ s) (Str.size k + j) = char_at s j.
Proof.
  unfold char_at, Str.size.
  replace (N.to_nat (N.of_nat (String.length k) + j))
    with (N.to_nat j + String.length k)%nat by lia.
  rewrite <- String.append_correct2. reflexivity.
Qed.

Lemma char_at_repeat_key (n : nat) (k : string) :
  forall j, j < N.of_nat (S n) * Str.size k ->
    char_at (repeat_key n k) j = char_at k (j mod Str.size k).
Proof.
  induction n as [|n IH]; intros j Hj; cbn [repeat_key].
  - rewrite N.mod_small by lia. reflexivity.
  - destruct (N.ltb_spec j (Str.size k)) as [Hlt|Hge].
    + rewrite char_at_append_l by exact Hlt. rewrite N.mod_small by exact Hlt.
      reflexivity.
    + replace j with (Str.size k + (j - Str.size k)) at 1 by lia.
      rewrite char_at_append_r, IH by lia. f_equal.
      replace j with ((j - Str.size k) + 1 * Str.size k) at 2 by lia.
      symmetry. apply N.Div0.mod_add.
Qed.

Lemma xor_loop_repeat_key (n : nat) (k : string) :
  k <> EmptyString ->
  forall data i, xor_loop i data (repeat_key n k) = xor_loop i data k.
Proof.
  intros Hk. assert (Hsize : 0 < Str.size k).
  { destruct k; [destruct Hk; reflexivity|]. unfold Str.size. simpl. lia. }
  induction data as [|c data IH]; intros i; [reflexivity|].
  cbn [xor_loop]. rewrite IH. f_equal. f_equal.
  rewrite char_at_repeat_key.
  - f_equal. rewrite size_repeat_key.
    rewrite (N.mul_comm (N.of_nat (S n))), N.Div0.mod_mul_r.
    rewrite (N.mul_comm (Str.size k)), N.Div0.mod_add. apply N.Div0.mod_mod.
  - rewrite <- size_repeat_key. apply N.mod_upper_bound.
    rewrite size_repeat_key. lia.
Qed.

Lemma empty_repeat_key (n : nat) (k : string) :
  Str.empty (repeat_key n k) = Str.empty k.
Proof.
  destruct k as [|c k]; [|destruct n; reflexivity].
  induction n as [|n IH]; [reflexivity|exact IH].
Qed.

(** X21: a key written several times in a row encrypts and decrypts as the
    key written once, so only the shortest period of a key counts: what was
    encrypted with [key] is decrypted by [key key], [key key key], ... *)
Theorem cipher_key_period (data key : string) (n : nat) :
  encryptData data (repeat_key n key) = encryptData data key
  /\ decryptData data (repeat_key n key) = decryptData data key
  /\ (key <> EmptyString ->
      exists c, encryptData data key = Some c
                /\ decryptData c (repeat_key n key) = Some data).
Proof.
  assert (H : forall d, decryptData d (repeat_key n key) = decryptData d key).
  { intros d. unfold decryptData. rewrite empty_repeat_key.
    destruct key as [|c key]; [destruct d; reflexivity|].
    cbn [Str.empty andb]. rewrite xor_loop_repeat_key by discriminate. reflexivity. }
  split; [exact (H data)|]. split; [exact (H data)|].
  intros Hk. destruct (encrypt_then_decrypt data key Hk) as [Henc Hdec].
  exists (xor_loop 0 data key). split; [exact Henc|]. rewrite H. exact Hdec.
Qed.

Lemma cipher_key_period_witness :
  exists c, encryptData "TABLE:users" "ab" = Some c
            /\ decryptData c "ababab" = Some "TABLE:users".
Proof.
  apply (proj2 (proj2 (cipher_key_period "TABLE:users" "ab" 2))). discriminate.
Defined.

(** ** Database.cpp: a file that ends or goes wrong after some tables *)





(** ** Utility.cpp: generateUUID *)

Lemma byte_cases (P : N -> bool) :
  forallb P (map N.of_nat (seq 0 256)) = true -> forall x, x < 256 -> P x = true.
Proof.
  intros H x Hx. rewrite forallb_forall in H. apply H.
  apply in_map_iff. exists (N.to_nat x). split; [lia|]. apply in_seq. lia.
Qed.

Lemma hex2_hex (b : N) (i : nat) (c : ascii) :
  b < 256 -> String.get i (hex2 b) = Some c -> is_hex c = true.
Proof.
  intros Hb. revert b Hb.
  assert (H : forall b, b < 256 ->
            is_hex (hex_digit (b / 16)) && is_hex (hex_digit (b mod 16)) = true).
  { apply byte_cases. vm_compute. reflexivity. }
  intros b Hb. specialize (H b Hb). apply andb_true_iff in H as [H1 H2].
  destruct i as [|[|i]]; cbn [hex2 String.get]; intros [= <-]; assumption.
Qed.

Lemma generateUUID_unfold (draw : nat -> N) :
  generateUUID draw
  = hex2 (draw 0%nat mod 256) +:+ hex2 (draw 1%nat mod 256)
    +:+ hex2 (draw 2%nat mod 256) +:+ hex2 (draw 3%nat mod 256) +:+ "-"
    +:+ hex2 (draw 4%nat mod 256) +:+ hex2 (draw 5%nat mod 256) +:+ "-"
    +:+ hex2 (N.lor (N.land (draw 6%nat mod 256) 15) 64)
    +:+ hex2 (draw 7%nat mod 256) +:+ "-"
    +:+ hex2 (N.lor (N.land (draw 8%nat mod 256) 63) 128)
    +:+ hex2 (draw 9%nat mod 256) +:+ "-"
    +:+ hex2 (draw 10%nat mod 256) +:+ hex2 (draw 11%nat mod 256)
    +:+ hex2 (draw 12%nat mod 256) +:+ hex2 (draw 13%nat mod 256)
    +:+ hex2 (draw 14%nat mod 256) +:+ hex2 (draw 15%nat mod 256).
Proof. reflexivity. Qed.

(** X23: whatever the random generator draws, [generateUUID] returns 36
    characters in the layout 8-4-4-4-12: hyphens at the positions 8, 13, 18
    and 23 and lower-case hexadecimal digits elsewhere, the digit at
    position 14 being the version [4] and the one at position 19 one of
    [8], [9], [a], [b] (the variant). *)
Theorem generateUUID_format (draw : nat -> N) :
  String.length (generateUUID draw) = 36%nat
  /\ (forall i, i ∈ [8; 13; 18; 23]%nat -> String.get i (generateUUID draw) = Some "-"%char)
  /\ String.get 14 (generateUUID draw) = Some "4"%char
  /\ (exists c, String.get 19 (generateUUID draw) = Some c
                /\ c ∈ ["8"; "9"; "a"; "b"]%char)
  /\ (forall i c, String.get i (generateUUID draw) = Some c ->
        i ∉ [8; 13; 18; 23]%nat -> is_hex c = true).
Proof.
  rewrite generateUUID_unfold.
  assert (Hb : forall i, draw i mod 256 < 256) by (intros i; apply N.mod_upper_bound; lia).
  set (b6 := N.lor (N.land (draw 6%nat mod 256) 15) 64).
  set (b8 := N.lor (N.land (draw 8%nat mod 256) 63) 128).
  assert (H6 : b6 < 256 /\ hex_digit (b6 / 16) = "4"%char).
  { subst b6. generalize (draw 6%nat mod 256) (Hb 6%nat). intros x Hx.
    pose proof (byte_cases
                  (fun x => (N.lor (N.land x 15) 64 <? 256)
                            && Ascii.eqb (hex_digit (N.lor (N.land x 15) 64 / 16)) "4")
                  ltac:(vm_compute; reflexivity) x Hx) as H.
    cbv beta in H. apply andb_true_iff in H as [H1 H2].
    apply N.ltb_lt in H1. apply Ascii.eqb_eq in H2. auto. }
  assert (H8 : b8 < 256
               /\ existsb (Ascii.eqb (hex_digit (b8 / 16))) ["8"; "9"; "a"; "b"]%char = true).
  { subst b8. generalize (draw 8%nat mod 256) (Hb 8%nat). intros x Hx.
    pose proof (byte_cases
                  (fun x => (N.lor (N.land x 63) 128 <? 256)
                            && existsb (Ascii.eqb (hex_digit (N.lor (N.land x 63) 128 / 16)))
                                 ["8"; "9"; "a"; "b"]%char)
                  ltac:(vm_compute; reflexivity) x Hx) as H.
    cbv beta in H. apply andb_true_iff in H as [H1 H2].
    apply N.ltb_lt in H1. auto. }
  destruct H6 as [H6 H6']. destruct H8 as [H8 H8'].
  clearbody b6 b8.
  split; [reflexivity|]. split; [|split; [|split]].
  - intros i Hi. repeat (apply elem_of_cons in Hi as [->|Hi]; [reflexivity|]).
    inversion Hi.
  - cbv beta iota fix delta [hex2 String.append String.get]. rewrite H6'. reflexivity.
  - exists (hex_digit (b8 / 16)). split; [reflexivity|].
    apply existsb_exists in H8' as (c & Hc & E). apply Ascii.eqb_eq in E. subst c.
    apply list_elem_of_In. exact Hc.
  - intros i c Hget Hi.
    assert (Hall : forall j, draw j mod 256 < 256) by exact Hb.
    do 36 (destruct i as [|i];
           [first [exfalso; apply Hi; repeat constructor; fail
                  |cbv beta iota fix delta [hex2 String.append String.get] in Hget;
                   injection Hget as <-;
                   first [eapply (hex2_hex _ 0%nat); [|reflexivity]; auto; fail
                         |eapply (hex2_hex _ 1%nat); [|reflexivity]; auto]]|]).
    cbv beta iota fix delta [hex2 String.append String.get] in Hget. discriminate.
Qed.

(** ** Database.cpp: the empty key *)

Lemma write_tables_empty (l : list (string * Table)) :
  Str.empty (write_tables l) = true <-> l = [].
Proof.
  destruct l as [|[n t] l]; [split; reflexivity|].
  split; [|discriminate]. cbn [write_tables]. unfold write_table. discriminate.
Qed.

Lemma serialize_empty (tables : Tables) (visited : list (string * Table)) :
  iteration_of tables visited ->
  (Str.empty (serialize visited) = true <-> tables = ∅).
Proof.
  unfold iteration_of, serialize. intros Hperm. rewrite write_tables_empty.
  rewrite <- (map_to_list_empty_iff tables). split.
  - intros ->. symmetry in Hperm. apply Permutation_nil_r in Hperm. exact Hperm.
  - intros E. rewrite E in Hperm. apply Permutation_nil_r in Hperm. exact Hperm.
Qed.

(** X24: with the empty key the cipher computes [i % 0] for every
    character, so a flush is undefined exactly when the catalog has a table,
    and a load exactly when the file exists and is not empty.  The empty
    catalog is flushed, with any key, as the empty file. *)
Theorem empty_key_undefined (filename : string) (tables old : Tables)
    (visited : list (string * Table)) (fs : FileSystem) :
  iteration_of tables visited ->
  (flushToFile filename EmptyString visited fs = None <-> tables <> ∅)
  /\ (loadFromFile filename EmptyString old fs = None <->
      exists data, fs_files fs !! filename = Some data /\ data <> EmptyString)
  /\ (forall key, tables = ∅ -> fs_writable fs filename = true ->
        flushToFile filename key visited fs
        = Some (true, mkFileSystem (<[filename := EmptyString]> (fs_files fs))
                                   (fs_writable fs))).
Proof.
  intros Hvisit. pose proof (serialize_empty tables visited Hvisit) as He.
  split; [|split].
  - unfold flushToFile, encryptData. cbn [Str.empty andb].
    destruct (Str.empty (serialize visited)); cbn [negb].
    + destruct (negb (fs_writable fs filename)); split; try discriminate;
        intros Hne; destruct Hne; apply He; reflexivity.
    + split; [|reflexivity]. intros _ E. apply He in E. discriminate.
  - unfold loadFromFile, decryptData. cbn [Str.empty andb].
    destruct (fs_files fs !! filename) as [data|].
    + destruct data as [|c data]; cbn [Str.empty negb].
      * cbn. split; [discriminate|]. intros (d & [= <-] & Hd). destruct Hd. reflexivity.
      * split; [|reflexivity]. intros _. eexists. split; [reflexivity|discriminate].
    + split; [discriminate|]. intros (d & Hd & _). discriminate.
  - intros key Hempty Hw. unfold flushToFile, encryptData.
    apply He in Hempty.
    assert (E : serialize visited = EmptyString)
      by (destruct (serialize visited); [reflexivity|discriminate]).
    rewrite E, Hw. cbn [Str.empty negb andb xor_loop]. rewrite andb_false_r.
    reflexivity.
Qed.

Lemma empty_key_undefined_witness :
  flushToFile "users.db" "" [] Sample.disk
  = Some (true, mkFileSystem (<["users.db" := EmptyString]> (fs_files Sample.disk))
                             (fs_writable Sample.disk)).
Proof.
  apply (proj2 (proj2 (empty_key_undefined "users.db" ∅ ∅ [] Sample.disk
                         ltac:(unfold iteration_of; rewrite map_to_list_empty;
                               reflexivity)))).
  - reflexivity.
  - reflexivity.
Defined.
